(** * Atmel SAM GMAC Ethernet driver: descriptor rings, RX reassembly,
      TX submission, completion and error recovery

    Shallow embedding of [drivers/ethernet/eth_sam_gmac.c].

    Conventions of the embedding
    - [u32_t] values (descriptor words, registers, counters, addresses) are
      [Z] with the wrap-around modulo [2^32] written out where the C
      arithmetic can wrap; [u16_t] buffer lengths wrap modulo [2^16].
    - Ring indices ([u16_t head, tail] and the [int] loop counters) are [nat];
      [MODULO_INC_u16] shows that the 16-bit increment of the C macro and
      the [nat] one agree.
    - An array together with its [len] field is a [list]; [len] is the length
      of the list, as the static initialisers ([ARRAY_SIZE]) make it.
    - [__ASSERT] is compiled out (the default, [CONFIG_ASSERT] unset); the
      asserted conditions appear as hypotheses of the theorems that need them.
    - The data cache helpers [dcache_invalidate] and [dcache_clean] do not
      change the contents of memory; their calls are therefore not visible
      in the functions that make them.
    - A function of the driver runs as one step with respect to the
      controller: the descriptors change between calls, not during one.
      What other contexts do while [eth_tx] has interrupts enabled is a
      parameter of [eth_tx]. *)

From Stdlib Require Import ZArith Lia Bool.
From stdpp Require Import base list.

#[local] Open Scope Z_scope.

(** ** Constants of [eth_sam_gmac_priv.h], the SoC header and Kconfig

    The header that defines the descriptor bit masks is not part of the
    sources at hand, so the masks are parameters of the development. *)

Class gmac_priv := {
  GMAC_RXW0_OWNERSHIP : Z;
  GMAC_RXW0_WRAP : Z;
  GMAC_RXW0_ADDR : Z;
  GMAC_RXW1_LEN : Z;
  GMAC_RXW1_SOF : Z;
  GMAC_RXW1_EOF : Z;
  GMAC_TXW1_LEN : Z;
  GMAC_TXW1_LASTBUFFER : Z;
  GMAC_TXW1_WRAP : Z;
  GMAC_TXW1_USED : Z;
  GMAC_NCR_TXEN : Z;
  GMAC_NCR_TSTART : Z;
  CONFIG_NET_BUF_DATA_SIZE : Z
}.

(** What the proofs need of the masks: the RX word 0 fields and the TX word 1
    flags do not overlap, the flags are not empty, and the RX wrap flag fits
    the [u8_t] local that [frame_get] keeps it in. *)
Class gmac_priv_ok (hw : gmac_priv) : Prop := {
  rx_addr_own : Z.land GMAC_RXW0_ADDR GMAC_RXW0_OWNERSHIP = 0;
  rx_addr_wrap : Z.land GMAC_RXW0_ADDR GMAC_RXW0_WRAP = 0;
  rx_wrap_own : Z.land GMAC_RXW0_WRAP GMAC_RXW0_OWNERSHIP = 0;
  rx_wrap_pos : 0 < GMAC_RXW0_WRAP < 256;
  tx_used_wrap : Z.land GMAC_TXW1_USED GMAC_TXW1_WRAP = 0;
  tx_used_pos : 0 < GMAC_TXW1_USED;
  tx_wrap_pos : 0 < GMAC_TXW1_WRAP
}.

(** The values of the SAM E70 header, with 64-byte data buffers. *)
Definition sam_e70 : gmac_priv := {|
  GMAC_RXW0_OWNERSHIP := 0x1;
  GMAC_RXW0_WRAP := 0x2;
  GMAC_RXW0_ADDR := 0xFFFFFFFC;
  GMAC_RXW1_LEN := 0x1FFF;
  GMAC_RXW1_SOF := 0x4000;
  GMAC_RXW1_EOF := 0x8000;
  GMAC_TXW1_LEN := 0x3FFF;
  GMAC_TXW1_LASTBUFFER := 0x8000;
  GMAC_TXW1_WRAP := 0x40000000;
  GMAC_TXW1_USED := 0x80000000;
  GMAC_NCR_TXEN := 0x8;
  GMAC_NCR_TSTART := 0x200;
  CONFIG_NET_BUF_DATA_SIZE := 64
|}.

Inductive errno := EIO | ENOBUFS.

Definition u32 (x : Z) : Z := x mod 2 ^ 32.
Definition u16 (x : Z) : Z := x mod 2 ^ 16.
Definition u8 (x : Z) : Z := x mod 2 ^ 8.

(** [w & mask] used as a C truth value. *)
Definition flag_set (w mask : Z) : bool := negb (Z.land w mask =? 0).

(** ** Data model *)

(** [struct gmac_desc] *)
Record gmac_desc := mk_desc { w0 : Z; w1 : Z }.

#[global] Instance gmac_desc_inhabited : Inhabited gmac_desc :=
  populate (mk_desc 0 0).

(** [struct gmac_desc_list]: [buf] with its [len], [head], [tail]. *)
Record gmac_desc_list := mk_desc_list {
  dl_buf : list gmac_desc;
  dl_head : nat;
  dl_tail : nat
}.

Definition dl_len (l : gmac_desc_list) : nat := length (dl_buf l).

(** [struct ring_buf]: the slots hold what the [u32_t] entries point to. *)
Record ring_buf (A : Type) := mk_ring {
  rb_buf : list A;
  rb_head : nat;
  rb_tail : nat
}.
Arguments mk_ring {A} _ _ _.
Arguments rb_buf {A} _.
Arguments rb_head {A} _.
Arguments rb_tail {A} _.

Definition rb_len {A} (rb : ring_buf A) : nat := length (rb_buf rb).

(** [struct net_buf], as far as the driver looks at it: the address of the
    buffer object (what the tracking ring stores), its [data] pointer, the
    number of bytes in use and the capacity. *)
Record net_buf := mk_buf {
  nb_ptr : Z;
  nb_data : Z;
  nb_len : Z;
  nb_size : Z
}.

#[global] Instance net_buf_inhabited : Inhabited net_buf :=
  populate (mk_buf 0 0 0 0).

(** [struct net_pkt]: the address of the packet (the frame handle), its
    fragment chain [pkt->frags] in order, and the link-layer reserve. *)
Record net_pkt := mk_pkt {
  pkt_ptr : Z;
  pkt_frags : list net_buf;
  pkt_ll_reserve : Z
}.

(** [struct k_sem] *)
Record k_sem := mk_sem { sem_count : nat; sem_limit : nat }.

(** [struct gmac_queue] *)
Record gmac_queue := mk_queue {
  rx_desc_list : gmac_desc_list;
  tx_desc_list : gmac_desc_list;
  tx_desc_sem : k_sem;
  rx_frag_list : ring_buf net_buf;
  tx_frames : ring_buf Z;
  err_rx_frames_dropped : Z;
  err_rx_flushed_count : Z;
  err_tx_flushed_count : Z
}.

(** The registers of [Gmac] that the modelled functions write. *)
Record Gmac := mk_gmac { GMAC_NCR : Z }.

(** ** Collaborators: buffer pool and semaphore *)

(** Modelled from the spec: the buffer pool ([net_pkt_get_reserve_rx],
    [net_pkt_get_reserve_rx_data], [net_pkt_get_frag], [net_pkt_unref] are
    not in the sources at hand).  The pool hands out fixed-size data buffers
    and frame containers without blocking, returns nothing when it is empty
    and takes them back on release. *)
Record net_pool := mk_pool {
  pool_pkts : list Z;
  pool_bufs : list net_buf
}.

(** Modelled from the spec: [acquire_frame_container() -> Option<Frame>];
    the container is empty and was reserved with a link-layer reserve of 0. *)
Definition net_pkt_get_reserve_rx (pool : net_pool)
  : option net_pkt * net_pool :=
  match pool_pkts pool with
  | [] => (None, pool)
  | p :: ps => (Some (mk_pkt p [] 0), mk_pool ps (pool_bufs pool))
  end.

(** Modelled from the spec: [acquire_data_buffer() -> Option<Buffer>]; a
    buffer that leaves the pool holds no bytes. *)
Definition net_pkt_get_reserve_rx_data (pool : net_pool)
  : option net_buf * net_pool :=
  match pool_bufs pool with
  | [] => (None, pool)
  | b :: bs =>
      (Some (mk_buf (nb_ptr b) (nb_data b) 0 (nb_size b)),
       mk_pool (pool_pkts pool) bs)
  end.

(** Modelled from the spec: a fragment for an RX frame comes from the same
    data buffer pool. *)
Definition net_pkt_get_frag (rx_frame : net_pkt) (pool : net_pool)
  : option net_buf * net_pool :=
  net_pkt_get_reserve_rx_data pool.

(** Modelled from the spec: release on drop; the container and every
    fragment linked to it go back to the pool. *)
Definition net_pkt_unref (pkt : net_pkt) (pool : net_pool) : net_pool :=
  mk_pool (pkt_ptr pkt :: pool_pkts pool)
          (rev (pkt_frags pkt) ++ pool_bufs pool).

(** Modelled from the spec: [net_buf_add] accounts [n] more bytes at the
    tail of the buffer ([len] is a [u16_t]). *)
Definition net_buf_add (frag : net_buf) (n : Z) : net_buf :=
  mk_buf (nb_ptr frag) (nb_data frag) (u16 (nb_len frag + n)) (nb_size frag).

(** Modelled from the spec: [net_buf_push] prepends [n] bytes of headroom to
    the data region: the data pointer moves down, the length grows. *)
Definition net_buf_push (frag : net_buf) (n : Z) : net_buf :=
  mk_buf (nb_ptr frag) (u32 (nb_data frag - n)) (u16 (nb_len frag + n))
         (nb_size frag).

(** Modelled from the spec: the fragment is appended to the output frame's
    fragment chain.  [net_pkt_frag_insert] is called on the empty chain and
    [net_buf_frag_insert] on the chain's last fragment, so both append. *)
Definition net_pkt_frag_insert (pkt : net_pkt) (frag : net_buf) : net_pkt :=
  mk_pkt (pkt_ptr pkt) (pkt_frags pkt ++ [frag]) (pkt_ll_reserve pkt).

Definition net_buf_frag_insert (pkt : net_pkt) (last_frag frag : net_buf)
  : net_pkt :=
  mk_pkt (pkt_ptr pkt) (pkt_frags pkt ++ [frag]) (pkt_ll_reserve pkt).

(** Modelled from the spec: the Submission Flow Controller is a bounded
    counting resource ([k_sem_init], [k_sem_give], [k_sem_take],
    [k_sem_reset] belong to the kernel).  A give beyond the limit is lost; a
    take with no unit available waits. *)
Definition k_sem_init (initial limit : nat) : k_sem := mk_sem initial limit.

Definition k_sem_give (s : k_sem) : k_sem :=
  if (sem_count s <? sem_limit s)%nat
  then mk_sem (S (sem_count s)) (sem_limit s) else s.

Definition k_sem_reset (s : k_sem) : k_sem := mk_sem 0 (sem_limit s).

Definition k_sem_take (s : k_sem) : option k_sem :=
  match sem_count s with
  | O => None
  | S c => Some (mk_sem c (sem_limit s))
  end.

(** ** Descriptor helpers *)

Definition gmac_desc_get_w0 (desc : gmac_desc) : Z := w0 desc.
Definition gmac_desc_get_w1 (desc : gmac_desc) : Z := w1 desc.

Definition gmac_desc_set_w0 (value : Z) (desc : gmac_desc) : gmac_desc :=
  mk_desc value (w1 desc).

Definition gmac_desc_set_w1 (value : Z) (desc : gmac_desc) : gmac_desc :=
  mk_desc (w0 desc) value.

Definition gmac_desc_append_w0 (value : Z) (desc : gmac_desc) : gmac_desc :=
  gmac_desc_set_w0 (Z.lor (gmac_desc_get_w0 desc) value) desc.

Definition gmac_desc_append_w1 (value : Z) (desc : gmac_desc) : gmac_desc :=
  gmac_desc_set_w1 (Z.lor (gmac_desc_get_w1 desc) value) desc.

(** [#define MODULO_INC(val, max) {val = (++val < max) ? val : 0; }] *)
Definition MODULO_INC (val max : nat) : nat :=
  if (S val <? max)%nat then S val else 0%nat.

(** The same macro on [u16_t] operands. *)
Definition MODULO_INC_Z (val max : Z) : Z :=
  if u16 (val + 1) <? max then u16 (val + 1) else 0.

Definition ring_buf_reset {A} (rb : ring_buf A) : ring_buf A :=
  mk_ring (rb_buf rb) 0%nat 0%nat.

(** [ring_buf_get]: the entry at [tail] (0 if [tail] points outside the
    array, where the C code reads past it), and the ring with [tail] moved. *)
Definition ring_buf_get (rb : ring_buf Z) : Z * ring_buf Z :=
  (default 0 (rb_buf rb !! rb_tail rb),
   mk_ring (rb_buf rb) (rb_head rb) (MODULO_INC (rb_tail rb) (rb_len rb))).

Definition ring_buf_put (rb : ring_buf Z) (val : Z) : ring_buf Z :=
  mk_ring (<[rb_head rb := val]> (rb_buf rb))
          (MODULO_INC (rb_head rb) (rb_len rb)) (rb_tail rb).

(** [for (int i = 0; i < n; i++) body], as a fold over the loop counter. *)
Fixpoint for_upto {S : Type} (n : nat) (body : nat → S → S) (s : S) : S :=
  match n with
  | O => s
  | S n' => body n' (for_upto n' body s)
  end.

(** Field updates of [struct gmac_queue]. *)
Definition set_rx_desc_list (l : gmac_desc_list) (q : gmac_queue) :=
  mk_queue l (tx_desc_list q) (tx_desc_sem q) (rx_frag_list q) (tx_frames q)
    (err_rx_frames_dropped q) (err_rx_flushed_count q)
    (err_tx_flushed_count q).
Definition set_tx_desc_list (l : gmac_desc_list) (q : gmac_queue) :=
  mk_queue (rx_desc_list q) l (tx_desc_sem q) (rx_frag_list q) (tx_frames q)
    (err_rx_frames_dropped q) (err_rx_flushed_count q)
    (err_tx_flushed_count q).
Definition set_tx_desc_sem (s : k_sem) (q : gmac_queue) :=
  mk_queue (rx_desc_list q) (tx_desc_list q) s (rx_frag_list q) (tx_frames q)
    (err_rx_frames_dropped q) (err_rx_flushed_count q)
    (err_tx_flushed_count q).
Definition set_rx_frag_list (r : ring_buf net_buf) (q : gmac_queue) :=
  mk_queue (rx_desc_list q) (tx_desc_list q) (tx_desc_sem q) r (tx_frames q)
    (err_rx_frames_dropped q) (err_rx_flushed_count q)
    (err_tx_flushed_count q).
Definition set_tx_frames (r : ring_buf Z) (q : gmac_queue) :=
  mk_queue (rx_desc_list q) (tx_desc_list q) (tx_desc_sem q) (rx_frag_list q)
    r (err_rx_frames_dropped q) (err_rx_flushed_count q)
    (err_tx_flushed_count q).
Definition set_err_rx_frames_dropped (c : Z) (q : gmac_queue) :=
  mk_queue (rx_desc_list q) (tx_desc_list q) (tx_desc_sem q) (rx_frag_list q)
    (tx_frames q) c (err_rx_flushed_count q) (err_tx_flushed_count q).
Definition set_err_tx_flushed_count (c : Z) (q : gmac_queue) :=
  mk_queue (rx_desc_list q) (tx_desc_list q) (tx_desc_sem q) (rx_frag_list q)
    (tx_frames q) (err_rx_frames_dropped q) (err_rx_flushed_count q) c.

(** How a loop stands after a turn when its body can [return]: still
    running, or left by the [return]; either way with the state as written
    so far. *)
Inductive loop_state (S : Type) :=
  | Running (s : S)
  | Returned (s : S).
Arguments Running {S} s.
Arguments Returned {S} s.

(** What [free_rx_bufs] hands to [net_buf_unref]. *)
Inductive unref_arg := TrackingArray.

Section Driver.
Context {hw : gmac_priv}.

(** ** Ring reset *)

(** [free_rx_bufs]: the arguments of its calls of [net_buf_unref], in
    order.  Every turn of its loop passes [rx_frag_list->buf] cast to a
    buffer pointer: the tracking array itself and never an entry of it;
    the array is there ([rx_descriptors_init] asserts it), so the test
    [if (buf)] holds on every turn.  The function writes nothing of its
    own. *)
Definition free_rx_bufs (rx_frag_list : ring_buf net_buf) : list unref_arg :=
  for_upto (rb_len rx_frag_list)
    (λ _ calls, calls ++ [TrackingArray]) [].

(** One turn of the loop of [rx_descriptors_init], on the pool, the
    descriptors and the tracking array.  [Returned] stands for the early
    [return -ENOBUFS], with everything as the earlier turns left it. *)
Definition rx_descriptors_init_body (i : nat)
    (st : loop_state (net_pool * list gmac_desc * list net_buf))
  : loop_state (net_pool * list gmac_desc * list net_buf) :=
  match st with
  | Returned s => Returned s
  | Running (pool, descs, frags) =>
      match net_pkt_get_reserve_rx_data pool with
      | (None, pool') => Returned (pool', descs, frags)
      | (Some rx_buf, pool') =>
          let frags' := <[i := rx_buf]> frags in
          let rx_buf_addr := nb_data rx_buf in
          (* Give ownership to GMAC and remove the wrap bit *)
          let descs1 :=
            alter (gmac_desc_set_w0 (Z.land rx_buf_addr GMAC_RXW0_ADDR))
                  i descs in
          let descs2 := alter (gmac_desc_set_w1 0) i descs1 in
          Running (pool', descs2, frags')
      end
  end.

(** [rx_descriptors_init].  The result is [inr] for 0, with the pool and the
    queue afterwards, and [inl] for [-ENOBUFS], with the pool and the queue
    as the function leaves them (both tails reset, the slots of the earlier
    turns rewritten) and the calls of [net_buf_unref] that [free_rx_bufs]
    made.  What [net_buf_unref] makes of the tracking array is the buffer
    pool's affair and not in the sources at hand: the pool of the [inl] case
    is the pool before those calls. *)
Definition rx_descriptors_init (pool : net_pool) (queue : gmac_queue)
  : (errno * net_pool * gmac_queue * list unref_arg)
    + (net_pool * gmac_queue) :=
  let rx_desc_list := rx_desc_list queue in
  let rx_frag_list := rx_frag_list queue in
  match for_upto (dl_len rx_desc_list) rx_descriptors_init_body
          (Running (pool, dl_buf rx_desc_list, rb_buf rx_frag_list)) with
  | Returned (pool', descs, frags) =>
      let rx_frag_list' := mk_ring frags (rb_head rx_frag_list) 0%nat in
      inl (ENOBUFS, pool',
           set_rx_frag_list rx_frag_list'
             (set_rx_desc_list
                (mk_desc_list descs (dl_head rx_desc_list) 0%nat) queue),
           free_rx_bufs rx_frag_list')
  | Running (pool', descs, frags) =>
      (* Set the wrap bit on the last descriptor *)
      let descs' :=
        alter (gmac_desc_append_w0 GMAC_RXW0_WRAP)
              (dl_len rx_desc_list - 1)%nat descs in
      inr (pool',
           set_rx_frag_list (mk_ring frags (rb_head rx_frag_list) 0%nat)
             (set_rx_desc_list
                (mk_desc_list descs' (dl_head rx_desc_list) 0%nat) queue))
  end.

Definition tx_descriptors_init_body (i : nat) (descs : list gmac_desc)
  : list gmac_desc :=
  alter (gmac_desc_set_w1 GMAC_TXW1_USED) i
        (alter (gmac_desc_set_w0 0) i descs).

(** [tx_descriptors_init] *)
Definition tx_descriptors_init (queue : gmac_queue) : gmac_queue :=
  let tx_desc_list := tx_desc_list queue in
  let descs :=
    for_upto (dl_len tx_desc_list) tx_descriptors_init_body
             (dl_buf tx_desc_list) in
  (* Set the wrap bit on the last descriptor *)
  let descs' :=
    alter (gmac_desc_append_w1 GMAC_TXW1_WRAP)
          (dl_len tx_desc_list - 1)%nat descs in
  (* Reset TX frame list *)
  set_tx_frames (ring_buf_reset (tx_frames queue))
    (set_tx_desc_list (mk_desc_list descs' 0%nat 0%nat) queue).

(** ** Frame Assembler: [frame_get] *)

(** First loop of [frame_get]: is there a complete frame at [tail]?  The
    loop body changes nothing but the local [tail] and [frame_is_complete].
    [None]: the fuel ran out.  [frame_get] runs it with [S len] units; after
    [len] turns without leaving the loop every descriptor is owned and none
    carries end-of-frame, [tail] is back where it started, and the C loop
    never ends. *)
Fixpoint frame_get_scan (fuel : nat) (descs : list gmac_desc) (tail : nat)
    (frame_is_complete : bool) : option bool :=
  match fuel with
  | O => None
  | S fuel' =>
      let rx_desc := descs !!! tail in
      if flag_set (gmac_desc_get_w0 rx_desc) GMAC_RXW0_OWNERSHIP
         && negb frame_is_complete
      then frame_get_scan fuel' descs (MODULO_INC tail (length descs))
             (flag_set (gmac_desc_get_w1 rx_desc) GMAC_RXW1_EOF)
      else Some frame_is_complete
  end.

(** The variables of the second loop of [frame_get]. *)
Record rx_walk := mk_walk {
  wk_desc : list gmac_desc;       (* rx_desc_list->buf *)
  wk_frag : list net_buf;         (* rx_frag_list->buf *)
  wk_tail : nat;
  wk_complete : bool;             (* frame_is_complete *)
  wk_frame_len : Z;
  wk_rx_frame : option net_pkt;
  wk_last_frag : option net_buf;
  wk_pool : net_pool;
  wk_dropped : Z                  (* queue->err_rx_frames_dropped *)
}.

(** [frag_len] of the fragment at a descriptor with status word [w1v]. *)
Definition frame_get_frag_len (w1v frame_len : Z) : Z :=
  if flag_set w1v GMAC_RXW1_EOF
  then u32 (Z.land w1v GMAC_RXW1_LEN - frame_len)
  else u32 CONFIG_NET_BUF_DATA_SIZE.

(** "Link frame fragments only if RX net buffer is valid": the buffer that
    stays posted at the slot, and the loop variables after the step. *)
Definition frame_get_link (frag : net_buf) (frag_len : Z) (st : rx_walk)
  : net_buf * rx_walk :=
  match wk_rx_frame st with
  | None => (frag, st)
  | Some rx_frame =>
      (* Get a new data net buffer from the buffer pool *)
      match net_pkt_get_frag rx_frame (wk_pool st) with
      | (None, pool) =>
          (frag,
           mk_walk (wk_desc st) (wk_frag st) (wk_tail st) (wk_complete st)
             (wk_frame_len st) None (wk_last_frag st)
             (net_pkt_unref rx_frame pool) (u32 (wk_dropped st + 1)))
      | (Some new_frag, pool) =>
          let frag1 := net_buf_add frag frag_len in
          let rx_frame1 :=
            match wk_last_frag st with
            | None => net_pkt_frag_insert rx_frame frag1
            | Some last_frag => net_buf_frag_insert rx_frame last_frag frag1
            end in
          (new_frag,
           mk_walk (wk_desc st) (<[wk_tail st := new_frag]> (wk_frag st))
             (wk_tail st) (wk_complete st) (wk_frame_len st)
             (Some rx_frame1) (Some frag1) pool (wk_dropped st))
      end
  end.

(** Body of the second loop of [frame_get]. *)
Definition frame_get_body (st : rx_walk) : rx_walk :=
  let len := length (wk_desc st) in
  let tail := wk_tail st in
  let rx_desc := wk_desc st !!! tail in
  let frag := wk_frag st !!! tail in
  let frame_is_complete :=
    flag_set (gmac_desc_get_w1 rx_desc) GMAC_RXW1_EOF in
  let frag_len :=
    frame_get_frag_len (gmac_desc_get_w1 rx_desc) (wk_frame_len st) in
  let frame_len := u32 (wk_frame_len st + frag_len) in
  let '(frag, st1) := frame_get_link frag frag_len st in
  (* Update buffer descriptor status word *)
  let descs1 := alter (gmac_desc_set_w1 0) tail (wk_desc st1) in
  (* Update buffer descriptor address word *)
  let wrap :=
    u8 (if Z.of_nat tail =? Z.of_nat len - 1 then GMAC_RXW0_WRAP else 0) in
  let descs2 :=
    alter (gmac_desc_set_w0
             (Z.lor (Z.land (nb_data frag) GMAC_RXW0_ADDR) wrap))
          tail descs1 in
  mk_walk descs2 (wk_frag st1) (MODULO_INC tail len) frame_is_complete
    frame_len (wk_rx_frame st1) (wk_last_frag st1) (wk_pool st1)
    (wk_dropped st1).

(** Second loop of [frame_get]; [None]: the fuel ran out. *)
Fixpoint frame_get_walk (fuel : nat) (st : rx_walk) : option rx_walk :=
  match fuel with
  | O => None
  | S fuel' =>
      let rx_desc := wk_desc st !!! wk_tail st in
      if flag_set (gmac_desc_get_w0 rx_desc) GMAC_RXW0_OWNERSHIP
         && negb (wk_complete st)
      then frame_get_walk fuel' (frame_get_body st)
      else Some st
  end.

(** [frame_get]: the frame returned ([None] for [NULL]), the pool and the
    queue afterwards.  The outer [None] means that the call does not
    return. *)
Definition frame_get (pool : net_pool) (queue : gmac_queue)
  : option (option net_pkt * net_pool * gmac_queue) :=
  let rx_desc_list := rx_desc_list queue in
  let rx_frag_list := rx_frag_list queue in
  let fuel := S (dl_len rx_desc_list) in
  (* Check if there exists a complete frame in RX descriptor list *)
  match frame_get_scan fuel (dl_buf rx_desc_list) (dl_tail rx_desc_list)
          false with
  | None => None
  | Some false => Some (None, pool, queue)
  | Some true =>
      let '(rx_frame, pool1) := net_pkt_get_reserve_rx pool in
      (* Process a frame *)
      match frame_get_walk fuel
              (mk_walk (dl_buf rx_desc_list) (rb_buf rx_frag_list)
                 (dl_tail rx_desc_list) false 0 rx_frame None pool1
                 (err_rx_frames_dropped queue)) with
      | None => None
      | Some st =>
          Some (wk_rx_frame st, wk_pool st,
                set_err_rx_frames_dropped (wk_dropped st)
                  (set_rx_frag_list
                     (mk_ring (wk_frag st) (rb_head rx_frag_list)
                        (rb_tail rx_frag_list))
                     (set_rx_desc_list
                        (mk_desc_list (wk_desc st) (dl_head rx_desc_list)
                           (wk_tail st)) queue)))
      end
  end.

(** ** Completion and error handling (TX) *)

(** What a TX handler does to its collaborators, in program order:
    [EvScan i] marks [tx_desc = &tx_desc_list->buf[i]], [EvSemGive] a
    [k_sem_give] on the flow controller and [EvPktUnref p] a
    [net_pkt_unref] of the frame handle [p]. *)
Inductive tx_event :=
  | EvScan (i : nat)
  | EvSemGive
  | EvPktUnref (pkt : Z).

(** The loop of [tx_completed], without the optional time stamping
    ([CONFIG_PTP_CLOCK_SAM_GMAC]); [None]: the fuel ran out. *)
Fixpoint tx_completed_loop (fuel : nat) (queue : gmac_queue)
  : option (gmac_queue * list tx_event) :=
  match fuel with
  | O => None
  | S fuel' =>
      let tx_desc_list := tx_desc_list queue in
      if (dl_tail tx_desc_list =? dl_head tx_desc_list)%nat
      then Some (queue, [])
      else
        let i := dl_tail tx_desc_list in
        let tx_desc := dl_buf tx_desc_list !!! i in
        let queue1 :=
          set_tx_desc_sem (k_sem_give (tx_desc_sem queue))
            (set_tx_desc_list
               (mk_desc_list (dl_buf tx_desc_list) (dl_head tx_desc_list)
                  (MODULO_INC i (dl_len tx_desc_list))) queue) in
        if flag_set (gmac_desc_get_w1 tx_desc) GMAC_TXW1_LASTBUFFER
        then
          (* Release net buffer to the buffer pool *)
          let '(pkt, frames) := ring_buf_get (tx_frames queue1) in
          Some (set_tx_frames frames queue1,
                [EvScan i; EvSemGive; EvPktUnref pkt])
        else
          match tx_completed_loop fuel' queue1 with
          | None => None
          | Some (queue2, tr) => Some (queue2, EvScan i :: EvSemGive :: tr)
          end
  end.

(** [tx_completed].  Every turn of the loop moves [tail] to a slot it has
    not visited, so [S len] units of fuel are enough whenever the C loop
    ends. *)
Definition tx_completed (queue : gmac_queue)
  : option (gmac_queue * list tx_event) :=
  tx_completed_loop (S (dl_len (tx_desc_list queue))) queue.

(** "Free all pkt resources in the TX path": the loop of
    [tx_error_handler], with the handles it releases, in order. *)
Fixpoint tx_error_flush (fuel : nat) (tx_frames : ring_buf Z)
  : option (ring_buf Z * list Z) :=
  match fuel with
  | O => None
  | S fuel' =>
      if (rb_tail tx_frames =? rb_head tx_frames)%nat
      then Some (tx_frames, [])
      else
        let pkt := default 0 (rb_buf tx_frames !! rb_tail tx_frames) in
        match tx_error_flush fuel'
                (mk_ring (rb_buf tx_frames) (rb_head tx_frames)
                   (MODULO_INC (rb_tail tx_frames) (rb_len tx_frames))) with
        | None => None
        | Some (r, released) => Some (r, pkt :: released)
        end
  end.

(** [tx_error_handler]: the registers and the queue afterwards, and the
    frame handles passed to [net_pkt_unref], in order. *)
Definition tx_error_handler (gmac : Gmac) (queue : gmac_queue)
  : option (Gmac * gmac_queue * list Z) :=
  let queue1 :=
    set_err_tx_flushed_count (u32 (err_tx_flushed_count queue + 1)) queue in
  (* Stop transmission, clean transmit pipeline and control registers *)
  let gmac1 := mk_gmac (Z.ldiff (GMAC_NCR gmac) GMAC_NCR_TXEN) in
  (* Free all pkt resources in the TX path *)
  match tx_error_flush (S (rb_len (tx_frames queue1))) (tx_frames queue1) with
  | None => None
  | Some (frames, released) =>
      let queue2 := set_tx_frames frames queue1 in
      (* Reinitialize TX descriptor list *)
      let queue3 :=
        set_tx_desc_sem (k_sem_reset (tx_desc_sem queue2)) queue2 in
      let queue4 := tx_descriptors_init queue3 in
      let queue5 :=
        for_upto (dl_len (tx_desc_list queue4) - 1)%nat
          (λ _ q, set_tx_desc_sem (k_sem_give (tx_desc_sem q)) q) queue4 in
      (* Restart transmission *)
      let gmac2 := mk_gmac (Z.lor (GMAC_NCR gmac1) GMAC_NCR_TXEN) in
      Some (gmac2, queue5, released)
  end.

(** ** Frame Submitter: [eth_tx] *)

(** What the driver shares with the interrupt handler and other callers. *)
Record eth_dev := mk_dev { dev_gmac : Gmac; dev_queue : gmac_queue }.

(** How a call of [eth_tx] ends: [return 0], [return -errno], asleep in
    [k_sem_take(K_FOREVER)] with no unit in sight, or the dereference of a
    missing [pkt->frags]. *)
Inductive tx_ret :=
  | TxOk
  | TxErr (e : errno)
  | TxBlocked
  | TxFault.

(** The critical section of one fragment, between [irq_lock] and
    [irq_unlock]: [Some e] for [return -e], [None] to go on. *)
Definition eth_tx_fragment (err_tx_flushed_count_at_entry : Z)
    (frag : net_buf) (last : bool) (queue : gmac_queue)
  : option errno * gmac_queue :=
  let tx_desc_list := tx_desc_list queue in
  let frag_data := nb_data frag in
  let frag_len := u16 (nb_len frag) in
  (* Check if tx_error_handler() function was executed *)
  if negb (err_tx_flushed_count queue =? err_tx_flushed_count_at_entry)
  then (Some EIO, queue)
  else
    let head := dl_head tx_desc_list in
    let len := dl_len tx_desc_list in
    (* Update buffer descriptor address word *)
    let descs1 := alter (gmac_desc_set_w0 frag_data) head
                        (dl_buf tx_desc_list) in
    (* Update buffer descriptor status word (clear used bit) *)
    let descs2 :=
      alter (gmac_desc_set_w1
               (Z.lor (Z.lor (Z.land frag_len GMAC_TXW1_LEN)
                             (if last then GMAC_TXW1_LASTBUFFER else 0))
                      (if Z.of_nat head =? Z.of_nat len - 1
                       then GMAC_TXW1_WRAP else 0)))
            head descs1 in
    (* Update descriptor position *)
    (None,
     set_tx_desc_list
       (mk_desc_list descs2 (MODULO_INC head len) (dl_tail tx_desc_list))
       queue).

(** The critical section after the last fragment. *)
Definition eth_tx_commit (err_tx_flushed_count_at_entry : Z) (pkt : net_pkt)
    (queue : gmac_queue) : option errno * gmac_queue :=
  let tx_desc_list := tx_desc_list queue in
  (* Check if tx_error_handler() function was executed *)
  if negb (err_tx_flushed_count queue =? err_tx_flushed_count_at_entry)
  then (Some EIO, queue)
  else
    (* Ensure the descriptor following the last one is marked as used *)
    let descs :=
      alter (gmac_desc_append_w1 GMAC_TXW1_USED) (dl_head tx_desc_list)
            (dl_buf tx_desc_list) in
    let queue1 :=
      set_tx_desc_list
        (mk_desc_list descs (dl_head tx_desc_list) (dl_tail tx_desc_list))
        queue in
    (* Account for a sent frame *)
    (None, set_tx_frames (ring_buf_put (tx_frames queue1) (pkt_ptr pkt))
             queue1).

(** The [while (frag)] loop of [eth_tx].  Interrupts are enabled outside the
    critical sections; [env k] is what the interrupt handler and other
    threads do to the shared state at the [k]-th such place (before
    [k_sem_take] returns, and between [k_sem_take] and [irq_lock]).
    [Some r]: the call ends with [r]; [None]: the loop is left normally. *)
Fixpoint eth_tx_loop (env : nat → eth_dev → eth_dev) (k : nat)
    (err_tx_flushed_count_at_entry : Z) (frags : list net_buf)
    (dev : eth_dev) : option tx_ret * eth_dev :=
  match frags with
  | [] => (None, dev)
  | frag :: rest =>
      let dev1 := env k dev in
      match k_sem_take (tx_desc_sem (dev_queue dev1)) with
      | None => (Some TxBlocked, dev1)
      | Some sem =>
          let dev2 :=
            env (S k)
              (mk_dev (dev_gmac dev1)
                 (set_tx_desc_sem sem (dev_queue dev1))) in
          match eth_tx_fragment err_tx_flushed_count_at_entry frag
                  (match rest with [] => true | _ => false end)
                  (dev_queue dev2) with
          | (Some e, queue) => (Some (TxErr e), mk_dev (dev_gmac dev2) queue)
          | (None, queue) =>
              eth_tx_loop env (S (S k)) err_tx_flushed_count_at_entry rest
                (mk_dev (dev_gmac dev2) queue)
          end
      end
  end.

(** [eth_tx]: how the call ends, the shared state and the packet then. *)
Definition eth_tx (env : nat → eth_dev → eth_dev) (dev : eth_dev)
    (pkt : net_pkt) : tx_ret * eth_dev * net_pkt :=
  let err_tx_flushed_count_at_entry :=
    err_tx_flushed_count (dev_queue dev) in
  match pkt_frags pkt with
  | [] => (TxFault, dev, pkt)
  | first :: rest =>
      (* Store the original frag data pointer *)
      let frag_orig := nb_data first in
      let first1 := net_buf_push first (pkt_ll_reserve pkt) in
      let pkt1 := mk_pkt (pkt_ptr pkt) (first1 :: rest) (pkt_ll_reserve pkt) in
      match eth_tx_loop env 0 err_tx_flushed_count_at_entry (pkt_frags pkt1)
              dev with
      | (Some r, dev1) => (r, dev1, pkt1)
      | (None, dev1) =>
          (* Restore the original frag data pointer *)
          let first2 :=
            mk_buf (nb_ptr first1) frag_orig (nb_len first1)
                   (nb_size first1) in
          let pkt2 :=
            mk_pkt (pkt_ptr pkt) (first2 :: rest) (pkt_ll_reserve pkt) in
          let k := (2 * length (pkt_frags pkt))%nat in
          let dev2 := env k dev1 in
          match eth_tx_commit err_tx_flushed_count_at_entry pkt2
                  (dev_queue dev2) with
          | (Some e, queue) => (TxErr e, mk_dev (dev_gmac dev2) queue, pkt2)
          | (None, queue) =>
              let dev3 := env (S k) (mk_dev (dev_gmac dev2) queue) in
              (* Start transmission *)
              (TxOk,
               mk_dev (mk_gmac (Z.lor (GMAC_NCR (dev_gmac dev3))
                                      GMAC_NCR_TSTART))
                      (dev_queue dev3),
               pkt2)
          end
      end
  end.

End Driver.

(** ** Vocabulary of the specification *)

Section Vocabulary.
Context {hw : gmac_priv}.

(** The buffer a pool hands out for the stored buffer [b]. *)
Definition fresh (b : net_buf) : net_buf :=
  mk_buf (nb_ptr b) (nb_data b) 0 (nb_size b).

(** A descriptor is owned by the hardware when its ownership bit is clear:
    the controller may then write a frame into its buffer. *)
Definition hw_owned (d : gmac_desc) : Prop :=
  flag_set (w0 d) GMAC_RXW0_OWNERSHIP = false.

(** The address field of the descriptor is the data address of the buffer
    the tracking ring records for the slot. *)
Definition slot_addr_ok (d : gmac_desc) (f : net_buf) : Prop :=
  Z.land (w0 d) GMAC_RXW0_ADDR = nb_data f.



(** [!((u32_t)rx_buf_addr & ~GMAC_RXW0_ADDR)], the condition that
    [rx_descriptors_init] asserts of a buffer of the pool. *)
Definition buf_aligned (b : net_buf) : Prop :=
  Z.ldiff (nb_data b) GMAC_RXW0_ADDR = 0.

(** The slot [j] places after [t] in a ring of [n] slots. *)
Definition ring_slot (n t j : nat) : nat := ((t + j) mod n)%nat.


(** The number of descriptors owned by software. *)
Fixpoint count_owned (l : list gmac_desc) : nat :=
  match l with
  | [] => 0
  | d :: l' =>
      ((if flag_set (w0 d) GMAC_RXW0_OWNERSHIP then 1 else 0)
       + count_owned l')%nat
  end.


(** [k] descriptors from slot [t] on make one complete frame: each is owned
    by software and the last of them, and no other, carries end-of-frame. *)
Definition rx_run (descs : list gmac_desc) (t k : nat) : Prop :=
  ∀ j, (j < k)%nat →
    let d := descs !!! ring_slot (length descs) t j in
    flag_set (w0 d) GMAC_RXW0_OWNERSHIP = true ∧
    flag_set (w1 d) GMAC_RXW1_EOF = bool_decide (S j = k).

(** [k] descriptors from slot [t] on are owned by software and carry no
    end-of-frame, and the next one is not owned by software: a frame that
    the controller is still writing. *)
Definition rx_incomplete (descs : list gmac_desc) (t k : nat) : Prop :=
  (∀ j, (j < k)%nat →
     let d := descs !!! ring_slot (length descs) t j in
     flag_set (w0 d) GMAC_RXW0_OWNERSHIP = true ∧
     flag_set (w1 d) GMAC_RXW1_EOF = false) ∧
  flag_set (w0 (descs !!! ring_slot (length descs) t k)) GMAC_RXW0_OWNERSHIP
  = false.

(** The loop variables after [m] turns of the second loop. *)
Definition frame_get_walk_n (m : nat) (st : rx_walk) : rx_walk :=
  Nat.iter m frame_get_body st.


(** The length that [frame_get] gives fragment [j] of a frame of [k]
    fragments that starts at slot [t]. *)
Definition rx_frag_len (descs : list gmac_desc) (t k j : nat) : Z :=
  if decide (S j = k)
  then u32 (Z.land (w1 (descs !!! ring_slot (length descs) t j))
                   GMAC_RXW1_LEN
            - u32 (Z.of_nat j * CONFIG_NET_BUF_DATA_SIZE))
  else u32 CONFIG_NET_BUF_DATA_SIZE.

(** The first [m] fragments of that frame: the posted buffers, in order,
    with the received bytes accounted. *)
Definition rx_chain (descs : list gmac_desc) (frags : list net_buf)
    (t k m : nat) : list net_buf :=
  (λ j, net_buf_add (frags !!! ring_slot (length descs) t j)
          (rx_frag_len descs t k j)) <$> seq 0 m.

(** The fragment length as the specification words it: the reported length
    minus the bytes already accounted for, except for the fragment with
    end-of-frame, which takes the reported length as it is. *)
Definition frag_len_as_specified (w1v frame_len : Z) : Z :=
  if flag_set w1v GMAC_RXW1_EOF
  then Z.land w1v GMAC_RXW1_LEN
  else u32 (Z.land w1v GMAC_RXW1_LEN - frame_len).

(** Modelled from the spec: the length of a logical frame is the number of
    bytes in its fragments. *)
Definition frame_length (pkt : net_pkt) : Z :=
  foldr (λ b acc, nb_len b + acc) 0 (pkt_frags pkt).


(** The events of a scan of [k] TX descriptors from slot [t] on: each
    descriptor is looked at and one flow-controller unit is released. *)
Definition tx_scan_events (n t k : nat) : list tx_event :=
  mjoin ((λ j, [EvScan (ring_slot n t j); EvSemGive]) <$> seq 0 k).

(** The number of slots from [t] forward to [h]. *)
Definition ring_distance (n t h : nat) : nat := ((h + n - t) mod n)%nat.

(** The frame handles in flight: the entries of the ring from [tail] up to
    [head], oldest first. *)
Definition tx_in_flight (rb : ring_buf Z) : list Z :=
  (λ j, default 0 (rb_buf rb !! ring_slot (rb_len rb) (rb_tail rb) j))
    <$> seq 0 (ring_distance (rb_len rb) (rb_tail rb) (rb_head rb)).

(** The TX descriptors as [tx_descriptors_init] leaves a ring of [n]. *)
Definition tx_reset_descs (n : nat) : list gmac_desc :=
  (λ i, mk_desc 0 (Z.lor GMAC_TXW1_USED
                         (if decide (S i = n) then GMAC_TXW1_WRAP else 0)))
    <$> seq 0 n.

(** The queue as [tx_error_handler] leaves it, [c] being the new value of
    the flush counter. *)
Definition tx_flushed_queue (queue : gmac_queue) (c : Z) : gmac_queue :=
  let n := dl_len (tx_desc_list queue) in
  mk_queue (rx_desc_list queue)
    (mk_desc_list (tx_reset_descs n) 0 0)
    (mk_sem ((n - 1) `min` sem_limit (tx_desc_sem queue))
            (sem_limit (tx_desc_sem queue)))
    (rx_frag_list queue)
    (mk_ring (rb_buf (tx_frames queue)) 0 0)
    (err_rx_frames_dropped queue) (err_rx_flushed_count queue) c.

(** The first [j] turns of the [while (frag)] loop of [eth_tx], begun at
    the [k]-th place with interrupts enabled: the fragments still to be
    submitted and the shared state on coming to the next turn, or to the
    end of the loop.  [None]: the call has ended, or sleeps, before that. *)
Fixpoint eth_tx_loop_turns (j : nat) (env : nat → eth_dev → eth_dev)
    (k : nat) (err_tx_flushed_count_at_entry : Z) (frags : list net_buf)
    (dev : eth_dev) : option (list net_buf * eth_dev) :=
  match j with
  | O => Some (frags, dev)
  | S j' =>
      match frags with
      | [] => None
      | frag :: rest =>
          let dev1 := env k dev in
          match k_sem_take (tx_desc_sem (dev_queue dev1)) with
          | None => None
          | Some sem =>
              let dev2 :=
                env (S k)
                  (mk_dev (dev_gmac dev1)
                     (set_tx_desc_sem sem (dev_queue dev1))) in
              match eth_tx_fragment err_tx_flushed_count_at_entry frag
                      (match rest with [] => true | _ => false end)
                      (dev_queue dev2) with
              | (Some _, _) => None
              | (None, queue) =>
                  eth_tx_loop_turns j' env (S (S k))
                    err_tx_flushed_count_at_entry rest
                    (mk_dev (dev_gmac dev2) queue)
              end
          end
      end
  end.

End Vocabulary.

Arguments ring_slot : simpl never.
Arguments frame_get_walk_n {hw} m st : simpl never.

(** ** Example states

    All with the SAM E70 layout [sam_e70] (64-byte data buffers). *)

(** A data buffer at [p]; its data region starts 16 bytes in. *)
Definition ex_buf (p : Z) : net_buf := mk_buf p (p + 16) 0 64.

(** A TX ring of four descriptors.  The frame [0xA000] of two fragments
    (slots 0 and 1) has been sent: the controller has set the used bit of its
    first descriptor only; slot 1 carries the last-buffer flag.  Slot 2 is
    the sentinel behind it, [head] is there. *)
Definition ex_tx_desc_list : gmac_desc_list :=
  mk_desc_list
    [mk_desc 0xB010 (Z.lor 0x80000000 64);
     mk_desc 0xB110 (Z.lor 0x8000 40);
     mk_desc 0 0x80000000;
     mk_desc 0 (Z.lor 0x80000000 0x40000000)]
    2 0.

(** An RX ring of four descriptors with [tail] at slot 2.  Slots 2, 3 and 0
    hold one received frame of 168 bytes: owned by software, start-of-frame
    on slot 2, end-of-frame and the length on slot 0.  Slot 1 is owned by
    the hardware.  Slot 3 is the last slot and has the wrap flag. *)
Definition ex_queue : gmac_queue :=
  mk_queue
    (mk_desc_list
       [mk_desc (Z.lor 0x1010 0x1) (Z.lor 0x8000 168);
        mk_desc 0x2010 0;
        mk_desc (Z.lor 0x3010 0x1) 0x4000;
        mk_desc (Z.lor 0x4010 0x3) 0]
       0 2)
    ex_tx_desc_list
    (mk_sem 1 3)
    (mk_ring [ex_buf 0x1000; ex_buf 0x2000; ex_buf 0x3000; ex_buf 0x4000] 0 0)
    (mk_ring [0xA000; 0; 0] 1 0)
    0 0 0.

(** The same queue while the controller is still writing the frame: slots
    2 and 3 are filled, slot 0 is not yet handed over. *)
Definition ex_queue_incomplete : gmac_queue :=
  set_rx_desc_list
    (mk_desc_list
       [mk_desc 0x1010 0;
        mk_desc 0x2010 0;
        mk_desc (Z.lor 0x3010 0x1) 0x4000;
        mk_desc (Z.lor 0x4010 0x3) 0]
       0 2)
    ex_queue.

(** A pool with two frame containers and four data buffers, and one with a
    single data buffer. *)
Definition ex_pool : net_pool :=
  mk_pool [0x9000; 0x9100]
          [ex_buf 0x5000; ex_buf 0x6000; ex_buf 0x7000; ex_buf 0x8000].

Definition ex_pool_short : net_pool := mk_pool [0x9000] [ex_buf 0x5000].

Definition ex_gmac : Gmac := mk_gmac 0xC.

Definition ex_dev : eth_dev := mk_dev ex_gmac ex_queue.

(** A packet of two fragments with 14 bytes of link-layer header reserved. *)
Definition ex_pkt : net_pkt :=
  mk_pkt 0xA100 [mk_buf 0xC000 0xC01E 50 64; mk_buf 0xC100 0xC110 20 64] 14.

(** An interrupt that runs [tx_error_handler] while [eth_tx] waits for its
    second descriptor. *)
Definition env_tx_error (k : nat) (dev : eth_dev) : eth_dev :=
  if (k =? 2)%nat
  then match tx_error_handler (hw := sam_e70) (dev_gmac dev)
               (dev_queue dev) with
       | Some (gmac, queue, _) => mk_dev gmac queue
       | None => dev
       end
  else dev.

(** An interrupt that runs [tx_completed] at the same place. *)
Definition env_tx_completed (k : nat) (dev : eth_dev) : eth_dev :=
  if (k =? 2)%nat
  then match tx_completed (hw := sam_e70) (dev_queue dev) with
       | Some (queue, _) => mk_dev (dev_gmac dev) queue
       | None => dev
       end
  else dev.

(** The fragment lengths of a frame as the specification words them, from
    the status words of its descriptors. *)
Fixpoint frag_lens_as_specified {hw : gmac_priv} (ws : list Z)
    (frame_len : Z) : list Z :=
  match ws with
  | [] => []
  | w :: ws' =>
      let frag_len := frag_len_as_specified w frame_len in
      frag_len :: frag_lens_as_specified ws' (u32 (frame_len + frag_len))
  end.

(** * The rest of the driver

    The functions of [eth_sam_gmac.c] around the rings: cache ranges, MAC
    address registers, clock divisor, link and queue set-up, RX error
    recovery, the RX completion loop and the interrupt handler.  Not
    embedded: the PTP clock functions (a bit-field union and floating
    point), [gmac_init] beyond its call of [get_mck_clock_divisor] (stores
    of constants into registers), and [eth_initialize] / [eth0_iface_init]
    (pin, clock and PHY bring-up). *)

(** ** More constants of the missing headers *)

Class gmac_soc := {
  GMAC_NCR_RXEN : Z;
  GMAC_NCFGR_FD : Z;
  GMAC_NCFGR_SPD : Z;
  GMAC_DCACHE_ALIGNMENT : Z;
  GMAC_INT_RX_ERR_BITS : Z;
  GMAC_ISR_RCOMP : Z;
  GMAC_INT_TX_ERR_BITS : Z;
  GMAC_ISR_TCOMP : Z;
  GMAC_INT_EN_FLAGS : Z;
  GMAC_DCFGR_DRBS : Z → Z;
  GMAC_DCFGR_RXBMS_FULL : Z;
  GMAC_DCFGR_TXPBMS : Z;
  GMAC_DCFGR_TXCOEN : Z;
  GMAC_DCFGR_FBLDO_INCR4 : Z
}.

(** The TX status word: length, last-buffer and wrap do not overlap. *)
Class gmac_priv_tx_ok (hw : gmac_priv) : Prop := {
  tx_len_wrap : Z.land GMAC_TXW1_LEN GMAC_TXW1_WRAP = 0;
  tx_last_wrap : Z.land GMAC_TXW1_LASTBUFFER GMAC_TXW1_WRAP = 0;
  tx_len_last : Z.land GMAC_TXW1_LEN GMAC_TXW1_LASTBUFFER = 0;
  tx_last_pos : 0 < GMAC_TXW1_LASTBUFFER
}.

(** The values of the SAM E70 header. *)
Definition sam_e70_soc : gmac_soc := {|
  GMAC_NCR_RXEN := 0x4;
  GMAC_NCFGR_FD := 0x2;
  GMAC_NCFGR_SPD := 0x1;
  GMAC_DCACHE_ALIGNMENT := 32;
  GMAC_INT_RX_ERR_BITS := 0x404;
  GMAC_ISR_RCOMP := 0x2;
  GMAC_INT_TX_ERR_BITS := 0x70;
  GMAC_ISR_TCOMP := 0x80;
  GMAC_INT_EN_FLAGS := 0xCF6;
  GMAC_DCFGR_DRBS := λ x, Z.land 0xFF0000 (Z.shiftl x 16);
  GMAC_DCFGR_RXBMS_FULL := 0x300;
  GMAC_DCFGR_TXPBMS := 0x400;
  GMAC_DCFGR_TXCOEN := 0x800;
  GMAC_DCFGR_FBLDO_INCR4 := 0x4
|}.

Inductive errno_soc := ENOTSUP.

(** One specific-address register pair, [GMAC_SA[i]]. *)
Record Gmac_sa := mk_sa { GMAC_SAB : Z; GMAC_SAT : Z }.

(** The registers of [Gmac] that set-up and RX recovery write. *)
Record Gmac_regs := mk_regs {
  reg_NCR : Z;
  reg_NCFGR : Z;
  reg_UR : Z;
  reg_DCFGR : Z;
  reg_RBQB : Z;
  reg_TBQB : Z;
  reg_IER : Z;
  reg_RBQBAPQ : list Z;
  reg_TBQBAPQ : list Z
}.

Definition set_reg_NCR (v : Z) (g : Gmac_regs) : Gmac_regs :=
  mk_regs v (reg_NCFGR g) (reg_UR g) (reg_DCFGR g) (reg_RBQB g) (reg_TBQB g)
    (reg_IER g) (reg_RBQBAPQ g) (reg_TBQBAPQ g).
Definition set_reg_NCFGR (v : Z) (g : Gmac_regs) : Gmac_regs :=
  mk_regs (reg_NCR g) v (reg_UR g) (reg_DCFGR g) (reg_RBQB g) (reg_TBQB g)
    (reg_IER g) (reg_RBQBAPQ g) (reg_TBQBAPQ g).
Definition set_reg_UR (v : Z) (g : Gmac_regs) : Gmac_regs :=
  mk_regs (reg_NCR g) (reg_NCFGR g) v (reg_DCFGR g) (reg_RBQB g) (reg_TBQB g)
    (reg_IER g) (reg_RBQBAPQ g) (reg_TBQBAPQ g).
Definition set_reg_DCFGR (v : Z) (g : Gmac_regs) : Gmac_regs :=
  mk_regs (reg_NCR g) (reg_NCFGR g) (reg_UR g) v (reg_RBQB g) (reg_TBQB g)
    (reg_IER g) (reg_RBQBAPQ g) (reg_TBQBAPQ g).
Definition set_reg_RBQB (v : Z) (g : Gmac_regs) : Gmac_regs :=
  mk_regs (reg_NCR g) (reg_NCFGR g) (reg_UR g) (reg_DCFGR g) v (reg_TBQB g)
    (reg_IER g) (reg_RBQBAPQ g) (reg_TBQBAPQ g).
Definition set_reg_TBQB (v : Z) (g : Gmac_regs) : Gmac_regs :=
  mk_regs (reg_NCR g) (reg_NCFGR g) (reg_UR g) (reg_DCFGR g) (reg_RBQB g) v
    (reg_IER g) (reg_RBQBAPQ g) (reg_TBQBAPQ g).
Definition set_reg_IER (v : Z) (g : Gmac_regs) : Gmac_regs :=
  mk_regs (reg_NCR g) (reg_NCFGR g) (reg_UR g) (reg_DCFGR g) (reg_RBQB g)
    (reg_TBQB g) v (reg_RBQBAPQ g) (reg_TBQBAPQ g).
Definition set_reg_RBQBAPQ (v : list Z) (g : Gmac_regs) : Gmac_regs :=
  mk_regs (reg_NCR g) (reg_NCFGR g) (reg_UR g) (reg_DCFGR g) (reg_RBQB g)
    (reg_TBQB g) (reg_IER g) v (reg_TBQBAPQ g).
Definition set_reg_TBQBAPQ (v : list Z) (g : Gmac_regs) : Gmac_regs :=
  mk_regs (reg_NCR g) (reg_NCFGR g) (reg_UR g) (reg_DCFGR g) (reg_RBQB g)
    (reg_TBQB g) (reg_IER g) (reg_RBQBAPQ g) v.

Definition set_err_rx_flushed_count (c : Z) (q : gmac_queue) :=
  mk_queue (rx_desc_list q) (tx_desc_list q) (tx_desc_sem q) (rx_frag_list q)
    (tx_frames q) (err_rx_frames_dropped q) c (err_tx_flushed_count q).

(** A call of a CMSIS cache maintenance routine, with its address and
    size. *)
Inductive cache_op :=
  | SCB_InvalidateDCache_by_Addr (addr dsize : Z)
  | SCB_CleanDCache_by_Addr (addr dsize : Z).

(** The clock divisors that [GMAC_NCFGR_CLK_MCK_8] ... [_96] select. *)
Inductive mck_clk :=
  | GMAC_NCFGR_CLK_MCK_8
  | GMAC_NCFGR_CLK_MCK_16
  | GMAC_NCFGR_CLK_MCK_32
  | GMAC_NCFGR_CLK_MCK_48
  | GMAC_NCFGR_CLK_MCK_64
  | GMAC_NCFGR_CLK_MCK_96.

Section Setup.
Context {hw : gmac_priv} {soc : gmac_soc}.

(** ** Cache helpers *)

(** The range that the cache helpers pass on: "Make sure it is aligned to
    32B". *)
Definition dcache_range (addr size : Z) : Z * Z :=
  let start_addr :=
    Z.land addr (u32 (Z.lnot (GMAC_DCACHE_ALIGNMENT - 1))) in
  let size_full := u32 (size + addr - start_addr) in
  (start_addr, size_full).

(** [dcache_invalidate]: the call it makes, if any. *)
Definition dcache_invalidate (dcache_enabled : bool) (addr size : Z)
  : option cache_op :=
  if negb dcache_enabled then None
  else
    let '(start_addr, size_full) := dcache_range addr size in
    Some (SCB_InvalidateDCache_by_Addr start_addr size_full).

(** [dcache_clean] *)
Definition dcache_clean (dcache_enabled : bool) (addr size : Z)
  : option cache_op :=
  if negb dcache_enabled then None
  else
    let '(start_addr, size_full) := dcache_range addr size in
    Some (SCB_CleanDCache_by_Addr start_addr size_full).

(** ** MAC address and clock *)

(** [mac_addr_set]: the specific-address registers afterwards.  The bytes
    of [mac_addr] are [u8_t]; a missing byte reads as 0. *)
Definition mac_addr_set (sa : list Gmac_sa) (index : nat)
    (mac_addr : list Z) : list Gmac_sa :=
  let m i := default 0 (mac_addr !! i) in
  <[index :=
      mk_sa
        (u32 (Z.lor (Z.lor (Z.lor (Z.shiftl (m 3%nat) 24)
                                  (Z.shiftl (m 2%nat) 16))
                           (Z.shiftl (m 1%nat) 8))
                    (m 0%nat)))
        (u32 (Z.lor (Z.shiftl (m 5%nat) 8) (m 4%nat)))]> sa.

(** [get_mck_clock_divisor]: [inl ENOTSUP] for [-ENOTSUP]. *)
Definition get_mck_clock_divisor (mck : Z) : errno_soc + mck_clk :=
  if mck <=? 20000000 then inr GMAC_NCFGR_CLK_MCK_8
  else if mck <=? 40000000 then inr GMAC_NCFGR_CLK_MCK_16
  else if mck <=? 80000000 then inr GMAC_NCFGR_CLK_MCK_32
  else if mck <=? 120000000 then inr GMAC_NCFGR_CLK_MCK_48
  else if mck <=? 160000000 then inr GMAC_NCFGR_CLK_MCK_64
  else if mck <=? 240000000 then inr GMAC_NCFGR_CLK_MCK_96
  else inl ENOTSUP.

(** ** Link and queue set-up *)

(** [link_configure] *)
Definition link_configure (gmac : Gmac_regs) (flags : Z) : Gmac_regs :=
  let gmac1 :=
    set_reg_NCR
      (Z.ldiff (reg_NCR gmac) (Z.lor GMAC_NCR_RXEN GMAC_NCR_TXEN)) gmac in
  let val := reg_NCFGR gmac1 in
  let val1 := Z.ldiff val (Z.lor GMAC_NCFGR_FD GMAC_NCFGR_SPD) in
  let val2 :=
    Z.lor val1 (Z.land flags (Z.lor GMAC_NCFGR_FD GMAC_NCFGR_SPD)) in
  let gmac2 := set_reg_NCFGR val2 gmac1 in
  (* Select RMII mode *)
  let gmac3 := set_reg_UR 0 gmac2 in
  set_reg_NCR
    (Z.lor (reg_NCR gmac3) (Z.lor GMAC_NCR_RXEN GMAC_NCR_TXEN)) gmac3.

(** [queue_init]; [rx_desc_addr] and [tx_desc_addr] are the addresses of
    the descriptor arrays.  [inl]: the error of [rx_descriptors_init], with
    what that function left, returned before any register is written. *)
Definition queue_init (rx_desc_addr tx_desc_addr : Z) (gmac : Gmac_regs)
    (pool : net_pool) (queue : gmac_queue)
  : (errno * net_pool * gmac_queue * list unref_arg)
    + (Gmac_regs * net_pool * gmac_queue) :=
  (* Setup descriptor lists *)
  match rx_descriptors_init pool queue with
  | inl result => inl result
  | inr (pool1, queue1) =>
      let queue2 := tx_descriptors_init queue1 in
      let queue3 :=
        set_tx_desc_sem
          (k_sem_init (dl_len (tx_desc_list queue2) - 1)
                      (dl_len (tx_desc_list queue2) - 1)) queue2 in
      (* Set Receive Buffer Queue Pointer Register *)
      let gmac1 := set_reg_RBQB rx_desc_addr gmac in
      (* Set Transmit Buffer Queue Pointer Register *)
      let gmac2 := set_reg_TBQB tx_desc_addr gmac1 in
      (* Configure GMAC DMA transfer *)
      let gmac3 :=
        set_reg_DCFGR
          (Z.lor (Z.lor (Z.lor (Z.lor
             (GMAC_DCFGR_DRBS (Z.shiftr CONFIG_NET_BUF_DATA_SIZE 6))
             GMAC_DCFGR_RXBMS_FULL) GMAC_DCFGR_TXPBMS) GMAC_DCFGR_TXCOEN)
             GMAC_DCFGR_FBLDO_INCR4) gmac2 in
      (* Setup RX/TX completion and error interrupts *)
      let gmac4 := set_reg_IER GMAC_INT_EN_FLAGS gmac3 in
      inr (gmac4, pool1,
           mk_queue (rx_desc_list queue3) (tx_desc_list queue3)
             (tx_desc_sem queue3) (rx_frag_list queue3) (tx_frames queue3)
             0 0 0)
  end.

(** [priority_queue_init_as_idle] for the queue with index [que_idx]. *)
Definition priority_queue_init_as_idle (que_idx : nat)
    (rx_desc_addr tx_desc_addr : Z) (gmac : Gmac_regs) (queue : gmac_queue)
  : Gmac_regs * gmac_queue :=
  let rx_desc_list := rx_desc_list queue in
  let tx_desc_list := tx_desc_list queue in
  (* Take ownership from GMAC and set the wrap bit *)
  let rx1 := alter (gmac_desc_set_w0 GMAC_RXW0_WRAP) 0%nat
                   (dl_buf rx_desc_list) in
  let rx2 := alter (gmac_desc_set_w1 0) 0%nat rx1 in
  let tx1 := alter (gmac_desc_set_w0 0) 0%nat (dl_buf tx_desc_list) in
  (* Take ownership from GMAC and set the wrap bit *)
  let tx2 :=
    alter (gmac_desc_set_w1 (Z.lor GMAC_TXW1_USED GMAC_TXW1_WRAP)) 0%nat
          tx1 in
  let gmac1 :=
    set_reg_RBQBAPQ (<[(que_idx - 1)%nat := rx_desc_addr]> (reg_RBQBAPQ gmac))
                    gmac in
  let gmac2 :=
    set_reg_TBQBAPQ (<[(que_idx - 1)%nat := tx_desc_addr]>
                       (reg_TBQBAPQ gmac1)) gmac1 in
  (gmac2,
   set_tx_desc_list
     (mk_desc_list tx2 (dl_head tx_desc_list) (dl_tail tx_desc_list))
     (set_rx_desc_list
        (mk_desc_list rx2 (dl_head rx_desc_list) (dl_tail rx_desc_list))
        queue)).

(** ** RX error recovery and completion *)

Definition rx_error_handler_body (i : nat) (descs : list gmac_desc)
  : list gmac_desc :=
  alter (λ d, gmac_desc_set_w0
                (Z.ldiff (gmac_desc_get_w0 d) GMAC_RXW0_OWNERSHIP) d) i
        (alter (gmac_desc_set_w1 0) i descs).

(** [rx_error_handler] *)
Definition rx_error_handler (rx_desc_addr : Z) (gmac : Gmac_regs)
    (queue : gmac_queue) : Gmac_regs * gmac_queue :=
  let queue1 :=
    set_err_rx_flushed_count (u32 (err_rx_flushed_count queue + 1)) queue in
  (* Stop reception *)
  let gmac1 := set_reg_NCR (Z.ldiff (reg_NCR gmac) GMAC_NCR_RXEN) gmac in
  let descs :=
    for_upto (dl_len (rx_desc_list queue1)) rx_error_handler_body
             (dl_buf (rx_desc_list queue1)) in
  let queue2 :=
    set_rx_frag_list
      (mk_ring (rb_buf (rx_frag_list queue1)) (rb_head (rx_frag_list queue1))
         0%nat)
      (set_rx_desc_list
         (mk_desc_list descs (dl_head (rx_desc_list queue1)) 0%nat) queue1) in
  (* Set Receive Buffer Queue Pointer Register *)
  let gmac2 := set_reg_RBQB rx_desc_addr gmac1 in
  (* Restart reception *)
  (set_reg_NCR (Z.lor (reg_NCR gmac2) GMAC_NCR_RXEN) gmac2, queue2).

(** The loop of [eth_rx], entered with the frame [rx_frame].
    [net_recv_data] tells whether the stack takes a frame; a frame it
    refuses is released.  The result lists the frames handed to the stack,
    in order, each with the answer.  [None]: [frame_get] does not return or
    the fuel ran out. *)
Fixpoint eth_rx_loop (fuel : nat) (net_recv_data : net_pkt → bool)
    (rx_frame : net_pkt) (pool : net_pool) (queue : gmac_queue)
  : option (list (net_pkt * bool) * net_pool * gmac_queue) :=
  match fuel with
  | O => None
  | S fuel' =>
      let taken := net_recv_data rx_frame in
      let pool1 := if taken then pool else net_pkt_unref rx_frame pool in
      match frame_get pool1 queue with
      | None => None
      | Some (None, pool2, queue2) =>
          Some ([(rx_frame, taken)], pool2, queue2)
      | Some (Some rx_frame', pool2, queue2) =>
          match eth_rx_loop fuel' net_recv_data rx_frame' pool2 queue2 with
          | None => None
          | Some (frames, pool3, queue3) =>
              Some ((rx_frame, taken) :: frames, pool3, queue3)
          end
      end
  end.

(** [eth_rx] (no VLAN, no PTP).  Every frame that [frame_get] returns takes
    at least one descriptor away from software, so the loop turns at most
    [len] times. *)
Definition eth_rx (net_recv_data : net_pkt → bool) (pool : net_pool)
    (queue : gmac_queue)
  : option (list (net_pkt * bool) * net_pool * gmac_queue) :=
  match frame_get pool queue with
  | None => None
  | Some (None, pool1, queue1) => Some ([], pool1, queue1)
  | Some (Some rx_frame, pool1, queue1) =>
      eth_rx_loop (S (dl_len (rx_desc_list queue))) net_recv_data rx_frame
        pool1 queue1
  end.

(** What [queue0_isr] did, for the record: the frames handed to the stack
    and the TX events. *)
Record isr_trace := mk_isr_trace {
  isr_rx : list (net_pkt * bool);
  isr_tx : list tx_event
}.

(** [queue0_isr], [isr] being the value read from [GMAC_ISR]. *)
Definition queue0_isr (isr : Z) (net_recv_data : net_pkt → bool)
    (rx_desc_addr : Z) (gmac : Gmac_regs) (pool : net_pool)
    (queue : gmac_queue)
  : option (isr_trace * Gmac_regs * net_pool * gmac_queue) :=
  (* RX packet *)
  let rx :=
    if flag_set isr GMAC_INT_RX_ERR_BITS then
      let '(gmac1, queue1) := rx_error_handler rx_desc_addr gmac queue in
      Some ([], gmac1, pool, queue1)
    else if flag_set isr GMAC_ISR_RCOMP then
      match eth_rx net_recv_data pool queue with
      | None => None
      | Some (frames, pool1, queue1) => Some (frames, gmac, pool1, queue1)
      end
    else Some ([], gmac, pool, queue) in
  match rx with
  | None => None
  | Some (frames, gmac1, pool1, queue1) =>
      (* TX packet *)
      if flag_set isr GMAC_INT_TX_ERR_BITS then
        match tx_error_handler (mk_gmac (reg_NCR gmac1)) queue1 with
        | None => None
        | Some (g, queue2, released) =>
            Some (mk_isr_trace frames (EvPktUnref <$> released),
                  set_reg_NCR (GMAC_NCR g) gmac1, pool1, queue2)
        end
      else if flag_set isr GMAC_ISR_TCOMP then
        match tx_completed queue1 with
        | None => None
        | Some (queue2, tr) =>
            Some (mk_isr_trace frames tr, gmac1, pool1, queue2)
        end
      else Some (mk_isr_trace frames [], gmac1, pool1, queue1)
  end.

End Setup.

(** ** Vocabulary of the further properties *)

(** The divisor that a clock selection stands for: MDC is MCK divided by
    it. *)
Definition mck_divisor (c : mck_clk) : Z :=
  match c with
  | GMAC_NCFGR_CLK_MCK_8 => 8
  | GMAC_NCFGR_CLK_MCK_16 => 16
  | GMAC_NCFGR_CLK_MCK_32 => 32
  | GMAC_NCFGR_CLK_MCK_48 => 48
  | GMAC_NCFGR_CLK_MCK_64 => 64
  | GMAC_NCFGR_CLK_MCK_96 => 96
  end.

(** Byte [j] of a register value. *)
Definition reg_byte (r : Z) (j : Z) : Z := Z.land (Z.shiftr r (8 * j)) 0xFF.

Section Vocabulary2.
Context {hw : gmac_priv}.

(** The RX rings have the same length and [tail] is inside. *)
Definition rx_ring_wf (queue : gmac_queue) : Prop :=
  rb_len (rx_frag_list queue) = dl_len (rx_desc_list queue) ∧
  (dl_tail (rx_desc_list queue) < dl_len (rx_desc_list queue))%nat.

(** Some descriptor stops the first loop of [frame_get]: it is not owned by
    software or it carries end-of-frame. *)
Definition rx_stopper (descs : list gmac_desc) : Prop :=
  ∃ i d, descs !! i = Some d ∧
    (flag_set (w0 d) GMAC_RXW0_OWNERSHIP = false ∨
     flag_set (w1 d) GMAC_RXW1_EOF = true).

(** The wrap flag sits on the last descriptor of the ring and on no
    other. *)
Definition rx_wrap_inv (descs : list gmac_desc) : Prop :=
  ∀ i d, descs !! i = Some d →
    (flag_set (w0 d) GMAC_RXW0_WRAP = true ↔ S i = length descs).

Definition tx_wrap_inv (descs : list gmac_desc) : Prop :=
  ∀ i d, descs !! i = Some d →
    (flag_set (w1 d) GMAC_TXW1_WRAP = true ↔ S i = length descs).

(** The descriptor at slot [i] of a ring of [n] as [frame_get] hands it
    back to the controller: an address, the wrap flag on the last slot,
    ownership and status clear. *)
Definition rx_written (n i : nat) (d : gmac_desc) : Prop :=
  ∃ a, d = mk_desc (Z.lor (Z.land a GMAC_RXW0_ADDR)
                          (if decide (S i = n) then GMAC_RXW0_WRAP else 0))
                   0.

(** What the second loop of [frame_get] keeps true of the descriptors,
    [descs0] being the ring at its start. *)
Definition rx_walk_slots (descs0 : list gmac_desc) (st : rx_walk) : Prop :=
  length (wk_desc st) = length descs0 ∧
  length (wk_frag st) = length descs0 ∧
  (wk_tail st < length descs0)%nat ∧
  (count_owned (wk_desc st) ≤ count_owned descs0)%nat ∧
  ∀ i d, wk_desc st !! i = Some d →
    descs0 !! i = Some d ∨ rx_written (length descs0) i d.

(** The data buffers in sight: those of the pool, those posted in the
    tracking ring and those linked to the frame [r]. *)
Definition rx_buf_ptrs (pool : net_pool) (frags : list net_buf)
    (r : option net_pkt) : list Z :=
  nb_ptr <$> (pool_bufs pool ++ frags ++ from_option pkt_frags [] r).

(** The frame containers in sight. *)
Definition rx_pkt_ptrs (pool : net_pool) (r : option net_pkt) : list Z :=
  pool_pkts pool ++ from_option (λ f, [pkt_ptr f]) [] r.

(** The frames that the stack took from [eth_rx]. *)
Fixpoint rx_taken (frames : list (net_pkt * bool)) : list net_pkt :=
  match frames with
  | [] => []
  | (f, true) :: l => f :: rx_taken l
  | (_, false) :: l => rx_taken l
  end.

(** Their data buffers. *)
Definition rx_taken_bufs (frames : list (net_pkt * bool)) : list Z :=
  nb_ptr <$> mjoin (pkt_frags <$> rx_taken frames).

(** The flow controller accounts for the TX descriptors: the units left,
    the descriptors between [tail] and [head] and the [held] units that a
    sender has taken and not yet used add up to [len - 1]. *)
Definition tx_flow_held (held : nat) (queue : gmac_queue) : Prop :=
  let n := dl_len (tx_desc_list queue) in
  (dl_head (tx_desc_list queue) < n)%nat ∧
  (dl_tail (tx_desc_list queue) < n)%nat ∧
  sem_limit (tx_desc_sem queue) = (n - 1)%nat ∧
  (sem_count (tx_desc_sem queue)
   + ring_distance n (dl_tail (tx_desc_list queue))
       (dl_head (tx_desc_list queue))
   + held = n - 1)%nat.

Definition tx_flow_inv (queue : gmac_queue) : Prop := tx_flow_held 0 queue.

(** An interrupt that runs [tx_error_handler] right after [eth_tx] has
    sampled the flush counter, before it takes its first descriptor, and no
    other interference. *)
Definition env_flush_at_entry (k : nat) (dev : eth_dev) : eth_dev :=
  if (k =? 0)%nat
  then match tx_error_handler (dev_gmac dev) (dev_queue dev) with
       | Some (gmac, queue, _) => mk_dev gmac queue
       | None => dev
       end
  else dev.

End Vocabulary2.

(** ** More example states *)

(** The ring of in-flight frame handles of [ex_queue]: one frame in
    flight. *)
Definition ex_ring : ring_buf Z := mk_ring [0xA000; 0; 0] 1 0.

(** The same ring when it is full: two frames in flight. *)
Definition ex_ring_full : ring_buf Z := mk_ring [0xA000; 0xA100; 0] 2 0.

(** Registers after reset, with two priority queues. *)
Definition ex_regs : Gmac_regs := mk_regs 0 0 0 0 0 0 0 [0; 0] [0; 0].

(** Four specific-address register pairs, cleared. *)
Definition ex_sa : list Gmac_sa := replicate 4 (mk_sa 0 0).

(** A priority queue: rings of a single descriptor. *)
Definition ex_idle_queue : gmac_queue :=
  mk_queue (mk_desc_list [mk_desc 0 0] 0 0) (mk_desc_list [mk_desc 0 0] 0 0)
    (mk_sem 0 0) (mk_ring [] 0 0) (mk_ring [] 0 0) 0 0 0.

(** A stack that takes every frame. *)
Definition ex_net_recv_data (rx_frame : net_pkt) : bool := true.

(** A device whose TX side is at rest: nothing in flight, the flow
    controller full. *)
Definition ex_dev_idle : eth_dev :=
  mk_dev ex_gmac (tx_flushed_queue (hw := sam_e70) ex_queue 0).

(** * Theorems *)

Section Proofs.
Context {hw : gmac_priv}.

Lemma flag_set_true w m : flag_set w m = true ↔ Z.land w m ≠ 0.
Proof.
  unfold flag_set. rewrite negb_true_iff, Z.eqb_neq. done.
Qed.

Lemma flag_set_false w m : flag_set w m = false ↔ Z.land w m = 0.
Proof.
  unfold flag_set. rewrite negb_false_iff, Z.eqb_eq. done.
Qed.

Lemma land_lor_disjoint a b m :
  Z.land b m = 0 → Z.land (Z.lor a b) m = Z.land a m.
Proof.
  intros Hb. rewrite Z.land_lor_distr_l, Hb. apply Z.lor_0_r.
Qed.

Lemma land_land_disjoint a m n :
  Z.land m n = 0 → Z.land (Z.land a m) n = 0.
Proof.
  intros Hmn. rewrite <- Z.land_assoc, Hmn. apply Z.land_0_r.
Qed.


Lemma net_pkt_get_reserve_rx_data_cons pkts b bs :
  net_pkt_get_reserve_rx_data (mk_pool pkts (b :: bs))
  = (Some (fresh b), mk_pool pkts bs).
Proof. done. Qed.

(** After [n] turns of the loop of [rx_descriptors_init] on a pool with at
    least [n] buffers. *)
Lemma rx_descriptors_init_loop n pkts bs descs frags :
  (n ≤ length bs)%nat →
  ∃ descs' frags',
    for_upto n rx_descriptors_init_body
      (Running (mk_pool pkts bs, descs, frags))
    = Running (mk_pool pkts (drop n bs), descs', frags') ∧
    length descs' = length descs ∧ length frags' = length frags ∧
    (∀ i, (i < n)%nat →
       descs' !! i
       = (λ _, mk_desc (Z.land (nb_data (bs !!! i)) GMAC_RXW0_ADDR) 0)
           <$> descs !! i ∧
       frags' !! i = (λ _, fresh (bs !!! i)) <$> frags !! i) ∧
    (∀ i, (n ≤ i)%nat →
       descs' !! i = descs !! i ∧ frags' !! i = frags !! i).
Proof.
  induction n as [|n IH]; intros Hn.
  - exists descs, frags. rewrite drop_0. repeat split; intros; lia || done.
  - destruct IH as (descs1 & frags1 & Heq & Hld & Hlf & Hlt & Hge); [lia|].
    destruct (lookup_lt_is_Some_2 bs n) as [b Hb]; [lia|].
    simpl. rewrite Heq. unfold rx_descriptors_init_body.
    rewrite (drop_S _ _ _ Hb), net_pkt_get_reserve_rx_data_cons.
    eexists _, _. split; [reflexivity|].
    rewrite !length_alter, length_insert. split; [done|]. split; [done|].
    split.
    + intros i Hi. destruct (decide (i = n)) as [->|Hne].
      * rewrite list_lookup_alter_eq, list_lookup_alter_eq.
        destruct (Hge n) as [-> Hfn]; [lia|].
        rewrite (list_lookup_total_correct _ _ _ Hb).
        split.
        -- by destruct (descs !! n).
        -- destruct (frags !! n) eqn:E.
           ++ apply list_lookup_insert_eq. rewrite Hlf.
              by apply lookup_lt_Some in E.
           ++ simpl. apply lookup_ge_None. rewrite length_insert, Hlf.
              by apply lookup_ge_None in E.
      * rewrite !list_lookup_alter_ne, list_lookup_insert_ne by done.
        apply Hlt. lia.
    + intros i Hi.
      rewrite !list_lookup_alter_ne, list_lookup_insert_ne by lia.
      apply Hge. lia.
Qed.

(** The loop on a pool with fewer than [n] buffers: it is left in the turn
    that finds the pool empty, with the slots of the earlier turns
    rewritten. *)
Lemma rx_descriptors_init_ENOBUFS_loop n pkts bs descs frags :
  (length bs < n)%nat →
  ∃ descs' frags',
    for_upto n rx_descriptors_init_body
      (Running (mk_pool pkts bs, descs, frags))
    = Returned (mk_pool pkts [], descs', frags') ∧
    length descs' = length descs ∧ length frags' = length frags ∧
    (∀ i, (i < length bs)%nat →
       descs' !! i
       = (λ _, mk_desc (Z.land (nb_data (bs !!! i)) GMAC_RXW0_ADDR) 0)
           <$> descs !! i ∧
       frags' !! i = (λ _, fresh (bs !!! i)) <$> frags !! i) ∧
    (∀ i, (length bs ≤ i)%nat →
       descs' !! i = descs !! i ∧ frags' !! i = frags !! i).
Proof.
  induction n as [|n IH]; intros Hn; [lia|].
  simpl. destruct (decide (length bs < n)%nat) as [Hlt|Hge].
  - destruct (IH Hlt) as (d & f & -> & H). by exists d, f.
  - assert (n = length bs) as -> by lia.
    destruct (rx_descriptors_init_loop (length bs) pkts bs descs frags)
      as (d & f & -> & H); [lia|].
    unfold rx_descriptors_init_body. rewrite drop_all. simpl.
    by exists d, f.
Qed.


Lemma tx_descriptors_init_loop n descs :
  length (for_upto n tx_descriptors_init_body descs) = length descs ∧
  (∀ i, (i < n)%nat →
     for_upto n tx_descriptors_init_body descs !! i
     = (λ _, mk_desc 0 GMAC_TXW1_USED) <$> descs !! i) ∧
  (∀ i, (n ≤ i)%nat →
     for_upto n tx_descriptors_init_body descs !! i = descs !! i).
Proof.
  induction n as [|n (Hl & Hlt & Hge)]; [repeat split; intros; lia || done|].
  simpl. unfold tx_descriptors_init_body at 1 3 5.
  rewrite !length_alter. split; [done|]. split.
  - intros i Hi. destruct (decide (i = n)) as [->|Hne].
    + rewrite !list_lookup_alter_eq, Hge by lia. by destruct (descs !! n).
    + rewrite !list_lookup_alter_ne by done. apply Hlt. lia.
  - intros i Hi. rewrite !list_lookup_alter_ne by lia. apply Hge. lia.
Qed.


Lemma rx_wrap_nonzero `{!gmac_priv_ok hw} : GMAC_RXW0_WRAP ≠ 0.
Proof. pose proof rx_wrap_pos. lia. Qed.

(** The address word that [rx_descriptors_init] and [frame_get] write shows
    the slot as owned by the hardware. *)
Lemma rx_w0_hw_owned `{!gmac_priv_ok hw} a wrap :
  wrap = 0 ∨ wrap = GMAC_RXW0_WRAP →
  Z.land (Z.lor (Z.land a GMAC_RXW0_ADDR) wrap) GMAC_RXW0_OWNERSHIP = 0.
Proof.
  intros [->| ->].
  - rewrite Z.lor_0_r. apply land_land_disjoint, rx_addr_own.
  - rewrite land_lor_disjoint by apply rx_wrap_own.
    apply land_land_disjoint, rx_addr_own.
Qed.

Lemma rx_w0_wrap_flag `{!gmac_priv_ok hw} a :
  Z.land (Z.lor (Z.land a GMAC_RXW0_ADDR) GMAC_RXW0_WRAP) GMAC_RXW0_WRAP
  = GMAC_RXW0_WRAP.
Proof.
  rewrite Z.land_lor_distr_l, Z.land_diag.
  rewrite land_land_disjoint by apply rx_addr_wrap. done.
Qed.


Lemma rx_reset_slot `{!gmac_priv_ok hw} (n i : nat) a wrap d :
  d = mk_desc (Z.lor (Z.land a GMAC_RXW0_ADDR) wrap) 0 →
  (wrap = if decide (S i = n) then GMAC_RXW0_WRAP else 0) →
  flag_set (w0 d) GMAC_RXW0_OWNERSHIP = false ∧
  w1 d = 0 ∧
  (flag_set (w0 d) GMAC_RXW0_WRAP = true ↔ S i = n).
Proof.
  intros -> Hw. simpl. split; [|split; [done|]].
  - apply flag_set_false, rx_w0_hw_owned. case_decide; auto.
  - rewrite flag_set_true. case_decide; subst wrap.
    + rewrite rx_w0_wrap_flag. split; [done|]. intros _. apply rx_wrap_nonzero.
    + rewrite Z.lor_0_r, land_land_disjoint by apply rx_addr_wrap. done.
Qed.

Lemma tx_reset_slot `{!gmac_priv_ok hw} (n i : nat) wrap d :
  d = mk_desc 0 (Z.lor GMAC_TXW1_USED wrap) →
  (wrap = if decide (S i = n) then GMAC_TXW1_WRAP else 0) →
  flag_set (w1 d) GMAC_TXW1_USED = true ∧
  (flag_set (w1 d) GMAC_TXW1_WRAP = true ↔ S i = n).
Proof.
  intros -> Hw. simpl. rewrite !flag_set_true.
  pose proof tx_used_pos. pose proof tx_wrap_pos.
  pose proof tx_used_wrap as Huw.
  rewrite !Z.land_lor_distr_l, Z.land_diag.
  case_decide; subst wrap.
  - rewrite Z.land_diag, (Z.land_comm GMAC_TXW1_WRAP), Huw.
    rewrite Z.lor_0_r, Z.lor_0_l. split; [lia|]. split; [done|lia].
  - rewrite !Z.land_0_l, Z.lor_0_r, Huw. split; [lia|]. done.
Qed.

(** C9. After ring reset, the indices are zero and every slot is marked for
    its role.  RX ([rx_descriptors_init] returning 0, which it does when the
    pool holds a buffer for every slot): [tail] of the descriptor ring and
    of the tracking ring are zero ([head] is not used on the RX side: the
    function leaves it as it is, so it stays zero); every descriptor is owned
    by the hardware, its status word is 0, and the wrap flag is set on the
    last slot and on no other.  TX ([tx_descriptors_init]): [head] and [tail]
    are zero, every descriptor has the used bit set, and the wrap flag is set
    on the last slot and on no other. *)
Theorem ring_reset_marks_every_slot `{!gmac_priv_ok hw} pool queue :
  (dl_len (rx_desc_list queue) ≤ length (pool_bufs pool))%nat →
  (∃ pool' queue',
     rx_descriptors_init pool queue = inr (pool', queue') ∧
     dl_tail (rx_desc_list queue') = 0%nat ∧
     rb_tail (rx_frag_list queue') = 0%nat ∧
     (dl_head (rx_desc_list queue) = 0%nat →
      dl_head (rx_desc_list queue') = 0%nat) ∧
     dl_len (rx_desc_list queue') = dl_len (rx_desc_list queue) ∧
     ∀ i d, dl_buf (rx_desc_list queue') !! i = Some d →
       flag_set (w0 d) GMAC_RXW0_OWNERSHIP = false ∧
       w1 d = 0 ∧
       (flag_set (w0 d) GMAC_RXW0_WRAP = true
        ↔ S i = dl_len (rx_desc_list queue))) ∧
  (let queue' := tx_descriptors_init queue in
   dl_head (tx_desc_list queue') = 0%nat ∧
   dl_tail (tx_desc_list queue') = 0%nat ∧
   dl_len (tx_desc_list queue') = dl_len (tx_desc_list queue) ∧
   ∀ i d, dl_buf (tx_desc_list queue') !! i = Some d →
     flag_set (w1 d) GMAC_TXW1_USED = true ∧
     (flag_set (w1 d) GMAC_TXW1_WRAP = true
      ↔ S i = dl_len (tx_desc_list queue))).
Proof.
  intros Hpool. split.
  - destruct pool as [pkts bs]. simpl in Hpool.
    destruct (rx_descriptors_init_loop _ pkts bs
                (dl_buf (rx_desc_list queue)) (rb_buf (rx_frag_list queue))
                Hpool) as (descs & frags & Heq & Hld & Hlf & Hlt & _).
    unfold rx_descriptors_init. simpl. rewrite Heq.
    eexists _, _. split; [reflexivity|]. simpl.
    unfold dl_len in *. simpl. rewrite length_alter.
    split; [done|]. split; [done|]. split; [done|]. split; [done|].
    intros i d Hd.
    assert (i < length (dl_buf (rx_desc_list queue)))%nat as Hi
      by (apply lookup_lt_Some in Hd; rewrite length_alter in Hd; lia).
    destruct (lookup_lt_is_Some_2 _ _ Hi) as [d0 Hd0].
    pose proof (proj1 (Hlt i Hi)) as Hdi. rewrite Hd0 in Hdi. simpl in Hdi.
    eapply rx_reset_slot; [|reflexivity].
    destruct (decide (length (dl_buf (rx_desc_list queue)) - 1 = i)%nat)
      as [He|Hne].
    + rewrite He, list_lookup_alter_eq, Hdi in Hd. simpl in Hd.
      injection Hd as <-. rewrite decide_True by lia. reflexivity.
    + rewrite list_lookup_alter_ne, Hdi in Hd by done.
      injection Hd as <-. rewrite decide_False by lia.
      by rewrite Z.lor_0_r.
  - destruct (tx_descriptors_init_loop (dl_len (tx_desc_list queue))
                (dl_buf (tx_desc_list queue))) as (Hl & Hlt & _).
    simpl. unfold dl_len in *. simpl. rewrite length_alter.
    split; [done|]. split; [done|]. split; [done|].
    intros i d Hd.
    assert (i < length (dl_buf (tx_desc_list queue)))%nat as Hi
      by (apply lookup_lt_Some in Hd; rewrite length_alter in Hd; lia).
    destruct (lookup_lt_is_Some_2 _ _ Hi) as [d0 Hd0].
    pose proof (Hlt i Hi) as Hdi. rewrite Hd0 in Hdi. simpl in Hdi.
    eapply tx_reset_slot; [|reflexivity].
    destruct (decide (length (dl_buf (tx_desc_list queue)) - 1 = i)%nat)
      as [He|Hne].
    + rewrite He, list_lookup_alter_eq, Hdi in Hd. simpl in Hd.
      injection Hd as <-. rewrite decide_True by lia. reflexivity.
    + rewrite list_lookup_alter_ne, Hdi in Hd by done.
      injection Hd as <-. rewrite decide_False by lia.
      by rewrite Z.lor_0_r.
Qed.


(** *** The second loop of [frame_get], one turn *)

Lemma ldiff_0_land a m : Z.ldiff a m = 0 → Z.land a m = a.
Proof.
  intros H. rewrite <- (Z.lor_ldiff_and a m) at 2. rewrite H. done.
Qed.

Lemma MODULO_INC_lt t n : (0 < n)%nat → (MODULO_INC t n < n)%nat.
Proof.
  intros Hn. unfold MODULO_INC.
  destruct (S t <? n)%nat eqn:E; [by apply Nat.ltb_lt in E | done].
Qed.

(** The macro on 16-bit operands and on [nat] agree. *)
Lemma MODULO_INC_u16 (val max : nat) :
  (val < 2 ^ 16)%nat → (max < 2 ^ 16)%nat →
  MODULO_INC_Z (Z.of_nat val) (Z.of_nat max) = Z.of_nat (MODULO_INC val max).
Proof.
  intros Hv Hm. unfold MODULO_INC_Z, MODULO_INC, u16.
  assert (Z.of_nat val < 2 ^ 16)
    by (change (2 ^ 16) with (Z.of_nat (2 ^ 16)); lia).
  assert (Z.of_nat max < 2 ^ 16)
    by (change (2 ^ 16) with (Z.of_nat (2 ^ 16)); lia).
  destruct (S val <? max)%nat eqn:E.
  - apply Nat.ltb_lt in E. rewrite Z.mod_small by lia.
    destruct (Z.ltb_spec (Z.of_nat val + 1) (Z.of_nat max)); lia.
  - apply Nat.ltb_ge in E.
    destruct (Z.eq_dec (Z.of_nat val + 1) (2 ^ 16)) as [He|He].
    + rewrite He, Z.mod_same by lia. by destruct (0 <? Z.of_nat max).
    + rewrite Z.mod_small by lia.
      destruct (Z.ltb_spec (Z.of_nat val + 1) (Z.of_nat max)); lia.
Qed.

Lemma MODULO_INC_slot t n : (t < n)%nat → MODULO_INC t n = ring_slot n t 1.
Proof.
  intros Ht. unfold MODULO_INC, ring_slot.
  destruct (S t <? n)%nat eqn:E.
  - apply Nat.ltb_lt in E. rewrite Nat.mod_small by lia. lia.
  - apply Nat.ltb_ge in E. assert (t + 1 = n)%nat as -> by lia.
    rewrite Nat.Div0.mod_same. done.
Qed.

Lemma frame_get_wrap `{!gmac_priv_ok hw} (t n : nat) :
  u8 (if Z.of_nat t =? Z.of_nat n - 1 then GMAC_RXW0_WRAP else 0)
  = if decide (S t = n) then GMAC_RXW0_WRAP else 0.
Proof.
  pose proof rx_wrap_pos. unfold u8.
  destruct (Z.eqb_spec (Z.of_nat t) (Z.of_nat n - 1)); case_decide; try lia.
  - apply Z.mod_small. lia.
  - done.
Qed.

(** What [frame_get_link] leaves at the slot and around it. *)
Lemma frame_get_link_spec frag frag_len st frag' st1 :
  frame_get_link frag frag_len st = (frag', st1) →
  wk_desc st1 = wk_desc st ∧ wk_tail st1 = wk_tail st ∧
  wk_complete st1 = wk_complete st ∧ wk_frame_len st1 = wk_frame_len st ∧
  ((frag' = frag ∧ wk_frag st1 = wk_frag st) ∨
   (∃ b, frag' = fresh b ∧ b ∈ pool_bufs (wk_pool st) ∧
         wk_frag st1 = <[wk_tail st := frag']> (wk_frag st))).
Proof.
  unfold frame_get_link. destruct (wk_rx_frame st) as [rx_frame|].
  - unfold net_pkt_get_frag, net_pkt_get_reserve_rx_data.
    destruct (pool_bufs (wk_pool st)) as [|b bs] eqn:Hp.
    + intros [= <- <-]. simpl. auto 10.
    + intros [= <- <-]. simpl. repeat split; try done.
      right. exists b. repeat split. apply list_elem_of_here.
  - intros [= <- <-]. auto 10.
Qed.

(** One turn of the loop: only the slot at [tail] changes; its status word
    is cleared and its address word is that of the buffer now recorded for
    the slot, with the wrap flag on the last slot. *)
Lemma frame_get_body_spec `{!gmac_priv_ok hw} st :
  let n := length (wk_desc st) in
  let t := wk_tail st in
  let st' := frame_get_body st in
  (t < n)%nat → length (wk_frag st) = n →
  length (wk_desc st') = n ∧ length (wk_frag st') = n ∧
  wk_tail st' = MODULO_INC t n ∧
  wk_complete st' = flag_set (w1 (wk_desc st !!! t)) GMAC_RXW1_EOF ∧
  (∀ i, i ≠ t →
     wk_desc st' !! i = wk_desc st !! i ∧ wk_frag st' !! i = wk_frag st !! i) ∧
  ∃ f',
    wk_frag st' !! t = Some f' ∧
    wk_desc st' !! t
    = Some (mk_desc (Z.lor (Z.land (nb_data f') GMAC_RXW0_ADDR)
                       (if decide (S t = n) then GMAC_RXW0_WRAP else 0)) 0) ∧
    (wk_frag st !! t = Some f' ∨
     ∃ b, f' = fresh b ∧ b ∈ pool_bufs (wk_pool st)).
Proof.
  intros n t st' Ht Hlf. subst st'. unfold frame_get_body.
  fold n. fold t.
  destruct (frame_get_link _ _ st) as [frag' st1] eqn:Hlink.
  apply frame_get_link_spec in Hlink as (Hd & Htl & _ & _ & Hfr).
  simpl. rewrite Hd, !length_alter. fold n. fold t in Hfr.
  rewrite frame_get_wrap.
  destruct (lookup_lt_is_Some_2 (wk_desc st) t Ht) as [d Hdt].
  assert (t < length (wk_frag st))%nat as Htf by lia.
  destruct (lookup_lt_is_Some_2 (wk_frag st) t Htf) as [f Hft].
  assert (length (wk_frag st1) = n ∧
          (∀ i, i ≠ t → wk_frag st1 !! i = wk_frag st !! i) ∧
          wk_frag st1 !! t = Some frag' ∧
          (wk_frag st !! t = Some frag' ∨
           ∃ b, frag' = fresh b ∧ b ∈ pool_bufs (wk_pool st)))
    as (Hl1 & Hne1 & Heq1 & Hsrc).
  { destruct Hfr as [[-> ->]|(b & -> & Hb & ->)].
    - rewrite (list_lookup_total_correct _ _ _ Hft). auto.
    - rewrite length_insert. split; [done|]. split.
      + intros i Hi. by rewrite list_lookup_insert_ne.
      + split; [by rewrite list_lookup_insert_eq|]. right. eauto. }
  split; [done|]. split; [done|]. split; [done|]. split; [done|]. split.
  - intros i Hi. rewrite !list_lookup_alter_ne by done. auto.
  - exists frag'. split; [done|]. split; [|done].
    rewrite !list_lookup_alter_eq, Hdt. done.
Qed.

(** *** Termination of the two loops *)

Lemma count_owned_le l : (count_owned l ≤ length l)%nat.
Proof.
  induction l as [|d l IH]; simpl; [done|].
  destruct (flag_set _ _); lia.
Qed.

Lemma count_owned_release l i d d' :
  l !! i = Some d →
  flag_set (w0 d) GMAC_RXW0_OWNERSHIP = true →
  flag_set (w0 d') GMAC_RXW0_OWNERSHIP = false →
  S (count_owned (<[i := d']> l)) = count_owned l.
Proof.
  revert i. induction l as [|x l IH]; intros [|i] Hl Hd Hd'; simpl in *;
    try done.
  - injection Hl as ->. rewrite Hd, Hd'. done.
  - rewrite <- (IH i Hl Hd Hd'). lia.
Qed.

Lemma frame_get_walk_ends `{!gmac_priv_ok hw} fuel st :
  (wk_tail st < length (wk_desc st))%nat →
  length (wk_frag st) = length (wk_desc st) →
  (count_owned (wk_desc st) < fuel)%nat →
  ∃ st', frame_get_walk fuel st = Some st'.
Proof.
  revert st. induction fuel as [|fuel IH]; intros st Ht Hlf Hc; [lia|].
  simpl. destruct (_ && _) eqn:Hcond; [|eauto].
  apply andb_true_iff in Hcond as [Hown _].
  destruct (frame_get_body_spec st Ht Hlf)
    as (Hl1 & Hl2 & Htl & _ & Hne & f' & Hf' & Hd' & _).
  apply IH.
  - rewrite Hl1, Htl. apply MODULO_INC_lt. lia.
  - by rewrite Hl1, Hl2.
  - destruct (lookup_lt_is_Some_2 (wk_desc st) _ Ht) as [d Hdt].
    rewrite (list_lookup_total_correct _ _ _ Hdt) in Hown.
    enough (S (count_owned (wk_desc (frame_get_body st)))
            = count_owned (wk_desc st)) by lia.
    rewrite <- (count_owned_release (wk_desc st) _ d
                  (mk_desc (Z.lor (Z.land (nb_data f') GMAC_RXW0_ADDR)
                     (if decide (S (wk_tail st) = length (wk_desc st))
                      then GMAC_RXW0_WRAP else 0)) 0) Hdt Hown).
    + f_equal. f_equal. apply list_eq. intros i.
      destruct (decide (i = wk_tail st)) as [->|Hi].
      * rewrite Hd', list_lookup_insert_eq; done.
      * rewrite list_lookup_insert_ne by done. apply Hne. done.
    + simpl. apply flag_set_false, rx_w0_hw_owned. case_decide; auto.
Qed.

Lemma ring_slot_0 n t : (t < n)%nat → ring_slot n t 0 = t.
Proof. intros. unfold ring_slot. rewrite Nat.add_0_r. by apply Nat.mod_small. Qed.

Lemma ring_slot_lt n t j : (0 < n)%nat → (ring_slot n t j < n)%nat.
Proof. intros. apply Nat.mod_upper_bound. lia. Qed.

Lemma ring_slot_S n t j :
  (t < n)%nat → ring_slot n (MODULO_INC t n) j = ring_slot n t (S j).
Proof.
  intros Ht. rewrite MODULO_INC_slot by done. unfold ring_slot.
  rewrite Nat.Div0.add_mod_idemp_l. f_equal. lia.
Qed.

Lemma ring_slot_reach n t i :
  (t < n)%nat → (i < n)%nat → ∃ j, (j < n)%nat ∧ ring_slot n t j = i.
Proof.
  intros Ht Hi. exists ((i + n - t) mod n)%nat. split.
  - apply Nat.mod_upper_bound. lia.
  - unfold ring_slot. rewrite Nat.Div0.add_mod_idemp_r.
    replace (t + (i + n - t))%nat with (i + 1 * n)%nat by lia.
    rewrite Nat.Div0.mod_add. by apply Nat.mod_small.
Qed.

(** The first loop ends when some descriptor ahead of [tail] is not owned by
    software or carries end-of-frame. *)
Lemma frame_get_scan_ends descs j fuel t c :
  let n := length descs in
  (t < n)%nat → (S j < fuel)%nat →
  (flag_set (w0 (descs !!! ring_slot n t j)) GMAC_RXW0_OWNERSHIP = false ∨
   flag_set (w1 (descs !!! ring_slot n t j)) GMAC_RXW1_EOF = true) →
  ∃ r, frame_get_scan fuel descs t c = Some r.
Proof.
  intros n. revert fuel t c.
  induction j as [|j IH]; intros fuel t c Ht Hf Hstop.
  - rewrite ring_slot_0 in Hstop by done.
    destruct fuel as [|[|fuel]]; [lia|lia|]. simpl.
    unfold gmac_desc_get_w0, gmac_desc_get_w1.
    destruct (_ && _) eqn:Hcond; [|eauto].
    apply andb_true_iff in Hcond as [Hown _].
    destruct Hstop as [Hs|Hs]; [congruence|]. rewrite Hs.
    rewrite andb_false_r. eauto.
  - destruct fuel as [|fuel]; [lia|]. simpl.
    destruct (_ && _) eqn:Hcond; [|eauto].
    apply IH.
    + apply MODULO_INC_lt. lia.
    + lia.
    + fold n. rewrite ring_slot_S by done. done.
Qed.


(** *** The tracking-ring invariant *)

Lemma buf_aligned_fresh b : buf_aligned b → buf_aligned (fresh b).
Proof. done. Qed.


(** The address word written for an aligned buffer carries its address. *)
Lemma rx_w0_addr `{!gmac_priv_ok hw} f wrap :
  buf_aligned f → wrap = 0 ∨ wrap = GMAC_RXW0_WRAP →
  Z.land (Z.lor (Z.land (nb_data f) GMAC_RXW0_ADDR) wrap) GMAC_RXW0_ADDR
  = nb_data f.
Proof.
  intros Hf Hw. apply ldiff_0_land in Hf.
  rewrite land_lor_disjoint.
  - by rewrite Hf.
  - destruct Hw as [->| ->]; [done|].
    rewrite Z.land_comm. apply rx_addr_wrap.
Qed.









(** *** The first loop of [frame_get] along a run of descriptors *)

Lemma ring_slot_cases n t j :
  (t < n)%nat → (j < n)%nat →
  ring_slot n t j = if (t + j <? n)%nat then (t + j)%nat else (t + j - n)%nat.
Proof.
  intros Ht Hj. unfold ring_slot.
  destruct (Nat.ltb_spec (t + j) n).
  - by apply Nat.mod_small.
  - replace (t + j)%nat with ((t + j - n) + 1 * n)%nat at 1 by lia.
    rewrite Nat.Div0.mod_add. apply Nat.mod_small. lia.
Qed.

Lemma ring_slot_inj n t j1 j2 :
  (t < n)%nat → (j1 < n)%nat → (j2 < n)%nat →
  ring_slot n t j1 = ring_slot n t j2 → j1 = j2.
Proof.
  intros Ht H1 H2. rewrite !ring_slot_cases by done.
  destruct (Nat.ltb_spec (t + j1) n), (Nat.ltb_spec (t + j2) n); lia.
Qed.

Lemma ring_slot_period n t j : ring_slot n t (j + n) = ring_slot n t j.
Proof.
  unfold ring_slot. replace (t + (j + n))%nat with (t + j + 1 * n)%nat by lia.
  apply Nat.Div0.mod_add.
Qed.

Lemma frame_get_scan_skip descs k fuel t :
  let n := length descs in
  (t < n)%nat →
  (∀ j, (j < k)%nat →
     flag_set (w0 (descs !!! ring_slot n t j)) GMAC_RXW0_OWNERSHIP = true ∧
     flag_set (w1 (descs !!! ring_slot n t j)) GMAC_RXW1_EOF = false) →
  frame_get_scan (k + fuel) descs t false
  = frame_get_scan fuel descs (ring_slot n t k) false.
Proof.
  intros n. revert t. induction k as [|k IH]; intros t Ht Hrun.
  - by rewrite ring_slot_0.
  - destruct (Hrun 0%nat) as [Hown Heof]; [lia|].
    rewrite ring_slot_0 in Hown, Heof by done.
    simpl. unfold gmac_desc_get_w0, gmac_desc_get_w1.
    rewrite Hown, Heof. simpl. fold n.
    rewrite IH.
    + by rewrite ring_slot_S.
    + apply MODULO_INC_lt. lia.
    + intros j Hj. rewrite ring_slot_S by done. apply Hrun. lia.
Qed.

Lemma rx_incomplete_lt descs t k :
  (t < length descs)%nat → rx_incomplete descs t k → (k < length descs)%nat.
Proof.
  intros Ht [Hrun Hstop].
  destruct (decide (k < length descs)%nat) as [|Hge]; [done|].
  destruct (Hrun (k - length descs)%nat) as [Hown _]; [lia|].
  replace k with (k - length descs + length descs)%nat in Hstop by lia.
  rewrite ring_slot_period in Hstop. simpl in Hown. congruence.
Qed.

Lemma rx_run_le descs t k :
  (t < length descs)%nat → rx_run descs t k → (k ≤ length descs)%nat.
Proof.
  intros Ht Hrun.
  destruct (decide (k ≤ length descs)%nat) as [|Hgt]; [done|].
  destruct (Hrun (k - 1)%nat) as [_ Heof]; [lia|].
  destruct (Hrun (k - 1 - length descs)%nat) as [_ Heof']; [lia|].
  replace (k - 1)%nat with (k - 1 - length descs + length descs)%nat
    in Heof at 1 by lia.
  rewrite ring_slot_period in Heof. simpl in Heof, Heof'.
  rewrite Heof in Heof'.
  rewrite bool_decide_true, bool_decide_false in Heof' by lia. done.
Qed.

Lemma frame_get_scan_incomplete descs t k :
  (t < length descs)%nat → rx_incomplete descs t k →
  frame_get_scan (S (length descs)) descs t false = Some false.
Proof.
  intros Ht Hinc. pose proof (rx_incomplete_lt _ _ _ Ht Hinc) as Hk.
  destruct Hinc as [Hrun Hstop].
  replace (S (length descs)) with (k + S (length descs - k))%nat by lia.
  rewrite frame_get_scan_skip by done.
  simpl. unfold gmac_desc_get_w0. by rewrite Hstop.
Qed.

Lemma frame_get_scan_complete descs t k :
  (t < length descs)%nat → (0 < k)%nat → rx_run descs t k →
  frame_get_scan (S (length descs)) descs t false = Some true.
Proof.
  intros Ht Hk Hrun. pose proof (rx_run_le _ _ _ Ht Hrun) as Hle.
  replace (S (length descs))
    with ((k - 1) + S (S (length descs - k)))%nat by lia.
  rewrite frame_get_scan_skip; [|done|].
  - destruct (Hrun (k - 1)%nat) as [Hown Heof]; [lia|].
    rewrite bool_decide_true in Heof by lia.
    simpl. unfold gmac_desc_get_w0, gmac_desc_get_w1.
    rewrite Hown, Heof. simpl. by rewrite andb_false_r.
  - intros j Hj. destruct (Hrun j) as [Hown Heof]; [lia|].
    rewrite bool_decide_false in Heof by lia. done.
Qed.

(** When the fuel of the first loop runs out, every descriptor is owned by
    software and none carries end-of-frame: the C loop goes round the ring
    for ever. *)
Lemma frame_get_scan_None descs t :
  (t < length descs)%nat →
  frame_get_scan (S (length descs)) descs t false = None →
  ∀ i d, descs !! i = Some d →
    flag_set (w0 d) GMAC_RXW0_OWNERSHIP = true ∧
    flag_set (w1 d) GMAC_RXW1_EOF = false.
Proof.
  intros Ht Hscan i d Hd.
  assert (i < length descs)%nat as Hi by (by apply lookup_lt_Some in Hd).
  destruct (ring_slot_reach _ t i Ht Hi) as (j & Hj & Hji).
  destruct (flag_set (w0 d) GMAC_RXW0_OWNERSHIP) eqn:Hown,
           (flag_set (w1 d) GMAC_RXW1_EOF) eqn:Heof; try done.
  all: destruct (frame_get_scan_ends descs j (S (length descs)) t false)
         as [r Hr];
    [done|lia|rewrite Hji, (list_lookup_total_correct _ _ _ Hd); auto|
     congruence].
Qed.

(** C3. When, scanning forward from [tail], the descriptors owned by
    software carry no end-of-frame flag up to the first descriptor that is
    not owned, [frame_get] returns nothing and leaves everything as it was:
    [tail], every descriptor word, every entry of the tracking ring, the
    pool and the counters. *)
Theorem frame_get_incomplete_untouched pool queue k :
  (dl_tail (rx_desc_list queue) < dl_len (rx_desc_list queue))%nat →
  rx_incomplete (dl_buf (rx_desc_list queue)) (dl_tail (rx_desc_list queue))
    k →
  frame_get pool queue = Some (None, pool, queue).
Proof.
  intros Ht Hinc. unfold frame_get.
  unfold dl_len. by rewrite (frame_get_scan_incomplete _ _ k).
Qed.

(** *** The second loop of [frame_get] along a run of descriptors *)

Lemma ring_slot_next n t m :
  (0 < n)%nat → MODULO_INC (ring_slot n t m) n = ring_slot n t (S m).
Proof.
  intros Hn. rewrite MODULO_INC_slot by by apply ring_slot_lt.
  unfold ring_slot. rewrite Nat.Div0.add_mod_idemp_l. f_equal. lia.
Qed.

Lemma lookup_total_eq {A} `{!Inhabited A} (l1 l2 : list A) i :
  l1 !! i = l2 !! i → l1 !!! i = l2 !!! i.
Proof. intros H. by rewrite !list_lookup_total_alt, H. Qed.

(** After [m] turns, whatever the pool gave: the [m] slots from [tail] on
    have a cleared status word and the address of the buffer recorded for
    them; nothing else has changed. *)
Lemma frame_get_walk_n_spec `{!gmac_priv_ok hw} st m :
  let n := length (wk_desc st) in
  let t := wk_tail st in
  let stm := frame_get_walk_n m st in
  (t < n)%nat → length (wk_frag st) = n → (m ≤ n)%nat →
  length (wk_desc stm) = n ∧ length (wk_frag stm) = n ∧
  wk_tail stm = ring_slot n t m ∧
  (∀ i, (∀ j, (j < m)%nat → i ≠ ring_slot n t j) →
     wk_desc stm !! i = wk_desc st !! i ∧ wk_frag stm !! i = wk_frag st !! i) ∧
  (∀ j, (j < m)%nat →
     ∃ f', wk_frag stm !! ring_slot n t j = Some f' ∧
       wk_desc stm !! ring_slot n t j
       = Some (mk_desc (Z.lor (Z.land (nb_data f') GMAC_RXW0_ADDR)
                          (if decide (S (ring_slot n t j) = n)
                           then GMAC_RXW0_WRAP else 0)) 0)) ∧
  ((0 < m)%nat →
   wk_complete stm
   = flag_set (w1 (wk_desc st !!! ring_slot n t (m - 1))) GMAC_RXW1_EOF).
Proof.
  intros n t stm Ht Hlf. subst stm. induction m as [|m IH]; intros Hm.
  - simpl. rewrite ring_slot_0 by done.
    repeat split; try done; intros; lia.
  - destruct IH as (Hl1 & Hl2 & Htl & Hun & Hrun & _); [lia|].
    set (stm := frame_get_walk_n m st) in *.
    change (frame_get_walk_n (S m) st) with (frame_get_body stm).
    assert (wk_tail stm < length (wk_desc stm))%nat as Htm
      by (rewrite Hl1, Htl; apply ring_slot_lt; lia).
    assert (length (wk_frag stm) = length (wk_desc stm)) as Hlm by lia.
    destruct (frame_get_body_spec stm Htm Hlm)
      as (Hb1 & Hb2 & Hbt & Hbc & Hbne & f' & Hbf & Hbd & _).
    rewrite Hl1 in Hb1, Hb2, Hbt, Hbd. rewrite Htl in Hbt, Hbc, Hbne, Hbf, Hbd.
    split; [done|]. split; [done|]. split.
    { rewrite Hbt. apply ring_slot_next. lia. }
    split.
    { intros i Hi. destruct (Hbne i) as [-> ->]; [apply Hi; lia|].
      apply Hun. intros j Hj. apply Hi. lia. }
    split.
    { intros j Hj. destruct (decide (j = m)) as [->|Hne]; [eauto|].
      destruct (Hbne (ring_slot n t j)) as [-> ->].
      - intros Heq. apply ring_slot_inj in Heq; lia.
      - apply Hrun. lia. }
    intros _. rewrite Hbc. replace (S m - 1)%nat with m by lia.
    do 2 f_equal. apply lookup_total_eq, Hun.
    intros j Hj Heq. apply ring_slot_inj in Heq; lia.
Qed.

Lemma frame_get_body_frame_len st :
  wk_frame_len (frame_get_body st)
  = u32 (wk_frame_len st
         + frame_get_frag_len (w1 (wk_desc st !!! wk_tail st))
             (wk_frame_len st)).
Proof. unfold frame_get_body. by destruct (frame_get_link _ _ st). Qed.

Lemma u32_add_u32 a b : u32 (u32 a + u32 b) = u32 (a + b).
Proof. unfold u32. by rewrite <- Zplus_mod. Qed.

(** The descriptor that the [m]-th turn looks at is as it was at the start
    of the loop. *)
Lemma frame_get_walk_n_ahead `{!gmac_priv_ok hw} st m :
  let n := length (wk_desc st) in
  let t := wk_tail st in
  let stm := frame_get_walk_n m st in
  (t < n)%nat → length (wk_frag st) = n → (m < n)%nat →
  wk_desc stm !!! wk_tail stm = wk_desc st !!! ring_slot n t m ∧
  wk_frag stm !!! wk_tail stm = wk_frag st !!! ring_slot n t m.
Proof.
  intros n t stm Ht Hlf Hm.
  destruct (frame_get_walk_n_spec st m Ht Hlf) as (_ & _ & Htl & Hun & _);
    [lia|].
  fold stm in Htl, Hun. fold n t in Htl, Hun. rewrite Htl.
  destruct (Hun (ring_slot n t m)) as [Hd Hf].
  { intros j Hj Heq. apply ring_slot_inj in Heq; lia. }
  split; by apply lookup_total_eq.
Qed.

(** Bytes accounted before the last fragment: one full buffer for each
    fragment so far. *)
Lemma frame_get_walk_n_frame_len `{!gmac_priv_ok hw} st k m :
  let n := length (wk_desc st) in
  let t := wk_tail st in
  (t < n)%nat → length (wk_frag st) = n →
  rx_run (wk_desc st) t k → wk_frame_len st = 0 → (m < k)%nat →
  wk_frame_len (frame_get_walk_n m st)
  = u32 (Z.of_nat m * CONFIG_NET_BUF_DATA_SIZE).
Proof.
  intros n t Ht Hlf Hrun Hf0. subst n t.
  pose proof (rx_run_le _ _ _ Ht Hrun) as Hk.
  induction m as [|m IH]; intros Hm; [done|].
  change (frame_get_walk_n (S m) st)
    with (frame_get_body (frame_get_walk_n m st)).
  rewrite frame_get_body_frame_len, IH by lia.
  destruct (frame_get_walk_n_ahead st m Ht Hlf) as [-> _]; [lia|].
  destruct (Hrun m) as [_ Heof]; [lia|].
  rewrite bool_decide_false in Heof by lia.
  unfold frame_get_frag_len. simpl in Heof. rewrite Heof.
  rewrite u32_add_u32. f_equal. lia.
Qed.

(** Along a complete run of [k] descriptors the loop makes exactly [k]
    turns. *)
Lemma frame_get_walk_run `{!gmac_priv_ok hw} st k fuel :
  let n := length (wk_desc st) in
  let t := wk_tail st in
  (t < n)%nat → length (wk_frag st) = n →
  rx_run (wk_desc st) t k → wk_complete st = false →
  (0 < k)%nat → (k < fuel)%nat →
  frame_get_walk fuel st = Some (frame_get_walk_n k st).
Proof.
  intros n t Ht Hlf Hrun Hc0 Hk Hfuel. subst n t.
  pose proof (rx_run_le _ _ _ Ht Hrun) as Hkn.
  enough (∀ d m fuel', (m + d = k)%nat → (d < fuel')%nat →
            frame_get_walk fuel' (frame_get_walk_n m st)
            = Some (frame_get_walk_n k st)) as Hgen
    by exact (Hgen k 0%nat fuel eq_refl Hfuel).
  induction d as [|d IH]; intros m fuel' Hmd Hf;
    (destruct fuel' as [|fuel']; [lia|]); simpl.
  - assert (m = k) as -> by lia.
    destruct (frame_get_walk_n_spec st k Ht Hlf Hkn)
      as (_ & _ & _ & _ & _ & Hc).
    rewrite Hc by done. destruct (Hrun (k - 1)%nat) as [_ Heof]; [lia|].
    rewrite bool_decide_true in Heof by lia. simpl in Heof.
    rewrite Heof. by rewrite andb_false_r.
  - destruct (frame_get_walk_n_ahead st m Ht Hlf) as [-> _]; [lia|].
    destruct (Hrun m) as [Hown _]; [lia|]. simpl in Hown.
    unfold gmac_desc_get_w0. rewrite Hown.
    assert (wk_complete (frame_get_walk_n m st) = false) as ->.
    { destruct m as [|m]; [done|].
      destruct (frame_get_walk_n_spec st (S m) Ht Hlf)
        as (_ & _ & _ & _ & _ & Hc); [lia|].
      rewrite Hc by lia. replace (S m - 1)%nat with m by lia.
      destruct (Hrun m) as [_ Heof]; [lia|].
      rewrite bool_decide_false in Heof by lia. done. }
    simpl. apply (IH (S m)); lia.
Qed.

(** *** What the loop does with the frame and the pool *)

Lemma frame_get_body_linked st f b bs :
  wk_rx_frame st = Some f → pool_bufs (wk_pool st) = b :: bs →
  wk_rx_frame (frame_get_body st)
  = Some (mk_pkt (pkt_ptr f)
            (pkt_frags f
             ++ [net_buf_add (wk_frag st !!! wk_tail st)
                   (frame_get_frag_len (w1 (wk_desc st !!! wk_tail st))
                      (wk_frame_len st))])
            (pkt_ll_reserve f)) ∧
  wk_pool (frame_get_body st) = mk_pool (pool_pkts (wk_pool st)) bs ∧
  wk_dropped (frame_get_body st) = wk_dropped st ∧
  wk_frag (frame_get_body st) = <[wk_tail st := fresh b]> (wk_frag st).
Proof.
  intros Hf Hp. unfold frame_get_body, frame_get_link, net_pkt_get_frag,
    net_pkt_get_reserve_rx_data.
  rewrite Hf, Hp. simpl. by destruct (wk_last_frag st).
Qed.

Lemma frame_get_body_dropped st f :
  wk_rx_frame st = Some f → pool_bufs (wk_pool st) = [] →
  wk_rx_frame (frame_get_body st) = None ∧
  wk_pool (frame_get_body st) = net_pkt_unref f (wk_pool st) ∧
  wk_dropped (frame_get_body st) = u32 (wk_dropped st + 1) ∧
  wk_frag (frame_get_body st) = wk_frag st.
Proof.
  intros Hf Hp. unfold frame_get_body, frame_get_link, net_pkt_get_frag,
    net_pkt_get_reserve_rx_data.
  rewrite Hf, Hp. done.
Qed.

Lemma frame_get_body_no_frame st :
  wk_rx_frame st = None →
  wk_rx_frame (frame_get_body st) = None ∧
  wk_pool (frame_get_body st) = wk_pool st ∧
  wk_dropped (frame_get_body st) = wk_dropped st ∧
  wk_frag (frame_get_body st) = wk_frag st.
Proof.
  intros Hf. unfold frame_get_body, frame_get_link. rewrite Hf. done.
Qed.

(** After [m] turns along a complete run of [k] descriptors, with a frame
    container and the buffers [bs] in the pool: as long as the pool gives a
    buffer for each fragment, the posted buffers are linked to the frame in
    order and fresh buffers are recorded in their place; from the first
    failure on the frame is gone, the drop is counted once and the posted
    buffers stay where they are. *)
Lemma frame_get_walk_n_frame `{!gmac_priv_ok hw} st k f0 pkts bs m :
  let n := length (wk_desc st) in
  let t := wk_tail st in
  let stm := frame_get_walk_n m st in
  (t < n)%nat → length (wk_frag st) = n →
  rx_run (wk_desc st) t k → wk_frame_len st = 0 →
  wk_rx_frame st = Some f0 → wk_pool st = mk_pool pkts bs →
  (m ≤ k)%nat →
  (∀ j, (j < m)%nat →
     wk_frag stm !! ring_slot n t j
     = Some (if decide (j < length bs)%nat then fresh (bs !!! j)
             else wk_frag st !!! ring_slot n t j)) ∧
  if decide (m ≤ length bs)%nat
  then wk_rx_frame stm
       = Some (mk_pkt (pkt_ptr f0)
                 (pkt_frags f0 ++ rx_chain (wk_desc st) (wk_frag st) t k m)
                 (pkt_ll_reserve f0)) ∧
       wk_pool stm = mk_pool pkts (drop m bs) ∧
       wk_dropped stm = wk_dropped st
  else wk_rx_frame stm = None ∧ wk_dropped stm = u32 (wk_dropped st + 1).
Proof.
  intros n t stm Ht Hlf Hrun Hf0 Hfr Hpool. subst stm n t.
  pose proof (rx_run_le _ _ _ Ht Hrun) as Hkn.
  induction m as [|m IH]; intros Hm.
  - split; [intros; lia|]. rewrite decide_True by lia.
    unfold rx_chain. simpl. rewrite app_nil_r, drop_0. by destruct f0.
  - destruct IH as [Hfrags Hcase]; [lia|].
    destruct (frame_get_walk_n_spec st m Ht Hlf)
      as (Hl1 & Hl2 & Htl & Hun & _); [lia|].
    destruct (frame_get_walk_n_ahead st m Ht Hlf) as [Had Haf]; [lia|].
    set (stm := frame_get_walk_n m st) in *.
    change (frame_get_walk_n (S m) st) with (frame_get_body stm).
    assert (ring_slot (length (wk_desc st)) (wk_tail st) m
            < length (wk_frag stm))%nat as Hin
      by (rewrite Hl2; apply ring_slot_lt; lia).
    assert (∀ j, (j < m)%nat →
              ring_slot (length (wk_desc st)) (wk_tail st) m
              ≠ ring_slot (length (wk_desc st)) (wk_tail st) j) as Hne.
    { intros j Hj Heq. apply ring_slot_inj in Heq; lia. }
    assert (wk_frag stm !! ring_slot (length (wk_desc st)) (wk_tail st) m
            = Some (wk_frag st
                      !!! ring_slot (length (wk_desc st)) (wk_tail st) m))
      as Hposted.
    { rewrite (proj2 (Hun _ Hne)). apply list_lookup_lookup_total_lt.
      rewrite Hlf. apply ring_slot_lt. lia. }
    destruct (decide (m ≤ length bs)%nat) as [Hmb|Hmb].
    + destruct Hcase as (Hframe & Hp & Hd).
      destruct (decide (m < length bs)%nat) as [Hlt|Hge].
      * destruct (lookup_lt_is_Some_2 bs m Hlt) as [b Hb].
        destruct (frame_get_body_linked stm _ b (drop (S m) bs) Hframe)
          as (Hframe' & Hp' & Hd' & Hfrag').
        { rewrite Hp. simpl. by apply drop_S. }
        rewrite decide_True by lia. split.
        -- intros j Hj. rewrite Hfrag', Htl.
           destruct (decide (j = m)) as [->|Hjm].
           ++ rewrite list_lookup_insert_eq by done.
              rewrite decide_True by done.
              by rewrite (list_lookup_total_correct _ _ _ Hb).
           ++ rewrite list_lookup_insert_ne by (apply Hne; lia).
              apply Hfrags. lia.
        -- rewrite Hframe', Hp', Hd', Hp. simpl.
           split; [|done]. do 2 f_equal.
           unfold rx_chain. rewrite seq_S, fmap_app, app_assoc. simpl.
           do 3 f_equal; [done|].
           rewrite Had. unfold frame_get_frag_len, rx_frag_len.
           destruct (Hrun m) as [_ Heof]; [lia|]. simpl in Heof.
           rewrite Heof. unfold stm.
           rewrite (frame_get_walk_n_frame_len st k m Ht Hlf Hrun Hf0)
             by lia.
           case_bool_decide; case_decide; done || lia.
      * destruct (frame_get_body_dropped stm _ Hframe)
          as (Hframe' & _ & Hd' & Hfrag').
        { rewrite Hp. simpl. apply drop_ge. lia. }
        rewrite decide_False by lia. split; [|by rewrite Hd', Hd].
        intros j Hj. rewrite Hfrag'.
        destruct (decide (j = m)) as [->|Hjm].
        -- rewrite decide_False by lia. done.
        -- apply Hfrags. lia.
    + destruct Hcase as [Hframe Hd].
      destruct (frame_get_body_no_frame stm Hframe)
        as (Hframe' & _ & Hd' & Hfrag').
      rewrite decide_False by lia. split; [|by rewrite Hd', Hd].
      intros j Hj. rewrite Hfrag'.
      destruct (decide (j = m)) as [->|Hjm].
      * rewrite decide_False by lia. done.
      * apply Hfrags. lia.
Qed.

(** *** [frame_get] on a complete frame *)

Lemma frame_get_complete_run `{!gmac_priv_ok hw} pool queue k rx_frame
    pool1 :
  let descs := dl_buf (rx_desc_list queue) in
  let t := dl_tail (rx_desc_list queue) in
  let st :=
    frame_get_walk_n k
      (mk_walk descs (rb_buf (rx_frag_list queue)) t false 0 rx_frame None
         pool1 (err_rx_frames_dropped queue)) in
  (t < length descs)%nat → rb_len (rx_frag_list queue) = length descs →
  rx_run descs t k → (0 < k)%nat →
  net_pkt_get_reserve_rx pool = (rx_frame, pool1) →
  frame_get pool queue
  = Some (wk_rx_frame st, wk_pool st,
          set_err_rx_frames_dropped (wk_dropped st)
            (set_rx_frag_list
               (mk_ring (wk_frag st) (rb_head (rx_frag_list queue))
                  (rb_tail (rx_frag_list queue)))
               (set_rx_desc_list
                  (mk_desc_list (wk_desc st) (dl_head (rx_desc_list queue))
                     (wk_tail st)) queue))).
Proof.
  intros descs t st Ht Hlf Hrun Hk Hrx. subst descs t st.
  pose proof (rx_run_le _ _ _ Ht Hrun) as Hkn.
  unfold frame_get, dl_len.
  rewrite (frame_get_scan_complete _ _ k), Hrx by done.
  rewrite (frame_get_walk_run _ k); simpl; done || lia.
Qed.

(** The address field of a slot that [frame_get] has written. *)
Lemma rx_w0_addr_field `{!gmac_priv_ok hw} a (t n : nat) :
  Z.land (Z.lor (Z.land a GMAC_RXW0_ADDR)
                (if decide (S t = n) then GMAC_RXW0_WRAP else 0))
         GMAC_RXW0_ADDR
  = Z.land a GMAC_RXW0_ADDR.
Proof.
  rewrite land_lor_disjoint.
  - by rewrite <- Z.land_assoc, Z.land_diag.
  - case_decide; [|done]. rewrite Z.land_comm. apply rx_addr_wrap.
Qed.

Lemma rx_w0_written_hw_owned `{!gmac_priv_ok hw} a (t n : nat) w :
  hw_owned
    (mk_desc (Z.lor (Z.land a GMAC_RXW0_ADDR)
                    (if decide (S t = n) then GMAC_RXW0_WRAP else 0)) w).
Proof.
  apply flag_set_false, rx_w0_hw_owned. destruct (decide (S t = n)); auto.
Qed.

(** C8 (as amended). When [frame_get] walks a complete run of [k]
    fragments and the pool has a frame container and a buffer for each of
    them, it returns the posted buffers as the fragments of the frame, in
    order; every fragment but the last is given the fixed data size of a
    buffer ([CONFIG_NET_BUF_DATA_SIZE]) as its length, and the last one, the
    one with end-of-frame, the reported length minus the bytes accounted for
    the earlier fragments (in 32-bit arithmetic). *)
Theorem frame_get_fragment_lengths `{!gmac_priv_ok hw} queue k p pkts bs :
  let descs := dl_buf (rx_desc_list queue) in
  let frags := rb_buf (rx_frag_list queue) in
  let n := length descs in
  let t := dl_tail (rx_desc_list queue) in
  (t < n)%nat → rb_len (rx_frag_list queue) = n →
  rx_run descs t k → (0 < k)%nat → (k ≤ length bs)%nat →
  ∃ chain queue',
    frame_get (mk_pool (p :: pkts) bs) queue
    = Some (Some (mk_pkt p chain 0), mk_pool pkts (drop k bs), queue') ∧
    length chain = k ∧
    ∀ j, (j < k)%nat →
      chain !! j
      = Some (net_buf_add (frags !!! ring_slot n t j)
                (if decide (S j = k)
                 then u32 (Z.land (w1 (descs !!! ring_slot n t j))
                                  GMAC_RXW1_LEN
                           - u32 (Z.of_nat j * CONFIG_NET_BUF_DATA_SIZE))
                 else u32 CONFIG_NET_BUF_DATA_SIZE)).
Proof.
  intros descs frags n t Ht Hlf Hrun Hk Hbs. subst descs frags n t.
  rewrite (frame_get_complete_run _ _ k (Some (mk_pkt p [] 0))
             (mk_pool pkts bs)) by done.
  set (st := mk_walk _ _ _ _ _ _ _ _ _).
  destruct (frame_get_walk_n_frame st k (mk_pkt p [] 0) pkts bs k)
    as [_ Hcase]; try done.
  rewrite decide_True in Hcase by done. destruct Hcase as (-> & -> & _).
  simpl. eexists _, _. split; [reflexivity|]. unfold rx_chain. split.
  - by rewrite length_fmap, length_seq.
  - intros j Hj. rewrite list_lookup_fmap, lookup_seq_lt by done. done.
Qed.

(** C2. Three descriptors from [tail] on hold one frame: owned by software,
    end-of-frame on the third, which reports the length 168; the buffers
    hold 64 bytes each, the posted buffers are empty, and the pool has a
    frame container and three buffers.  Then [frame_get] returns one frame
    of length 168 whose fragment chain is the three posted buffers (with 64,
    64 and 40 bytes), takes the three buffers from the pool and installs
    them at the three slots of the tracking ring and of the descriptor ring,
    and moves [tail] past the three slots; the other slots stay as they
    are. *)
Theorem frame_get_three_fragments `{!gmac_priv_ok hw} queue p pkts b0 b1 b2
    bs :
  let descs := dl_buf (rx_desc_list queue) in
  let frags := rb_buf (rx_frag_list queue) in
  let n := length descs in
  let t := dl_tail (rx_desc_list queue) in
  CONFIG_NET_BUF_DATA_SIZE = 64 →
  (t < n)%nat → rb_len (rx_frag_list queue) = n →
  rx_run descs t 3 →
  Z.land (w1 (descs !!! ring_slot n t 2)) GMAC_RXW1_LEN = 168 →
  (∀ j, (j < 3)%nat → nb_len (frags !!! ring_slot n t j) = 0) →
  ∃ frame queue',
    frame_get (mk_pool (p :: pkts) (b0 :: b1 :: b2 :: bs)) queue
    = Some (Some frame, mk_pool pkts bs, queue') ∧
    frame_length frame = 168 ∧
    nb_len <$> pkt_frags frame = [64; 64; 40] ∧
    nb_ptr <$> pkt_frags frame
    = (λ j, nb_ptr (frags !!! ring_slot n t j)) <$> [0; 1; 2]%nat ∧
    (∀ j b, [b0; b1; b2] !! j = Some b →
       rb_buf (rx_frag_list queue') !! ring_slot n t j = Some (fresh b) ∧
       ∃ d, dl_buf (rx_desc_list queue') !! ring_slot n t j = Some d ∧
            Z.land (w0 d) GMAC_RXW0_ADDR
            = Z.land (nb_data b) GMAC_RXW0_ADDR ∧
            w1 d = 0 ∧ hw_owned d) ∧
    (∀ i, (∀ j, (j < 3)%nat → i ≠ ring_slot n t j) →
       dl_buf (rx_desc_list queue') !! i = descs !! i ∧
       rb_buf (rx_frag_list queue') !! i = frags !! i) ∧
    dl_tail (rx_desc_list queue') = ring_slot n t 3 ∧
    err_rx_frames_dropped queue' = err_rx_frames_dropped queue.
Proof.
  intros descs frags n t Hsize Ht Hlf Hrun Hlen Hempty.
  subst descs frags n t.
  pose proof (rx_run_le _ _ _ Ht Hrun) as Hkn.
  rewrite (frame_get_complete_run _ _ 3 (Some (mk_pkt p [] 0))
             (mk_pool pkts (b0 :: b1 :: b2 :: bs))) by (done || lia).
  set (st := mk_walk _ _ _ _ _ _ _ _ _).
  destruct (frame_get_walk_n_frame st 3 (mk_pkt p [] 0) pkts
              (b0 :: b1 :: b2 :: bs) 3) as [Hfrags Hcase]; try done.
  rewrite decide_True in Hcase by (simpl; lia).
  destruct Hcase as (Hframe & Hpool & Hdrop).
  destruct (frame_get_walk_n_spec st 3) as (_ & _ & Htl & Hun & Hsl & _);
    try done.
  rewrite Hframe, Hpool, Hdrop. simpl.
  eexists _, _. split; [reflexivity|]. simpl.
  unfold frame_length, rx_chain, rx_frag_len. simpl.
  rewrite !Hempty, Hlen, Hsize by lia. simpl.
  split; [done|]. split; [done|]. split; [done|]. split.
  - intros j b Hb.
    assert (j < 3)%nat as Hj by (apply lookup_lt_Some in Hb; simpl in Hb; lia).
    specialize (Hfrags j Hj). simpl in Hfrags.
    rewrite decide_True in Hfrags by (simpl; lia).
    assert ((b0 :: b1 :: b2 :: bs) !! j = Some b) as Hb'
      by (by destruct j as [|[|[|j]]]).
    rewrite (list_lookup_total_correct _ _ _ Hb') in Hfrags.
    split; [done|].
    destruct (Hsl j Hj) as (f' & Hf' & Hd'). simpl in Hf', Hd'.
    rewrite Hfrags in Hf'. injection Hf' as <-.
    eexists. split; [exact Hd'|]. simpl. split; [|split; [done|]].
    + apply rx_w0_addr_field.
    + apply rx_w0_written_hw_owned.
  - split; [exact Hun|]. split; done.
Qed.

(** C4. Three descriptors from [tail] on hold one complete frame, the pool
    has a frame container, but fewer than three buffers (with one buffer the
    acquisition fails on the second fragment).  Then [frame_get] returns no
    frame, counts one dropped frame, and still moves [tail] past the three
    descriptors; each of them is left with its status word cleared, owned by
    the hardware, and with the address of the buffer recorded at its slot: a
    fresh buffer where one could be acquired, the posted buffer elsewhere. *)
Theorem frame_get_drops_frame `{!gmac_priv_ok hw} queue p pkts bs :
  let descs := dl_buf (rx_desc_list queue) in
  let frags := rb_buf (rx_frag_list queue) in
  let n := length descs in
  let t := dl_tail (rx_desc_list queue) in
  (t < n)%nat → rb_len (rx_frag_list queue) = n →
  rx_run descs t 3 →
  (length bs < 3)%nat →
  ∃ pool' queue',
    frame_get (mk_pool (p :: pkts) bs) queue = Some (None, pool', queue') ∧
    err_rx_frames_dropped queue' = u32 (err_rx_frames_dropped queue + 1) ∧
    dl_tail (rx_desc_list queue') = ring_slot n t 3 ∧
    ∀ j, (j < 3)%nat →
      ∃ d f,
        dl_buf (rx_desc_list queue') !! ring_slot n t j = Some d ∧
        rb_buf (rx_frag_list queue') !! ring_slot n t j = Some f ∧
        w1 d = 0 ∧ hw_owned d ∧
        Z.land (w0 d) GMAC_RXW0_ADDR = Z.land (nb_data f) GMAC_RXW0_ADDR ∧
        f = if decide (j < length bs)%nat then fresh (bs !!! j)
            else frags !!! ring_slot n t j.
Proof.
  intros descs frags n t Ht Hlf Hrun Hbs. subst descs frags n t.
  pose proof (rx_run_le _ _ _ Ht Hrun) as Hkn.
  rewrite (frame_get_complete_run _ _ 3 (Some (mk_pkt p [] 0))
             (mk_pool pkts bs)) by (done || lia).
  set (st := mk_walk _ _ _ _ _ _ _ _ _).
  destruct (frame_get_walk_n_frame st 3 (mk_pkt p [] 0) pkts bs 3)
    as [Hfrags Hcase]; try done.
  rewrite decide_False in Hcase by lia. destruct Hcase as (Hframe & Hdrop).
  destruct (frame_get_walk_n_spec st 3) as (_ & _ & Htl & _ & Hsl & _);
    try done.
  rewrite Hframe, Hdrop.
  eexists _, _. split; [reflexivity|]. simpl.
  split; [done|]. split; [done|].
  intros j Hj. destruct (Hsl j Hj) as (f' & Hf' & Hd').
  eexists _, f'. split; [exact Hd'|]. split; [exact Hf'|]. simpl.
  split; [done|]. split; [|split].
  - apply rx_w0_written_hw_owned.
  - apply rx_w0_addr_field.
  - specialize (Hfrags j Hj). simpl in Hfrags, Hf'. congruence.
Qed.

(** ** Frame Submitter *)

(** The loop of [eth_tx] goes on from where its first [j] turns have
    brought it. *)
Lemma eth_tx_loop_turns_spec j env k at_entry frags dev frags' dev' :
  eth_tx_loop_turns j env k at_entry frags dev = Some (frags', dev') →
  eth_tx_loop env k at_entry frags dev
  = eth_tx_loop env (k + 2 * j) at_entry frags' dev' ∧
  length frags = (j + length frags')%nat.
Proof.
  revert k frags dev. induction j as [|j IH]; intros k frags dev.
  - intros [= <- <-]. by rewrite Nat.add_0_r.
  - destruct frags as [|frag rest]; [done|].
    cbn [eth_tx_loop_turns eth_tx_loop].
    destruct (k_sem_take _) as [sem|]; [|done].
    destruct (eth_tx_fragment _ _ _ _) as [[e|] queue]; [done|].
    intros Hrun. destruct (IH _ _ _ Hrun) as [-> Hlen]. split.
    + f_equal. lia.
    + simpl. by rewrite Hlen.
Qed.

Lemma eth_dev_eta (dev : eth_dev) :
  mk_dev (dev_gmac dev) (dev_queue dev) = dev.
Proof. by destruct dev. Qed.

(** C5. Take any call of [eth_tx], under any interference, that has come to
    a critical section after [j] turns of its fragment loop: the section of
    the next fragment, or the one after the last fragment.  If the flush
    counter [err_tx_flushed_count] then differs from the value that this
    call sampled at entry, the call returns [-EIO], and the shared state it
    returns with is the very state [dev_c] in which the section began (as
    the interference left it, with the flow-controller unit taken for the
    fragment): no TX descriptor is written, [head] does not move, nothing
    is put on the ring of in-flight frames. *)
Theorem eth_tx_flushed_aborts env dev pkt first rest j remaining dev_j :
  let at_entry := err_tx_flushed_count (dev_queue dev) in
  let first1 := net_buf_push first (pkt_ll_reserve pkt) in
  pkt_frags pkt = first :: rest →
  eth_tx_loop_turns j env 0 at_entry (first1 :: rest) dev
  = Some (remaining, dev_j) →
  (∀ frag rest' sem,
     remaining = frag :: rest' →
     k_sem_take (tx_desc_sem (dev_queue (env (2 * j)%nat dev_j))) = Some sem →
     let dev_c :=
       env (S (2 * j))
         (mk_dev (dev_gmac (env (2 * j)%nat dev_j))
            (set_tx_desc_sem sem (dev_queue (env (2 * j)%nat dev_j)))) in
     err_tx_flushed_count (dev_queue dev_c) ≠ at_entry →
     eth_tx env dev pkt
     = (TxErr EIO, dev_c,
        mk_pkt (pkt_ptr pkt) (first1 :: rest) (pkt_ll_reserve pkt)) ∧
     eth_tx_fragment at_entry frag
       (match rest' with [] => true | _ => false end) (dev_queue dev_c)
     = (Some EIO, dev_queue dev_c)) ∧
  (remaining = [] →
   let dev_c := env (2 * j)%nat dev_j in
   err_tx_flushed_count (dev_queue dev_c) ≠ at_entry →
   j = length (pkt_frags pkt) ∧
   eth_tx env dev pkt
   = (TxErr EIO, dev_c,
      mk_pkt (pkt_ptr pkt)
        (mk_buf (nb_ptr first1) (nb_data first) (nb_len first1)
           (nb_size first1) :: rest)
        (pkt_ll_reserve pkt)) ∧
   ∀ pkt', eth_tx_commit at_entry pkt' (dev_queue dev_c)
           = (Some EIO, dev_queue dev_c)).
Proof.
  intros at_entry first1 Hfrags Hrun.
  destruct (eth_tx_loop_turns_spec _ _ _ _ _ _ _ _ Hrun) as [Hloop Hlen].
  rewrite Nat.add_0_l in Hloop. split.
  - intros frag rest' sem -> Hsem dev_c Hne. apply Z.eqb_neq in Hne.
    assert (eth_tx_fragment at_entry frag
              (match rest' with [] => true | _ => false end)
              (dev_queue dev_c) = (Some EIO, dev_queue dev_c)) as Hfrag
      by (unfold eth_tx_fragment; by rewrite Hne).
    split; [|done].
    unfold eth_tx. rewrite Hfrags.
    cbn [pkt_frags]. fold first1 at_entry. rewrite Hloop.
    cbn [eth_tx_loop]. rewrite Hsem. fold dev_c. rewrite Hfrag.
    by rewrite eth_dev_eta.
  - intros -> dev_c Hne. apply Z.eqb_neq in Hne.
    assert (∀ pkt', eth_tx_commit at_entry pkt' (dev_queue dev_c)
                    = (Some EIO, dev_queue dev_c)) as Hcommit
      by (intros pkt'; unfold eth_tx_commit; by rewrite Hne).
    assert (j = length (pkt_frags pkt)) as Hj
      by (rewrite Hfrags; simpl in *; lia).
    split; [done|]. split; [|done].
    unfold eth_tx. rewrite Hfrags.
    cbn [pkt_frags]. fold first1 at_entry. rewrite Hloop.
    cbn [eth_tx_loop]. rewrite Hfrags in Hj. rewrite <- Hj.
    fold dev_c. rewrite Hcommit. by rewrite eth_dev_eta.
Qed.

(** The fragment loop never ends the call with 0. *)
Lemma eth_tx_loop_not_ok env k at_entry frags dev dev1 :
  eth_tx_loop env k at_entry frags dev ≠ (Some TxOk, dev1).
Proof.
  revert k dev. induction frags as [|frag rest IH]; intros k dev; simpl;
    [done|].
  destruct (k_sem_take _); [|done].
  destruct (eth_tx_fragment _ _ _ _) as [[e|] queue]; [done|]. apply IH.
Qed.

(** C10. When [eth_tx] returns 0, the data pointer of the first fragment of
    the packet is what it was at entry: the push of the link-layer header
    has been undone (the rest of the chain and the packet handle are as
    they were too). *)
Theorem eth_tx_restores_data env dev pkt dev' pkt' :
  eth_tx env dev pkt = (TxOk, dev', pkt') →
  ∃ first rest first',
    pkt_frags pkt = first :: rest ∧
    pkt_frags pkt' = first' :: rest ∧
    nb_data first' = nb_data first ∧
    nb_ptr first' = nb_ptr first ∧
    pkt_ptr pkt' = pkt_ptr pkt.
Proof.
  unfold eth_tx. destruct (pkt_frags pkt) as [|first rest]; [done|].
  destruct (eth_tx_loop _ _ _ _ _) as [[r|] dev1] eqn:Hloop.
  - intros [= -> <- <-]. by apply eth_tx_loop_not_ok in Hloop.
  - destruct (eth_tx_commit _ _ _) as [[e|] queue]; [done|].
    intros [= <- <-]. by eexists _, _, _.
Qed.

(** With nobody else touching the device and a flow-controller unit for
    every fragment, [eth_tx] returns 0. *)
Lemma eth_tx_loop_quiet k at_entry frags dev :
  err_tx_flushed_count (dev_queue dev) = at_entry →
  (length frags ≤ sem_count (tx_desc_sem (dev_queue dev)))%nat →
  ∃ dev',
    eth_tx_loop (λ _ d, d) k at_entry frags dev = (None, dev') ∧
    err_tx_flushed_count (dev_queue dev') = at_entry.
Proof.
  revert k dev. induction frags as [|frag rest IH]; intros k dev Hc Hsem.
  - exists dev. done.
  - simpl in *. unfold k_sem_take.
    destruct (sem_count (tx_desc_sem (dev_queue dev))) as [|c] eqn:Hcount;
      [lia|].
    simpl. unfold eth_tx_fragment. simpl. rewrite Hc, Z.eqb_refl. simpl.
    apply IH; simpl; [done|lia].
Qed.

Lemma eth_tx_quiet_ok dev pkt :
  pkt_frags pkt ≠ [] →
  (length (pkt_frags pkt) ≤ sem_count (tx_desc_sem (dev_queue dev)))%nat →
  ∃ dev' pkt', eth_tx (λ _ d, d) dev pkt = (TxOk, dev', pkt').
Proof.
  intros Hfrags Hsem. unfold eth_tx.
  destruct (pkt_frags pkt) as [|first rest]; [done|].
  destruct (eth_tx_loop_quiet 0 (err_tx_flushed_count (dev_queue dev))
              (pkt_frags (mk_pkt (pkt_ptr pkt)
                 (net_buf_push first (pkt_ll_reserve pkt) :: rest)
                 (pkt_ll_reserve pkt))) dev eq_refl Hsem)
    as (dev1 & -> & Hc).
  unfold eth_tx_commit. rewrite Hc, Z.eqb_refl. simpl. eauto.
Qed.

(** ** Completion handling *)

Lemma ring_distance_lt n t h : (0 < n)%nat → (ring_distance n t h < n)%nat.
Proof. intros. apply Nat.mod_upper_bound. lia. Qed.

Lemma ring_slot_distance n t h :
  (t < n)%nat → (h < n)%nat → ring_slot n t (ring_distance n t h) = h.
Proof.
  intros Ht Hh. unfold ring_slot, ring_distance.
  rewrite Nat.Div0.add_mod_idemp_r.
  replace (t + (h + n - t))%nat with (h + 1 * n)%nat by lia.
  rewrite Nat.Div0.mod_add. by apply Nat.mod_small.
Qed.

Lemma ring_distance_0 n t : (t < n)%nat → ring_distance n t t = 0%nat.
Proof.
  intros Ht. unfold ring_distance.
  replace (t + n - t)%nat with n by lia. apply Nat.Div0.mod_same.
Qed.

Lemma ring_distance_S n t h :
  (t < n)%nat → (h < n)%nat → t ≠ h →
  ring_distance n t h = S (ring_distance n (MODULO_INC t n) h).
Proof.
  intros Ht Hh Hne.
  pose proof (ring_distance_lt n t h ltac:(lia)) as Hd.
  pose proof (ring_distance_lt n (MODULO_INC t n) h ltac:(lia)) as Hd'.
  pose proof (ring_slot_distance n t h Ht Hh) as Hs.
  pose proof (ring_slot_distance n (MODULO_INC t n) h
                (MODULO_INC_lt t n ltac:(lia)) Hh) as Hs'.
  rewrite ring_slot_S in Hs' by done.
  destruct (decide (S (ring_distance n (MODULO_INC t n) h) = n)) as [He|Hn].
  - rewrite He in Hs'. change n with (0 + n)%nat in Hs' at 2.
    rewrite ring_slot_period, ring_slot_0 in Hs' by done. done.
  - apply (ring_slot_inj n t); [done|done|lia|]. by rewrite Hs, Hs'.
Qed.

Lemma tx_scan_events_S n t k :
  (t < n)%nat →
  tx_scan_events n t (S k)
  = EvScan t :: EvSemGive :: tx_scan_events n (MODULO_INC t n) k.
Proof.
  intros Ht. unfold tx_scan_events. simpl. rewrite ring_slot_0 by done.
  do 3 f_equal. rewrite <- fmap_S_seq, <- list_fmap_compose.
  apply list_fmap_ext. intros _ j _. simpl. by rewrite ring_slot_S.
Qed.

(** The loop of [tx_completed], [d] slots before [head]. *)
Lemma tx_completed_loop_spec d fuel queue :
  let descs := dl_buf (tx_desc_list queue) in
  let n := length descs in
  let t := dl_tail (tx_desc_list queue) in
  let h := dl_head (tx_desc_list queue) in
  (t < n)%nat → (h < n)%nat → ring_distance n t h = d → (d < fuel)%nat →
  ∃ k queue' tr,
    tx_completed_loop fuel queue = Some (queue', tr) ∧
    (k ≤ d)%nat ∧
    (∀ j, (S j < k)%nat →
       flag_set (w1 (descs !!! ring_slot n t j)) GMAC_TXW1_LASTBUFFER
       = false) ∧
    tx_desc_list queue'
    = mk_desc_list descs h (ring_slot n t k) ∧
    tx_desc_sem queue' = Nat.iter k k_sem_give (tx_desc_sem queue) ∧
    rx_desc_list queue' = rx_desc_list queue ∧
    rx_frag_list queue' = rx_frag_list queue ∧
    (((0 < k)%nat ∧
      flag_set (w1 (descs !!! ring_slot n t (k - 1))) GMAC_TXW1_LASTBUFFER
      = true ∧
      tr = tx_scan_events n t k
           ++ [EvPktUnref (ring_buf_get (tx_frames queue)).1] ∧
      tx_frames queue' = (ring_buf_get (tx_frames queue)).2) ∨
     (k = d ∧
      (∀ j, (j < k)%nat →
         flag_set (w1 (descs !!! ring_slot n t j)) GMAC_TXW1_LASTBUFFER
         = false) ∧
      tr = tx_scan_events n t k ∧
      tx_frames queue' = tx_frames queue)).
Proof.
  intros descs n t h. subst descs n t h. revert fuel queue.
  induction d as [|d IH]; intros fuel queue Ht Hh Hd Hfuel;
    (destruct fuel as [|fuel]; [lia|]); simpl.
  - assert (dl_tail (tx_desc_list queue) = dl_head (tx_desc_list queue))
      as Heq.
    { rewrite <- (ring_slot_distance _ _ _ Ht Hh), Hd.
      by rewrite ring_slot_0. }
    rewrite Heq, Nat.eqb_refl. exists 0%nat, queue, [].
    rewrite <- Heq at 2. rewrite <- Heq at 4. rewrite ring_slot_0 by done.
    split; [done|]. split; [done|]. split; [intros; lia|].
    split; [by destruct queue as [? [] ? ? ? ? ? ?]|].
    split; [done|]. split; [done|]. split; [done|].
    right. split; [done|]. split; [intros; lia|]. done.
  - assert (dl_tail (tx_desc_list queue) ≠ dl_head (tx_desc_list queue))
      as Hne.
    { intros Heq. rewrite Heq, ring_distance_0 in Hd by done. done. }
    apply Nat.eqb_neq in Hne as Hneb. rewrite Hneb.
    unfold gmac_desc_get_w1, dl_len.
    set (queue1 := set_tx_desc_sem _ _).
    destruct (flag_set _ GMAC_TXW1_LASTBUFFER) eqn:Hlast.
    + eexists 1%nat, _, _.
      split; [reflexivity|]. split; [lia|]. split; [intros; lia|].
      simpl. rewrite <- MODULO_INC_slot by done.
      split; [done|]. split; [done|]. split; [done|]. split; [done|].
      left. rewrite ring_slot_0 by done. split; [lia|]. split; [done|].
      done.
    + destruct (IH fuel queue1) as (k & queue' & tr & Hloop & Hk & Hnl &
                                      Hdl & Hsem & Hrx & Hrf & Hcase).
      { simpl. apply MODULO_INC_lt. lia. }
      { done. }
      { simpl. rewrite (ring_distance_S _ _ _ Ht Hh Hne) in Hd. lia. }
      { lia. }
      simpl in *. rewrite Hloop.
      assert (∀ j, ring_slot (length (dl_buf (tx_desc_list queue)))
                     (MODULO_INC (dl_tail (tx_desc_list queue))
                        (length (dl_buf (tx_desc_list queue)))) j
                   = ring_slot (length (dl_buf (tx_desc_list queue)))
                       (dl_tail (tx_desc_list queue)) (S j)) as Hshift
        by (intros j; by apply ring_slot_S).
      assert (∀ j, (j < S k)%nat →
                (∀ i, (i < k)%nat →
                   flag_set
                     (w1 (dl_buf (tx_desc_list queue)
                          !!! ring_slot (length (dl_buf (tx_desc_list queue)))
                                (dl_tail (tx_desc_list queue)) (S i)))
                     GMAC_TXW1_LASTBUFFER = false) →
                flag_set
                  (w1 (dl_buf (tx_desc_list queue)
                       !!! ring_slot (length (dl_buf (tx_desc_list queue)))
                             (dl_tail (tx_desc_list queue)) j))
                  GMAC_TXW1_LASTBUFFER = false) as Hall.
      { intros [|j] Hj Hrest.
        - by rewrite ring_slot_0.
        - apply Hrest. lia. }
      eexists (S k), queue', _. split; [reflexivity|]. split; [lia|].
      split.
      { intros [|j] Hj.
        - by rewrite ring_slot_0.
        - rewrite <- Hshift. apply Hnl. lia. }
      rewrite Hdl, Hshift, Hsem. split; [done|].
      split; [by rewrite Nat.iter_succ_r|]. split; [done|]. split; [done|].
      rewrite tx_scan_events_S by done.
      destruct Hcase as [(Hk0 & Hlastk & -> & Hfr)|(-> & Hno & -> & Hfr)].
      * left. split; [lia|]. split.
        { replace (S k - 1)%nat with (S (k - 1)) by lia.
          by rewrite <- Hshift. }
        split; [done|]. done.
      * right. split; [done|]. split; [|done].
        intros j Hj. apply Hall; [done|]. intros i Hi.
        rewrite <- Hshift. by apply Hno.
Qed.

(** C6 (as amended). [tx_completed] scans forward from [tail] for as long
    as [tail] differs from [head]; the used bit of the descriptors plays no
    part.  It gives one unit back to the flow controller for each descriptor
    it scans.  When it reaches a descriptor with the last-buffer flag it
    takes one handle from the ring of in-flight frames, releases it, and
    stops: no descriptor scanned before carries the flag.  Otherwise it stops
    at [head] and releases no frame. *)
Theorem tx_completed_scan queue :
  let descs := dl_buf (tx_desc_list queue) in
  let n := length descs in
  let t := dl_tail (tx_desc_list queue) in
  let h := dl_head (tx_desc_list queue) in
  (t < n)%nat → (h < n)%nat →
  ∃ k queue' tr,
    tx_completed queue = Some (queue', tr) ∧
    (∀ j, (j < k)%nat → ring_slot n t j ≠ h) ∧
    (∀ j, (S j < k)%nat →
       flag_set (w1 (descs !!! ring_slot n t j)) GMAC_TXW1_LASTBUFFER
       = false) ∧
    tx_desc_list queue' = mk_desc_list descs h (ring_slot n t k) ∧
    tx_desc_sem queue' = Nat.iter k k_sem_give (tx_desc_sem queue) ∧
    (((0 < k)%nat ∧
      flag_set (w1 (descs !!! ring_slot n t (k - 1))) GMAC_TXW1_LASTBUFFER
      = true ∧
      tr = tx_scan_events n t k
           ++ [EvPktUnref (ring_buf_get (tx_frames queue)).1] ∧
      tx_frames queue' = (ring_buf_get (tx_frames queue)).2) ∨
     (ring_slot n t k = h ∧
      (∀ j, (j < k)%nat →
         flag_set (w1 (descs !!! ring_slot n t j)) GMAC_TXW1_LASTBUFFER
         = false) ∧
      tr = tx_scan_events n t k ∧
      tx_frames queue' = tx_frames queue)).
Proof.
  intros descs n t h Ht Hh. subst descs n t h.
  pose proof (ring_distance_lt (length (dl_buf (tx_desc_list queue)))
                (dl_tail (tx_desc_list queue))
                (dl_head (tx_desc_list queue)) ltac:(lia)) as Hd.
  destruct (tx_completed_loop_spec _ (S (dl_len (tx_desc_list queue)))
              queue Ht Hh eq_refl)
    as (k & queue' & tr & Hloop & Hk & Hnl & Hdl & Hsem & _ & _ & Hcase).
  { unfold dl_len. lia. }
  exists k, queue', tr. split; [done|]. split.
  { intros j Hj Heq.
    rewrite <- (ring_slot_distance _ _ _ Ht Hh) in Heq at 1.
    apply ring_slot_inj in Heq; lia. }
  split; [done|]. split; [done|]. split; [done|].
  destruct Hcase as [Ha|(-> & Hno & Htr & Hfr)]; [by left|right].
  split; [by apply ring_slot_distance|]. done.
Qed.

(** ** TX error recovery *)

Lemma tx_error_flush_spec d fuel (rb : ring_buf Z) :
  let n := rb_len rb in
  (rb_tail rb < n)%nat → (rb_head rb < n)%nat →
  ring_distance n (rb_tail rb) (rb_head rb) = d → (d < fuel)%nat →
  tx_error_flush fuel rb
  = Some (mk_ring (rb_buf rb) (rb_head rb) (rb_head rb), tx_in_flight rb).
Proof.
  intros n. subst n. revert fuel rb.
  induction d as [|d IH]; intros fuel rb Ht Hh Hd Hfuel;
    (destruct fuel as [|fuel]; [lia|]); simpl.
  - assert (rb_tail rb = rb_head rb) as Heq.
    { rewrite <- (ring_slot_distance _ _ _ Ht Hh), Hd.
      by rewrite ring_slot_0. }
    rewrite Heq, Nat.eqb_refl. unfold tx_in_flight.
    rewrite Heq, ring_distance_0 by lia.
    destruct rb. simpl in *. by subst.
  - assert (rb_tail rb ≠ rb_head rb) as Hne.
    { intros Heq. rewrite Heq, ring_distance_0 in Hd by done. done. }
    apply Nat.eqb_neq in Hne as Hneb. rewrite Hneb.
    rewrite (ring_distance_S _ _ _ Ht Hh Hne) in Hd.
    unfold rb_len in *. rewrite IH; simpl.
    2:{ apply MODULO_INC_lt. lia. }
    2:{ done. }
    2:{ lia. }
    2:{ lia. }
    do 2 f_equal. unfold tx_in_flight. simpl. unfold rb_len in *. simpl.
    rewrite (ring_distance_S _ _ _ Ht Hh Hne). simpl.
    rewrite ring_slot_0 by done. f_equal.
    rewrite <- fmap_S_seq, <- list_fmap_compose.
    apply list_fmap_ext. intros _ j _. simpl. by rewrite ring_slot_S.
Qed.

Lemma tx_descriptors_init_descs queue :
  dl_buf (tx_desc_list (tx_descriptors_init queue))
  = tx_reset_descs (dl_len (tx_desc_list queue)).
Proof.
  unfold tx_descriptors_init, tx_reset_descs, dl_len. simpl.
  set (descs := dl_buf (tx_desc_list queue)).
  destruct (tx_descriptors_init_loop (length descs) descs)
    as (Hl & Hlt & _).
  apply list_eq. intros i. rewrite list_lookup_fmap.
  destruct (decide (i < length descs)%nat) as [Hi|Hi].
  - rewrite lookup_seq_lt by done. simpl.
    destruct (lookup_lt_is_Some_2 descs i Hi) as [d0 Hd0].
    pose proof (Hlt i Hi) as Hdi. rewrite Hd0 in Hdi. simpl in Hdi.
    destruct (decide (length descs - 1 = i)%nat) as [He|Hne].
    + rewrite He, list_lookup_alter_eq, Hdi. simpl.
      rewrite decide_True by lia. done.
    + rewrite list_lookup_alter_ne, Hdi by done.
      rewrite decide_False by lia. by rewrite Z.lor_0_r.
  - rewrite lookup_seq_ge by lia. simpl. apply lookup_ge_None.
    rewrite length_alter. lia.
Qed.

Lemma tx_reset_descs_length n : length (tx_reset_descs n) = n.
Proof. unfold tx_reset_descs. by rewrite length_fmap, length_seq. Qed.

Lemma k_sem_give_iter m limit :
  Nat.iter m k_sem_give (mk_sem 0 limit) = mk_sem (m `min` limit) limit.
Proof.
  induction m as [|m IH]; [done|]. rewrite Nat.iter_succ, IH.
  unfold k_sem_give. cbn [sem_count sem_limit].
  destruct (Nat.ltb_spec (m `min` limit) limit); f_equal; lia.
Qed.

Lemma tx_sem_reseed m queue :
  for_upto m (λ _ q, set_tx_desc_sem (k_sem_give (tx_desc_sem q)) q) queue
  = set_tx_desc_sem (Nat.iter m k_sem_give (tx_desc_sem queue)) queue.
Proof.
  induction m as [|m IH]; simpl.
  - by destruct queue.
  - rewrite IH. done.
Qed.

Lemma ncr_restart a txen :
  Z.lor (Z.ldiff (Z.lor (Z.ldiff a txen) txen) txen) txen
  = Z.lor (Z.ldiff a txen) txen.
Proof.
  apply Z.bits_inj'. intros i Hi.
  rewrite !Z.lor_spec, !Z.ldiff_spec, !Z.lor_spec, !Z.ldiff_spec.
  destruct (Z.testbit a i), (Z.testbit txen i); done.
Qed.

Lemma tx_descriptors_init_eq queue :
  tx_descriptors_init queue
  = mk_queue (rx_desc_list queue)
      (mk_desc_list (tx_reset_descs (dl_len (tx_desc_list queue))) 0 0)
      (tx_desc_sem queue) (rx_frag_list queue)
      (mk_ring (rb_buf (tx_frames queue)) 0 0)
      (err_rx_frames_dropped queue) (err_rx_flushed_count queue)
      (err_tx_flushed_count queue).
Proof.
  pose proof (tx_descriptors_init_descs queue) as Hdescs.
  unfold tx_descriptors_init in *. simpl in *. by rewrite Hdescs.
Qed.

(** One run of [tx_error_handler] on a well-formed ring of in-flight
    frames. *)
Lemma tx_error_handler_spec gmac queue :
  (rb_tail (tx_frames queue) < rb_len (tx_frames queue))%nat →
  (rb_head (tx_frames queue) < rb_len (tx_frames queue))%nat →
  tx_error_handler gmac queue
  = Some (mk_gmac (Z.lor (Z.ldiff (GMAC_NCR gmac) GMAC_NCR_TXEN)
                         GMAC_NCR_TXEN),
          tx_flushed_queue queue (u32 (err_tx_flushed_count queue + 1)),
          tx_in_flight (tx_frames queue)).
Proof.
  intros Ht Hh.
  assert (tx_error_flush (S (rb_len (tx_frames queue))) (tx_frames queue)
          = Some (mk_ring (rb_buf (tx_frames queue))
                    (rb_head (tx_frames queue)) (rb_head (tx_frames queue)),
                  tx_in_flight (tx_frames queue))) as Hflush.
  { eapply tx_error_flush_spec; [done|done|reflexivity|].
    pose proof (ring_distance_lt (rb_len (tx_frames queue))
                  (rb_tail (tx_frames queue)) (rb_head (tx_frames queue))).
    lia. }
  unfold tx_error_handler, set_err_tx_flushed_count. cbn [tx_frames].
  rewrite Hflush, tx_sem_reseed, tx_descriptors_init_eq.
  unfold tx_flushed_queue, set_tx_desc_sem, set_tx_frames, k_sem_reset.
  cbn -[Nat.iter Nat.min]. unfold dl_len at 1. cbn -[Nat.iter Nat.min].
  rewrite tx_reset_descs_length, k_sem_give_iter. done.
Qed.

Lemma tx_in_flight_empty (buf : list Z) i :
  (i < length buf)%nat → tx_in_flight (mk_ring buf i i) = [].
Proof.
  intros Hi. unfold tx_in_flight, rb_len. simpl.
  by rewrite ring_distance_0.
Qed.

(** C7 (as amended). On a well-formed ring of in-flight frames and with a
    flow controller whose limit allows [len - 1] units, calling
    [tx_error_handler] twice in succession yields the state that one call
    yields, except that the flush counter [err_tx_flushed_count] has been
    incremented by each call: the ring of in-flight frames is empty, the
    flow controller holds exactly [len - 1] units, [head] and [tail] are
    zero, the transmitter is enabled.  The first call releases the frames in
    flight, each once and oldest first; the second call releases nothing. *)
Theorem tx_error_handler_twice gmac queue :
  let n := dl_len (tx_desc_list queue) in
  (rb_tail (tx_frames queue) < rb_len (tx_frames queue))%nat →
  (rb_head (tx_frames queue) < rb_len (tx_frames queue))%nat →
  (n - 1 ≤ sem_limit (tx_desc_sem queue))%nat →
  ∃ gmac1 queue1 released1 released2,
    tx_error_handler gmac queue = Some (gmac1, queue1, released1) ∧
    tx_error_handler gmac1 queue1
    = Some (gmac1,
            set_err_tx_flushed_count (u32 (err_tx_flushed_count queue1 + 1))
              queue1,
            released2) ∧
    err_tx_flushed_count queue1 = u32 (err_tx_flushed_count queue + 1) ∧
    rb_head (tx_frames queue1) = 0%nat ∧
    rb_tail (tx_frames queue1) = 0%nat ∧
    sem_count (tx_desc_sem queue1) = (n - 1)%nat ∧
    dl_head (tx_desc_list queue1) = 0%nat ∧
    dl_tail (tx_desc_list queue1) = 0%nat ∧
    dl_len (tx_desc_list queue1) = n ∧
    released1 = tx_in_flight (tx_frames queue) ∧
    released2 = [] ∧
    (NoDup (tx_in_flight (tx_frames queue)) → NoDup (released1 ++ released2)).
Proof.
  intros n Ht Hh Hlim. subst n.
  rewrite (tx_error_handler_spec gmac queue Ht Hh).
  eexists _, _, _, _. split; [reflexivity|].
  assert (dl_len (tx_desc_list
            (tx_flushed_queue queue (u32 (err_tx_flushed_count queue + 1))))
          = dl_len (tx_desc_list queue)) as Hlen
    by apply tx_reset_descs_length.
  split.
  - rewrite tx_error_handler_spec;
      [|unfold tx_flushed_queue, rb_len in *; simpl; lia..].
    simpl. rewrite ncr_restart. do 3 f_equal.
    unfold tx_flushed_queue at 1. rewrite Hlen. done.
  - rewrite tx_in_flight_empty by (unfold rb_len in *; lia).
    rewrite app_nil_r. rewrite Hlen. simpl.
    repeat split; try done. lia.
Qed.

End Proofs.

(** * The theorems at the example states *)

Lemma sam_e70_ok : gmac_priv_ok sam_e70.
Proof. split; try reflexivity; cbn; lia. Qed.

Lemma ex_queue_run :
  rx_run (hw := sam_e70) (dl_buf (rx_desc_list ex_queue))
         (dl_tail (rx_desc_list ex_queue)) 3.
Proof.
  intros j Hj. destruct j as [|[|[|j]]]; [split; reflexivity..|lia].
Qed.


Lemma ex_pool_aligned :
  Forall (buf_aligned (hw := sam_e70)) (pool_bufs ex_pool).
Proof. repeat constructor. Qed.




Lemma frame_get_three_fragments_witness :
  ∃ frame queue',
    frame_get (hw := sam_e70) ex_pool ex_queue
    = Some (Some frame, mk_pool [0x9100] [ex_buf 0x8000], queue') ∧
    frame_length frame = 168 ∧
    nb_len <$> pkt_frags frame = [64; 64; 40] ∧
    nb_ptr <$> pkt_frags frame = [0x3000; 0x4000; 0x1000] ∧
    dl_tail (rx_desc_list queue') = 1%nat.
Proof.
  destruct (@frame_get_three_fragments sam_e70 sam_e70_ok ex_queue 0x9000
              [0x9100] (ex_buf 0x5000) (ex_buf 0x6000) (ex_buf 0x7000)
              [ex_buf 0x8000])
    as (frame & queue' & Heq & Hlen & Hlens & Hptrs & _ & _ & Htail & _).
  - reflexivity.
  - vm_compute. lia.
  - reflexivity.
  - exact ex_queue_run.
  - reflexivity.
  - intros j Hj. destruct j as [|[|[|j]]]; [reflexivity..|lia].
  - exists frame, queue'.
    split; [exact Heq|]. split; [exact Hlen|]. split; [exact Hlens|].
    split; [exact Hptrs|exact Htail].
Defined.

Lemma frame_get_incomplete_untouched_witness :
  frame_get (hw := sam_e70) ex_pool ex_queue_incomplete
  = Some (None, ex_pool, ex_queue_incomplete).
Proof.
  apply (@frame_get_incomplete_untouched sam_e70 ex_pool ex_queue_incomplete
           2).
  - vm_compute. lia.
  - split; [|reflexivity].
    intros j Hj. destruct j as [|[|j]]; [split; reflexivity..|lia].
Defined.

Lemma frame_get_drops_frame_witness :
  ∃ pool' queue',
    frame_get (hw := sam_e70) ex_pool_short ex_queue
    = Some (None, pool', queue') ∧
    err_rx_frames_dropped queue' = 1 ∧
    dl_tail (rx_desc_list queue') = 1%nat.
Proof.
  destruct (@frame_get_drops_frame sam_e70 sam_e70_ok ex_queue 0x9000 []
              [ex_buf 0x5000])
    as (pool' & queue' & Heq & Hdrop & Htail & _).
  - vm_compute. lia.
  - reflexivity.
  - exact ex_queue_run.
  - vm_compute. lia.
  - exists pool', queue'. split; [exact Heq|]. split; [exact Hdrop|].
    exact Htail.
Defined.

Lemma eth_tx_flushed_aborts_witness :
  ∃ dev_c pkt',
    eth_tx (hw := sam_e70) env_tx_error ex_dev ex_pkt
    = (TxErr EIO, dev_c, pkt') ∧
    err_tx_flushed_count (dev_queue dev_c) = 1 ∧
    err_tx_flushed_count (dev_queue ex_dev) = 0 ∧
    dl_head (tx_desc_list (dev_queue dev_c)) = 0%nat ∧
    rb_head (tx_frames (dev_queue dev_c)) = 0%nat.
Proof.
  destruct (@eth_tx_flushed_aborts sam_e70 env_tx_error ex_dev ex_pkt
              (mk_buf 0xC000 0xC01E 50 64) [mk_buf 0xC100 0xC110 20 64]
              1 _ _ eq_refl eq_refl) as [Hfrag _].
  destruct (Hfrag _ _ _ eq_refl eq_refl) as [Heq _].
  - vm_compute. lia.
  - eexists _, _. split; [exact Heq|]. vm_compute. auto.
Defined.

Lemma tx_completed_scan_witness :
  ∃ k queue' tr,
    tx_completed (hw := sam_e70) ex_queue = Some (queue', tr) ∧
    tx_desc_sem queue' = Nat.iter k k_sem_give (tx_desc_sem ex_queue).
Proof.
  destruct (@tx_completed_scan sam_e70 ex_queue)
    as (k & queue' & tr & Heq & _ & _ & _ & Hsem & _).
  - vm_compute. lia.
  - vm_compute. lia.
  - exists k, queue', tr. split; [exact Heq|exact Hsem].
Defined.

Lemma tx_error_handler_twice_witness :
  ∃ gmac1 queue1 released1,
    tx_error_handler (hw := sam_e70) ex_gmac ex_queue
    = Some (gmac1, queue1, released1) ∧
    tx_error_handler (hw := sam_e70) gmac1 queue1
    = Some (gmac1,
            set_err_tx_flushed_count (u32 (err_tx_flushed_count queue1 + 1))
              queue1, []) ∧
    released1 = [0xA000] ∧
    sem_count (tx_desc_sem queue1) = 3%nat.
Proof.
  destruct (@tx_error_handler_twice sam_e70 ex_gmac ex_queue)
    as (gmac1 & queue1 & released1 & released2 & H1 & H2 & _ & _ & _ & Hsem &
        _ & _ & _ & Hr1 & Hr2 & _).
  - vm_compute. lia.
  - vm_compute. lia.
  - vm_compute. lia.
  - exists gmac1, queue1, released1. rewrite Hr2 in H2.
    split; [exact H1|]. split; [exact H2|]. split; [exact Hr1|exact Hsem].
Defined.

Lemma frame_get_fragment_lengths_witness :
  ∃ chain queue',
    frame_get (hw := sam_e70) ex_pool ex_queue
    = Some (Some (mk_pkt 0x9000 chain 0), mk_pool [0x9100] [ex_buf 0x8000],
            queue') ∧
    length chain = 3%nat ∧
    chain !! 2%nat = Some (mk_buf 0x1000 0x1010 40 64).
Proof.
  destruct (@frame_get_fragment_lengths sam_e70 sam_e70_ok ex_queue 3 0x9000
              [0x9100]
              [ex_buf 0x5000; ex_buf 0x6000; ex_buf 0x7000; ex_buf 0x8000])
    as (chain & queue' & Heq & Hlen & Hchain).
  - vm_compute. lia.
  - reflexivity.
  - exact ex_queue_run.
  - lia.
  - vm_compute. lia.
  - exists chain, queue'. split; [exact Heq|]. split; [exact Hlen|].
    apply (Hchain 2%nat). lia.
Defined.

Lemma ring_reset_marks_every_slot_witness :
  (∃ pool' queue',
     rx_descriptors_init (hw := sam_e70) ex_pool ex_queue
     = inr (pool', queue') ∧
     dl_tail (rx_desc_list queue') = 0%nat ∧
     rb_tail (rx_frag_list queue') = 0%nat) ∧
  dl_head (tx_desc_list (tx_descriptors_init (hw := sam_e70) ex_queue))
  = 0%nat ∧
  dl_tail (tx_desc_list (tx_descriptors_init (hw := sam_e70) ex_queue))
  = 0%nat.
Proof.
  destruct (@ring_reset_marks_every_slot sam_e70 sam_e70_ok ex_pool ex_queue)
    as [(pool' & queue' & Heq & Htail & Hftail & _) (Hhead & Httail & _)].
  - vm_compute. lia.
  - split; [|split; [exact Hhead|exact Httail]].
    exists pool', queue'. split; [exact Heq|]. split; [exact Htail|].
    exact Hftail.
Defined.

Lemma eth_tx_restores_data_witness :
  ∃ first rest first',
    pkt_frags ex_pkt = first :: rest ∧
    pkt_frags (eth_tx (hw := sam_e70) env_tx_completed ex_dev ex_pkt).2
    = first' :: rest ∧
    nb_data first' = nb_data first.
Proof.
  destruct (@eth_tx_restores_data sam_e70 env_tx_completed ex_dev ex_pkt
              (eth_tx (hw := sam_e70) env_tx_completed ex_dev ex_pkt).1.2
              (eth_tx (hw := sam_e70) env_tx_completed ex_dev ex_pkt).2)
    as (first & rest & first' & H1 & H2 & H3 & _).
  - vm_compute. reflexivity.
  - exists first, rest, first'. split; [exact H1|]. split; [exact H2|].
    exact H3.
Defined.

(** * Where the code differs from the specification *)

(** C6, as it was claimed: the scan does not stop at a descriptor whose used
    bit is clear.  The controller sets the used bit of the first descriptor
    of a sent frame only; [tx_completed] goes on to slot 1, whose used bit is
    clear, gives a unit back for it and releases the frame there. *)
Lemma tx_completed_scans_unused :
  ∃ queue' tr,
    tx_completed (hw := sam_e70) ex_queue = Some (queue', tr) ∧
    tr = [EvScan 0; EvSemGive; EvScan 1; EvSemGive; EvPktUnref 0xA000] ∧
    flag_set (w1 (dl_buf (tx_desc_list ex_queue) !!! 1%nat))
             (GMAC_TXW1_USED (gmac_priv := sam_e70)) = false.
Proof.
  eexists _, _. split; [vm_compute; reflexivity|]. split; reflexivity.
Qed.

(** C7, as it was claimed: the state after two calls is not the state after
    one; the flush counter tells them apart. *)
Lemma tx_error_handler_twice_differs :
  ∃ gmac1 queue1 released1 gmac2 queue2 released2,
    tx_error_handler (hw := sam_e70) ex_gmac ex_queue
    = Some (gmac1, queue1, released1) ∧
    tx_error_handler (hw := sam_e70) gmac1 queue1
    = Some (gmac2, queue2, released2) ∧
    err_tx_flushed_count queue1 = 1 ∧
    err_tx_flushed_count queue2 = 2 ∧
    queue2 ≠ queue1.
Proof.
  eexists _, _, _, _, _, _.
  split; [vm_compute; reflexivity|]. split; [vm_compute; reflexivity|].
  split; [reflexivity|]. split; [reflexivity|]. discriminate.
Qed.

(** C8, as it was claimed: on the frame of 168 bytes in three 64-byte
    buffers, [frame_get] gives the fragments the lengths 64, 64 and 40; the
    rule of the claim gives 0, 0 and 168. *)
Lemma frame_get_frag_len_differs :
  ∃ frame pool' queue',
    frame_get (hw := sam_e70) ex_pool ex_queue
    = Some (Some frame, pool', queue') ∧
    nb_len <$> pkt_frags frame = [64; 64; 40] ∧
    frag_lens_as_specified (hw := sam_e70)
      ((λ j, w1 (dl_buf (rx_desc_list ex_queue) !!! ring_slot 4 2 j))
         <$> [0; 1; 2]%nat) 0
    = [0; 0; 168] ∧
    frame_get_frag_len (hw := sam_e70) (Z.lor 0x8000 168) 128
    ≠ frag_len_as_specified (hw := sam_e70) (Z.lor 0x8000 168) 128.
Proof.
  eexists _, _, _. split; [vm_compute; reflexivity|].
  split; [reflexivity|]. split; [reflexivity|]. discriminate.
Qed.

(** * Further properties of the driver *)

Section Coverage.
Context {hw : gmac_priv} {soc : gmac_soc}.

(** ** The frame-handle ring: [ring_buf_put], [ring_buf_get] *)

Lemma ring_distance_cases n t h :
  (t < n)%nat → (h < n)%nat →
  ring_distance n t h = if (t <=? h)%nat then (h - t)%nat else (h + n - t)%nat.
Proof.
  intros Ht Hh. unfold ring_distance.
  destruct (Nat.leb_spec t h).
  - symmetry. apply (Nat.mod_unique _ _ 1); lia.
  - apply Nat.mod_small. lia.
Qed.

Lemma ring_distance_head n t h :
  (t < n)%nat → (h < n)%nat → MODULO_INC h n ≠ t →
  ring_distance n t (MODULO_INC h n) = S (ring_distance n t h).
Proof.
  intros Ht Hh Hne.
  assert (MODULO_INC h n < n)%nat as Hm by (apply MODULO_INC_lt; lia).
  rewrite !ring_distance_cases by done.
  revert Hne Hm. unfold MODULO_INC.
  destruct (Nat.ltb_spec (S h) n); intros Hne Hm;
    repeat match goal with
           | |- context [(?a <=? ?b)%nat] => destruct (Nat.leb_spec a b)
           end; lia.
Qed.

Lemma ring_slot_add n t k j :
  (0 < n)%nat → ring_slot n (ring_slot n t k) j = ring_slot n t (k + j).
Proof.
  intros Hn. unfold ring_slot.
  rewrite Nat.Div0.add_mod_idemp_l. f_equal. lia.
Qed.

Lemma ring_distance_slot n t h k :
  (t < n)%nat → (h < n)%nat → (k ≤ ring_distance n t h)%nat →
  ring_distance n (ring_slot n t k) h = (ring_distance n t h - k)%nat.
Proof.
  intros Ht Hh Hk.
  assert (ring_distance n t h < n)%nat as Hd by (apply ring_distance_lt; lia).
  assert (ring_slot n t k < n)%nat as Hs by (apply ring_slot_lt; lia).
  apply (ring_slot_inj n (ring_slot n t k)); try done.
  - apply ring_distance_lt. lia.
  - lia.
  - rewrite ring_slot_distance by done.
    rewrite ring_slot_add by lia.
    replace (k + (ring_distance n t h - k))%nat with (ring_distance n t h)
      by lia.
    by rewrite ring_slot_distance.
Qed.

(** X1.  [ring_buf_put] on a ring that is not full appends the value to
    the handles in flight: the ring is a queue. *)
Theorem ring_buf_put_appends (rb : ring_buf Z) (v : Z) :
  let n := rb_len rb in
  (rb_tail rb < n)%nat → (rb_head rb < n)%nat →
  MODULO_INC (rb_head rb) n ≠ rb_tail rb →
  tx_in_flight (ring_buf_put rb v) = tx_in_flight rb ++ [v].
Proof.
  intros n Ht Hh Hfull. subst n.
  destruct rb as [buf h t]. unfold rb_len in *. simpl in *.
  unfold tx_in_flight, ring_buf_put, rb_len. simpl.
  rewrite length_insert, ring_distance_head by done.
  set (d := ring_distance (length buf) t h).
  assert (d < length buf)%nat as Hd by (apply ring_distance_lt; lia).
  assert (ring_slot (length buf) t d = h) as Hsd
    by (by apply ring_slot_distance).
  rewrite seq_S, fmap_app. simpl. f_equal.
  - apply list_fmap_ext. intros i j Hj.
    apply lookup_seq in Hj as [-> Hj]. simpl.
    rewrite list_lookup_insert_ne; [done|].
    intros Heq. rewrite <- Hsd in Heq.
    apply ring_slot_inj in Heq; lia.
  - rewrite Hsd. rewrite list_lookup_insert_eq by done. done.
Qed.

(** X2.  [ring_buf_get] on a ring that is not empty returns the oldest
    handle in flight and leaves the others, in order. *)
Theorem ring_buf_get_oldest (rb : ring_buf Z) :
  let n := rb_len rb in
  (rb_tail rb < n)%nat → (rb_head rb < n)%nat →
  rb_tail rb ≠ rb_head rb →
  tx_in_flight rb
  = (ring_buf_get rb).1 :: tx_in_flight (ring_buf_get rb).2.
Proof.
  intros n Ht Hh Hne. subst n.
  destruct rb as [buf h t]. unfold rb_len in *. simpl in *.
  unfold tx_in_flight, ring_buf_get, rb_len. simpl.
  rewrite (ring_distance_S _ t h) by done.
  simpl. rewrite ring_slot_0 by done. f_equal.
  rewrite <- fmap_S_seq, <- list_fmap_compose.
  apply list_fmap_ext. intros i j _. simpl.
  by rewrite ring_slot_S.
Qed.

(** X3.  The ring holds at most [len - 1] handles, and [ring_buf_put] on a
    ring that holds that many makes it look empty: with the assertion
    compiled out, every handle in flight is forgotten. *)
Theorem ring_buf_put_overflow (rb : ring_buf Z) (v : Z) :
  let n := rb_len rb in
  (rb_tail rb < n)%nat → (rb_head rb < n)%nat →
  (length (tx_in_flight rb) ≤ n - 1)%nat ∧
  (length (tx_in_flight rb) = (n - 1)%nat →
   MODULO_INC (rb_head rb) n = rb_tail rb ∧
   tx_in_flight (ring_buf_put rb v) = []).
Proof.
  intros n Ht Hh. subst n.
  destruct rb as [buf h t]. unfold rb_len in *. simpl in *.
  unfold tx_in_flight at 1 2. unfold rb_len. simpl.
  rewrite !length_fmap, !length_seq.
  assert (ring_distance (length buf) t h < length buf)%nat as Hd
    by (apply ring_distance_lt; lia).
  split; [lia|]. intros Hfull.
  assert (MODULO_INC h (length buf) = t) as Hm.
  { rewrite ring_distance_cases in Hfull by done.
    unfold MODULO_INC.
    destruct (Nat.leb_spec t h); destruct (Nat.ltb_spec (S h) (length buf));
      lia. }
  split; [done|].
  unfold tx_in_flight, ring_buf_put, rb_len. simpl.
  rewrite Hm, length_insert, ring_distance_0 by done. done.
Qed.

(** ** Cache ranges, MAC address, clock divisor, link set-up *)

Ltac bitwise :=
  apply Z.bits_inj'; intros ?i ?Hi;
  repeat first [rewrite Z.land_spec | rewrite Z.lor_spec
                | rewrite Z.ldiff_spec];
  repeat match goal with
         | |- context [Z.testbit ?a ?i] => destruct (Z.testbit a i)
         end; done.

Lemma land_u32_lnot addr m :
  0 ≤ addr < 2 ^ 32 → Z.land addr (u32 (Z.lnot m)) = Z.ldiff addr m.
Proof.
  intros Ha. unfold u32.
  rewrite <- (Z.land_ones (Z.lnot m) 32) by lia.
  rewrite Z.land_assoc, (Z.land_comm addr), <- Z.land_assoc.
  rewrite (Z.land_ones addr 32) by lia.
  rewrite (Z.mod_small addr) by lia.
  rewrite Z.land_comm. symmetry. apply Z.ldiff_land.
Qed.

(** X4.  With an alignment of [2^k] bytes, the range that the cache helpers
    pass on starts at the aligned address at or below [addr], less than one
    alignment unit away, and ends where the requested range ends. *)
Theorem dcache_range_covers (k : Z) (addr size : Z) :
  GMAC_DCACHE_ALIGNMENT = 2 ^ k → 0 ≤ k ≤ 32 →
  0 ≤ addr → 0 ≤ size → addr + size < 2 ^ 32 →
  let '(start_addr, size_full) := dcache_range addr size in
  start_addr mod GMAC_DCACHE_ALIGNMENT = 0 ∧
  start_addr ≤ addr < start_addr + GMAC_DCACHE_ALIGNMENT ∧
  start_addr + size_full = addr + size ∧
  dcache_invalidate true addr size
  = Some (SCB_InvalidateDCache_by_Addr start_addr size_full) ∧
  dcache_clean true addr size
  = Some (SCB_CleanDCache_by_Addr start_addr size_full) ∧
  dcache_invalidate false addr size = None ∧
  dcache_clean false addr size = None.
Proof.
  intros HA Hk Haddr Hsize Hend.
  unfold dcache_invalidate, dcache_clean, dcache_range. simpl.
  rewrite HA.
  replace (2 ^ k - 1) with (Z.ones k) by (rewrite Z.ones_equiv; lia).
  rewrite land_u32_lnot by lia.
  rewrite Z.ldiff_ones_r by lia.
  rewrite Z.shiftr_div_pow2, Z.shiftl_mul_pow2 by lia.
  assert (0 < 2 ^ k) as Hp by (apply Z.pow_pos_nonneg; lia).
  pose proof (Z.div_mod addr (2 ^ k) ltac:(lia)) as Hdm.
  pose proof (Z.mod_pos_bound addr (2 ^ k) Hp) as Hmb.
  assert (0 ≤ addr / 2 ^ k) as Hq by (apply Z.div_pos; lia).
  split_and!; try done.
  - apply Z.mod_mul. lia.
  - lia.
  - lia.
  - unfold u32. rewrite Z.mod_small; lia.
Qed.

Lemma byte_bit_high m i : 0 ≤ m < 256 → 8 ≤ i → Z.testbit m i = false.
Proof.
  intros Hm Hi. rewrite <- (Z.mod_small m (2 ^ 8)) by lia.
  apply Z.mod_pow2_bits_high. lia.
Qed.

Lemma reg_byte_bits r j i :
  0 ≤ j → 0 ≤ i →
  Z.testbit (reg_byte r j) i = (i <? 8) && Z.testbit r (i + 8 * j).
Proof.
  intros Hj Hi. unfold reg_byte. change 255 with (Z.ones 8).
  rewrite Z.land_spec, Z.shiftr_spec, Z.testbit_ones_nonneg by lia.
  destruct (Z.ltb_spec i 8), (Z.leb_spec 0 i); simpl; try lia;
    by rewrite ?andb_true_r, ?andb_false_r.
Qed.

Lemma u32_bits x i :
  0 ≤ i → Z.testbit (u32 x) i = (i <? 32) && Z.testbit x i.
Proof.
  intros Hi. unfold u32. destruct (Z.ltb_spec i 32); simpl.
  - apply Z.mod_pow2_bits_low. lia.
  - apply Z.mod_pow2_bits_high. lia.
Qed.

Ltac byte_bits :=
  repeat match goal with
         | |- context [Z.testbit ?m ?idx] =>
             first [ rewrite (Z.testbit_neg_r m idx) by lia
                   | rewrite (byte_bit_high m idx) by lia ]
         end.

(** X5.  [mac_addr_set] stores the six bytes of the address so that each
    can be read back from the register pair, and touches no other pair. *)
Theorem mac_addr_set_round_trip (sa : list Gmac_sa) (index : nat)
    (m0 m1 m2 m3 m4 m5 : Z) :
  (index < length sa)%nat →
  Forall (λ m, 0 ≤ m < 256) [m0; m1; m2; m3; m4; m5] →
  ∃ r,
    mac_addr_set sa index [m0; m1; m2; m3; m4; m5] !! index = Some r ∧
    reg_byte (GMAC_SAB r) <$> [0; 1; 2; 3] = [m0; m1; m2; m3] ∧
    reg_byte (GMAC_SAT r) <$> [0; 1] = [m4; m5] ∧
    0 ≤ GMAC_SAT r < 2 ^ 16 ∧
    ∀ i, i ≠ index →
      mac_addr_set sa index [m0; m1; m2; m3; m4; m5] !! i = sa !! i.
Proof.
  intros Hidx Hm.
  repeat match goal with
         | H : Forall _ (_ :: _) |- _ =>
             apply Forall_cons in H as [? H]
         end.
  unfold mac_addr_set. simpl.
  eexists. split; [by apply list_lookup_insert_eq|]. simpl.
  split; [|split; [|split]].
  - repeat f_equal; apply Z.bits_inj'; intros i Hi;
      rewrite reg_byte_bits, u32_bits, !Z.lor_spec, !Z.shiftl_spec by lia;
      (destruct (Z.ltb_spec i 8); simpl;
       [ destruct (Z.ltb_spec (i + 8 * 0) 32),
                  (Z.ltb_spec (i + 8 * 1) 32),
                  (Z.ltb_spec (i + 8 * 2) 32),
                  (Z.ltb_spec (i + 8 * 3) 32); try lia; simpl;
         byte_bits; simpl; rewrite ?orb_false_r; f_equal; lia
       | symmetry; apply byte_bit_high; lia ]).
  - repeat f_equal; apply Z.bits_inj'; intros i Hi;
      rewrite reg_byte_bits, u32_bits, !Z.lor_spec, !Z.shiftl_spec by lia;
      (destruct (Z.ltb_spec i 8); simpl;
       [ destruct (Z.ltb_spec (i + 8 * 0) 32),
                  (Z.ltb_spec (i + 8 * 1) 32); try lia; simpl;
         byte_bits; simpl; rewrite ?orb_false_r; f_equal; lia
       | symmetry; apply byte_bit_high; lia ]).
  - unfold u32.
    assert (Z.lor (Z.shiftl m5 8) m4 = m5 * 2 ^ 8 + m4) as ->.
    { rewrite <- Z.shiftl_mul_pow2 by lia.
      symmetry. apply Z.add_nocarry_lor.
      apply Z.bits_inj'; intros i Hi.
      rewrite Z.land_spec, Z.shiftl_spec, Z.bits_0 by lia.
      destruct (Z.ltb_spec i 8).
      - rewrite (Z.testbit_neg_r m5) by lia. done.
      - rewrite (byte_bit_high m4) by lia. apply andb_false_r. }
    rewrite Z.mod_small by lia. lia.
  - intros i Hi. by apply list_lookup_insert_ne.
Qed.

(** X6.  [get_mck_clock_divisor] fails exactly for a master clock above
    240 MHz; otherwise it selects the smallest of the six divisors that
    brings MDC to 2.5 MHz or less. *)
Theorem get_mck_clock_divisor_least (mck : Z) :
  match get_mck_clock_divisor mck with
  | inl _ => 240000000 < mck
  | inr c =>
      mck ≤ 240000000 ∧
      mck ≤ 2500000 * mck_divisor c ∧
      ∀ c', mck ≤ 2500000 * mck_divisor c' → mck_divisor c ≤ mck_divisor c'
  end.
Proof.
  unfold get_mck_clock_divisor.
  repeat match goal with
         | |- context [?a <=? ?b] => destruct (Z.leb_spec a b)
         end; simpl; try lia;
    (split_and!; [lia | lia | intros []; simpl; lia]).
Qed.

Lemma link_configure_eq ncr ncfgr ur dcfgr rbqb tbqb ier rq tq flags :
  link_configure (mk_regs ncr ncfgr ur dcfgr rbqb tbqb ier rq tq) flags
  = mk_regs
      (Z.lor (Z.ldiff ncr (Z.lor GMAC_NCR_RXEN GMAC_NCR_TXEN))
             (Z.lor GMAC_NCR_RXEN GMAC_NCR_TXEN))
      (Z.lor (Z.ldiff ncfgr (Z.lor GMAC_NCFGR_FD GMAC_NCFGR_SPD))
             (Z.land flags (Z.lor GMAC_NCFGR_FD GMAC_NCFGR_SPD)))
      0 dcfgr rbqb tbqb ier rq tq.
Proof. reflexivity. Qed.

(** X7.  [link_configure] gives the duplex and speed bits of the
    configuration register the values of [flags] and keeps its other bits;
    it leaves receiver and transmitter enabled and the other control bits
    as they were; a second call overrides the first. *)
Theorem link_configure_bits (gmac : Gmac_regs) (flags flags' : Z) :
  let m := Z.lor GMAC_NCFGR_FD GMAC_NCFGR_SPD in
  let en := Z.lor GMAC_NCR_RXEN GMAC_NCR_TXEN in
  let gmac' := link_configure gmac flags in
  Z.land (reg_NCFGR gmac') m = Z.land flags m ∧
  Z.ldiff (reg_NCFGR gmac') m = Z.ldiff (reg_NCFGR gmac) m ∧
  Z.land (reg_NCR gmac') en = en ∧
  Z.ldiff (reg_NCR gmac') en = Z.ldiff (reg_NCR gmac) en ∧
  reg_UR gmac' = 0 ∧
  link_configure (link_configure gmac flags') flags = gmac'.
Proof.
  intros m en gmac'. subst m en gmac'.
  destruct gmac as [ncr ncfgr ur dcfgr rbqb tbqb ier rq tq].
  rewrite !link_configure_eq.
  cbn [reg_NCR reg_NCFGR reg_UR].
  split_and!; try done; try bitwise.
  f_equal; bitwise.
Qed.

(** ** RX error recovery: [rx_error_handler] *)

Lemma rx_error_handler_loop n descs :
  length (for_upto n rx_error_handler_body descs) = length descs ∧
  (∀ i, (i < n)%nat →
     for_upto n rx_error_handler_body descs !! i
     = (λ d, mk_desc (Z.ldiff (w0 d) GMAC_RXW0_OWNERSHIP) 0) <$> descs !! i) ∧
  (∀ i, (n ≤ i)%nat →
     for_upto n rx_error_handler_body descs !! i = descs !! i).
Proof.
  induction n as [|n (IHl & IHlt & IHge)]; simpl.
  - split; [done|]. split; [lia|done].
  - set (r := for_upto n rx_error_handler_body descs) in *.
    unfold rx_error_handler_body.
    rewrite !length_alter. split; [done|]. split.
    + intros i Hi. destruct (decide (i = n)) as [->|Hne].
      * rewrite !list_lookup_alter_eq, IHge by lia.
        by destruct (descs !! n).
      * rewrite !list_lookup_alter_ne by done. apply IHlt. lia.
    + intros i Hi. rewrite !list_lookup_alter_ne by lia. apply IHge. lia.
Qed.

Lemma land_ldiff_disjoint a m n :
  Z.land n m = 0 → Z.land (Z.ldiff a m) n = Z.land a n.
Proof.
  intros H. apply Z.bits_inj'. intros i Hi.
  apply (f_equal (λ x, Z.testbit x i)) in H.
  rewrite Z.land_spec, Z.bits_0 in H.
  rewrite !Z.land_spec, Z.ldiff_spec.
  destruct (Z.testbit a i), (Z.testbit m i), (Z.testbit n i); done.
Qed.

Lemma land_ldiff_same a m : Z.land (Z.ldiff a m) m = 0.
Proof.
  apply Z.bits_inj'. intros i Hi.
  rewrite Z.land_spec, Z.ldiff_spec, Z.bits_0.
  destruct (Z.testbit a i), (Z.testbit m i); done.
Qed.

(** X8.  [rx_error_handler] hands every descriptor back to the controller
    with its status cleared, its address field and wrap flag as they were,
    keeps the posted buffers and moves both tails to slot 0; the receiver
    is enabled and the queue pointer reloaded.  What had been received is
    abandoned: [frame_get] then finds nothing. *)
Theorem rx_error_handler_abandons `{!gmac_priv_ok hw} (rx_desc_addr : Z)
    (gmac : Gmac_regs) (pool : net_pool) (queue : gmac_queue) :
  (0 < dl_len (rx_desc_list queue))%nat →
  ∃ gmac' queue',
    rx_error_handler rx_desc_addr gmac queue = (gmac', queue') ∧
    dl_len (rx_desc_list queue') = dl_len (rx_desc_list queue) ∧
    (∀ i d, dl_buf (rx_desc_list queue) !! i = Some d →
       ∃ d', dl_buf (rx_desc_list queue') !! i = Some d' ∧
         hw_owned d' ∧ w1 d' = 0 ∧
         Z.land (w0 d') GMAC_RXW0_ADDR = Z.land (w0 d) GMAC_RXW0_ADDR ∧
         flag_set (w0 d') GMAC_RXW0_WRAP = flag_set (w0 d) GMAC_RXW0_WRAP) ∧
    dl_tail (rx_desc_list queue') = 0%nat ∧
    rx_frag_list queue'
    = mk_ring (rb_buf (rx_frag_list queue)) (rb_head (rx_frag_list queue))
        0%nat ∧
    err_rx_flushed_count queue' = u32 (err_rx_flushed_count queue + 1) ∧
    err_rx_frames_dropped queue' = err_rx_frames_dropped queue ∧
    tx_desc_list queue' = tx_desc_list queue ∧
    tx_desc_sem queue' = tx_desc_sem queue ∧
    tx_frames queue' = tx_frames queue ∧
    reg_RBQB gmac' = rx_desc_addr ∧
    Z.land (reg_NCR gmac') GMAC_NCR_RXEN = GMAC_NCR_RXEN ∧
    Z.ldiff (reg_NCR gmac') GMAC_NCR_RXEN
    = Z.ldiff (reg_NCR gmac) GMAC_NCR_RXEN ∧
    frame_get pool queue' = Some (None, pool, queue').
Proof.
  intros Hn. unfold rx_error_handler. eexists _, _.
  split; [reflexivity|].
  destruct (rx_error_handler_loop (dl_len (rx_desc_list queue))
              (dl_buf (rx_desc_list queue))) as (Hl & Hlt & _).
  simpl. unfold dl_len in *. simpl.
  assert (∀ i d, dl_buf (rx_desc_list queue) !! i = Some d →
            for_upto (length (dl_buf (rx_desc_list queue)))
              rx_error_handler_body (dl_buf (rx_desc_list queue)) !! i
            = Some (mk_desc (Z.ldiff (w0 d) GMAC_RXW0_OWNERSHIP) 0)) as Hd.
  { intros i d Hi. rewrite Hlt by (by apply lookup_lt_Some in Hi).
    by rewrite Hi. }
  split; [done|]. split.
  { intros i d Hi. eexists. split; [by apply Hd|]. simpl. split_and!.
    - apply flag_set_false, land_ldiff_same.
    - done.
    - apply land_ldiff_disjoint, rx_addr_own.
    - unfold flag_set. by rewrite land_ldiff_disjoint by apply rx_wrap_own. }
  split_and!; try done; try bitwise.
  unfold frame_get, dl_len.
  cbn [rx_desc_list dl_buf dl_tail set_rx_frag_list set_rx_desc_list
       set_err_rx_flushed_count].
  destruct (lookup_lt_is_Some_2 (dl_buf (rx_desc_list queue)) 0 Hn)
    as [d0 Hd0].
  rewrite (frame_get_scan_incomplete _ 0 0).
  - done.
  - by rewrite Hl.
  - split; [intros j Hj; lia|].
    rewrite Hl, ring_slot_0 by done.
    rewrite (list_lookup_total_correct _ _ _ (Hd _ _ Hd0)). simpl.
    apply flag_set_false, land_ldiff_same.
Qed.

(** ** More about [frame_get] *)

Lemma frame_get_body_count `{!gmac_priv_ok hw} st :
  (wk_tail st < length (wk_desc st))%nat →
  length (wk_frag st) = length (wk_desc st) →
  flag_set (w0 (wk_desc st !!! wk_tail st)) GMAC_RXW0_OWNERSHIP = true →
  S (count_owned (wk_desc (frame_get_body st))) = count_owned (wk_desc st).
Proof.
  intros Ht Hlf Hown.
  destruct (frame_get_body_spec st Ht Hlf)
    as (Hl1 & Hl2 & Htl & _ & Hne & f' & Hf' & Hd' & _).
  destruct (lookup_lt_is_Some_2 (wk_desc st) _ Ht) as [d Hdt].
  rewrite (list_lookup_total_correct _ _ _ Hdt) in Hown.
  rewrite <- (count_owned_release (wk_desc st) _ d
                (mk_desc (Z.lor (Z.land (nb_data f') GMAC_RXW0_ADDR)
                   (if decide (S (wk_tail st) = length (wk_desc st))
                    then GMAC_RXW0_WRAP else 0)) 0) Hdt Hown).
  - f_equal. f_equal. apply list_eq. intros i.
    destruct (decide (i = wk_tail st)) as [->|Hi].
    + rewrite Hd', list_lookup_insert_eq; done.
    + rewrite list_lookup_insert_ne by done. apply Hne. done.
  - simpl. apply flag_set_false, rx_w0_hw_owned. case_decide; auto.
Qed.

Lemma frame_get_body_slots `{!gmac_priv_ok hw} descs0 st :
  rx_walk_slots descs0 st →
  flag_set (w0 (wk_desc st !!! wk_tail st)) GMAC_RXW0_OWNERSHIP = true →
  rx_walk_slots descs0 (frame_get_body st) ∧
  (count_owned (wk_desc (frame_get_body st)) < count_owned (wk_desc st))%nat.
Proof.
  intros (Hld & Hlf & Ht & Hc & Hsl) Hown.
  rewrite <- Hld in Ht, Hlf.
  pose proof (frame_get_body_count st Ht Hlf Hown) as Hcount.
  destruct (frame_get_body_spec st Ht Hlf)
    as (Hl1 & Hl2 & Htl & _ & Hne & f' & Hf' & Hd' & _).
  split; [|lia].
  unfold rx_walk_slots. rewrite <- Hld.
  split; [done|]. split; [done|]. split.
  { rewrite Htl. apply MODULO_INC_lt. lia. }
  split; [lia|].
  intros i d Hd. destruct (decide (i = wk_tail st)) as [->|Hi].
  - right. rewrite Hd' in Hd. injection Hd as <-. by eexists.
  - rewrite (proj1 (Hne i Hi)) in Hd. rewrite Hld. by apply Hsl.
Qed.

Lemma frame_get_walk_slots `{!gmac_priv_ok hw} descs0 fuel st st' :
  rx_walk_slots descs0 st →
  frame_get_walk fuel st = Some st' →
  rx_walk_slots descs0 st' ∧
  (count_owned (wk_desc st') ≤ count_owned (wk_desc st))%nat ∧
  (flag_set (w0 (wk_desc st !!! wk_tail st)) GMAC_RXW0_OWNERSHIP = true →
   wk_complete st = false →
   (count_owned (wk_desc st') < count_owned (wk_desc st))%nat).
Proof.
  revert st. induction fuel as [|fuel IH]; intros st Hinv Hw; [done|].
  simpl in Hw. unfold gmac_desc_get_w0 in Hw.
  destruct (_ && _) eqn:Hcond.
  - apply andb_true_iff in Hcond as [Hown Hnc].
    destruct (frame_get_body_slots descs0 st Hinv Hown) as [Hinv' Hlt].
    destruct (IH _ Hinv' Hw) as (Hinv'' & Hle & _).
    split; [done|]. split; lia.
  - injection Hw as <-. split; [done|]. split; [lia|].
    intros Hown Hnc. rewrite Hown, Hnc in Hcond. done.
Qed.

Lemma count_owned_stopper descs :
  (count_owned descs < length descs)%nat → rx_stopper descs.
Proof.
  induction descs as [|d l IH]; simpl; [lia|].
  destruct (flag_set (w0 d) GMAC_RXW0_OWNERSHIP) eqn:Hd; intros Hc.
  - destruct IH as (i & d' & Hi & Hs); [lia|].
    exists (S i), d'. by split.
  - exists 0%nat, d. split; [done|]. by left.
Qed.

Lemma frame_get_scan_true_owned fuel descs t :
  frame_get_scan fuel descs t false = Some true →
  flag_set (w0 (descs !!! t)) GMAC_RXW0_OWNERSHIP = true.
Proof.
  destruct fuel as [|fuel]; [done|]. simpl. unfold gmac_desc_get_w0.
  destruct (flag_set (w0 (descs !!! t)) GMAC_RXW0_OWNERSHIP); [done|].
  simpl. done.
Qed.

(** What every call of [frame_get] on a well-formed ring does. *)
Lemma frame_get_returns `{!gmac_priv_ok hw} pool queue :
  let descs := dl_buf (rx_desc_list queue) in
  rx_ring_wf queue → rx_stopper descs →
  ∃ r pool' queue',
    frame_get pool queue = Some (r, pool', queue') ∧
    rx_ring_wf queue' ∧
    dl_len (rx_desc_list queue') = dl_len (rx_desc_list queue) ∧
    (count_owned (dl_buf (rx_desc_list queue')) ≤ count_owned descs)%nat ∧
    (r ≠ None →
     (count_owned (dl_buf (rx_desc_list queue')) < count_owned descs)%nat) ∧
    rx_stopper (dl_buf (rx_desc_list queue')) ∧
    (∀ i d, dl_buf (rx_desc_list queue') !! i = Some d →
       descs !! i = Some d ∨ rx_written (length descs) i d) ∧
    dl_head (rx_desc_list queue') = dl_head (rx_desc_list queue) ∧
    rb_head (rx_frag_list queue') = rb_head (rx_frag_list queue) ∧
    rb_tail (rx_frag_list queue') = rb_tail (rx_frag_list queue) ∧
    tx_desc_list queue' = tx_desc_list queue ∧
    tx_desc_sem queue' = tx_desc_sem queue ∧
    tx_frames queue' = tx_frames queue ∧
    err_rx_flushed_count queue' = err_rx_flushed_count queue ∧
    err_tx_flushed_count queue' = err_tx_flushed_count queue.
Proof.
  intros descs [Hlen Htail] (i & d & Hd & Hstop). subst descs.
  unfold dl_len, rb_len in *.
  set (n := length (dl_buf (rx_desc_list queue))) in *.
  assert (i < n)%nat as Hi by (apply lookup_lt_Some in Hd; done).
  destruct (ring_slot_reach n _ i Htail Hi) as (j & Hj & Hji).
  destruct (frame_get_scan_ends (dl_buf (rx_desc_list queue)) j (S n)
              (dl_tail (rx_desc_list queue)) false) as [c Hscan];
    [done|lia|
     by fold n; rewrite Hji, (list_lookup_total_correct _ _ _ Hd)|].
  unfold frame_get, dl_len. fold n. rewrite Hscan. destruct c.
  - apply frame_get_scan_true_owned in Hscan.
    destruct (net_pkt_get_reserve_rx pool) as [rx_frame pool1].
    set (st0 := mk_walk _ _ _ _ _ _ _ _ _).
    assert (rx_walk_slots (dl_buf (rx_desc_list queue)) st0) as Hinv0.
    { repeat split; simpl; try done. intros ???. by left. }
    destruct (frame_get_walk_ends (S n) st0) as [st' Hwalk];
      [done|done|
       simpl; pose proof (count_owned_le (dl_buf (rx_desc_list queue)));
       fold n in H; lia|].
    rewrite Hwalk.
    destruct (frame_get_walk_slots _ _ _ _ Hinv0 Hwalk)
      as ((Hl1 & Hl2 & Ht' & _ & Hsl) & Hle & Hlt).
    specialize (Hlt Hscan eq_refl). simpl in Hle, Hlt.
    eexists _, _, _. split; [reflexivity|]. simpl.
    unfold rx_ring_wf, dl_len, rb_len. simpl.
    assert (rx_stopper (wk_desc st')) as Hst.
    { apply count_owned_stopper.
      pose proof (count_owned_le (dl_buf (rx_desc_list queue))). lia. }
    split_and!; try assumption; try reflexivity; try lia;
      by rewrite ?Hl1, ?Hl2.
  - eexists _, _, _. split; [reflexivity|].
    split_and!; try done.
    + by exists i, d.
    + intros ???. by left.
Qed.

(** X9.  Every call of [frame_get] on a ring that does not consist of
    software-owned descriptors without end-of-frame alone returns, keeps
    the shape of the ring (lengths, [tail] inside, the wrap flag on the
    last descriptor and on no other), hands back to the controller with a
    cleared status every descriptor it changes, and leaves the TX side and
    the flush counters alone. *)
Theorem frame_get_keeps_ring `{!gmac_priv_ok hw} pool queue :
  let descs := dl_buf (rx_desc_list queue) in
  rx_ring_wf queue → rx_stopper descs → rx_wrap_inv descs →
  ∃ r pool' queue',
    frame_get pool queue = Some (r, pool', queue') ∧
    rx_ring_wf queue' ∧
    dl_len (rx_desc_list queue') = dl_len (rx_desc_list queue) ∧
    rx_wrap_inv (dl_buf (rx_desc_list queue')) ∧
    rx_stopper (dl_buf (rx_desc_list queue')) ∧
    (∀ i d, dl_buf (rx_desc_list queue') !! i = Some d →
       descs !! i ≠ Some d → hw_owned d ∧ w1 d = 0) ∧
    tx_desc_list queue' = tx_desc_list queue ∧
    tx_desc_sem queue' = tx_desc_sem queue ∧
    tx_frames queue' = tx_frames queue ∧
    err_rx_flushed_count queue' = err_rx_flushed_count queue ∧
    err_tx_flushed_count queue' = err_tx_flushed_count queue.
Proof.
  intros descs Hwf Hstop Hwrap. subst descs.
  destruct (frame_get_returns pool queue Hwf Hstop)
    as (r & pool' & queue' & Heq & Hwf' & Hlen & _ & _ & Hstop' & Hsl & _ & _
        & _ & Htx1 & Htx2 & Htx3 & Hc1 & Hc2).
  exists r, pool', queue'. split; [done|].
  unfold dl_len in Hlen.
  split_and!; try done.
  - intros i d Hd. rewrite Hlen.
    destruct (Hsl i d Hd) as [Hold|[a ->]].
    + by apply Hwrap.
    + by eapply rx_reset_slot.
  - intros i d Hd Hne.
    destruct (Hsl i d Hd) as [Hold|[a ->]]; [done|].
    split; [apply rx_w0_written_hw_owned|done].
Qed.

Lemma ptrs_insert_perm (l : list net_buf) t x y :
  l !! t = Some x →
  nb_ptr <$> <[t := y]> l ≡ₚ nb_ptr y :: (nb_ptr <$> delete t l).
Proof.
  intros Ht. rewrite insert_take_drop by (by apply lookup_lt_Some in Ht).
  rewrite delete_take_drop, !fmap_app, fmap_cons.
  by rewrite Permutation_middle.
Qed.

Lemma ptrs_delete_perm (l : list net_buf) t x :
  l !! t = Some x →
  nb_ptr <$> l ≡ₚ nb_ptr x :: (nb_ptr <$> delete t l).
Proof.
  intros Ht. rewrite (delete_Permutation l t x Ht) at 1. done.
Qed.

Lemma frame_get_body_conserves st :
  (wk_tail st < length (wk_frag st))%nat →
  rx_buf_ptrs (wk_pool (frame_get_body st)) (wk_frag (frame_get_body st))
    (wk_rx_frame (frame_get_body st))
  ≡ₚ rx_buf_ptrs (wk_pool st) (wk_frag st) (wk_rx_frame st) ∧
  rx_pkt_ptrs (wk_pool (frame_get_body st)) (wk_rx_frame (frame_get_body st))
  ≡ₚ rx_pkt_ptrs (wk_pool st) (wk_rx_frame st).
Proof.
  intros Ht. unfold rx_buf_ptrs, rx_pkt_ptrs.
  destruct (wk_rx_frame st) as [f|] eqn:Hf.
  - destruct (pool_bufs (wk_pool st)) as [|b bs] eqn:Hb.
    + destruct (frame_get_body_dropped st f Hf Hb) as (-> & -> & _ & ->).
      simpl. rewrite Hb, !app_nil_r. split.
      * rewrite <- Permutation_rev, !fmap_app.
        apply Permutation_app_comm.
      * rewrite <- Permutation_middle. by rewrite app_nil_r.
    + destruct (frame_get_body_linked st f b bs Hf Hb) as (-> & -> & _ & ->).
      simpl. split; [|done].
      destruct (lookup_lt_is_Some_2 (wk_frag st) _ Ht) as [x Hx].
      rewrite (list_lookup_total_correct _ _ _ Hx).
      rewrite !fmap_app, !fmap_cons. simpl.
      rewrite (ptrs_insert_perm _ _ x _ Hx), (ptrs_delete_perm _ _ x Hx).
      simpl.
      by rewrite <- !Permutation_middle, !app_nil_r.
  - destruct (frame_get_body_no_frame st Hf) as (-> & -> & _ & ->). done.
Qed.

Lemma frame_get_walk_conserves `{!gmac_priv_ok hw} descs0 fuel st st' :
  rx_walk_slots descs0 st →
  frame_get_walk fuel st = Some st' →
  rx_buf_ptrs (wk_pool st') (wk_frag st') (wk_rx_frame st')
  ≡ₚ rx_buf_ptrs (wk_pool st) (wk_frag st) (wk_rx_frame st) ∧
  rx_pkt_ptrs (wk_pool st') (wk_rx_frame st')
  ≡ₚ rx_pkt_ptrs (wk_pool st) (wk_rx_frame st).
Proof.
  revert st. induction fuel as [|fuel IH]; intros st Hinv Hw; [done|].
  simpl in Hw. unfold gmac_desc_get_w0 in Hw.
  destruct (_ && _) eqn:Hcond.
  - apply andb_true_iff in Hcond as [Hown Hnc].
    destruct (frame_get_body_slots descs0 st Hinv Hown) as [Hinv' _].
    destruct (IH _ Hinv' Hw) as [Hb Hp].
    destruct Hinv as (_ & Hlf & Ht & _).
    destruct (frame_get_body_conserves st) as [Hb1 Hp1]; [lia|].
    split; etrans; done.
  - by injection Hw as <-.
Qed.

Lemma frame_get_conserves `{!gmac_priv_ok hw} pool queue r pool' queue' :
  rx_ring_wf queue →
  frame_get pool queue = Some (r, pool', queue') →
  rx_buf_ptrs pool' (rb_buf (rx_frag_list queue')) r
  ≡ₚ rx_buf_ptrs pool (rb_buf (rx_frag_list queue)) None ∧
  rx_pkt_ptrs pool' r ≡ₚ rx_pkt_ptrs pool None.
Proof.
  intros [Hlen Htail]. unfold frame_get.
  destruct (frame_get_scan _ _ _ _) as [[|]|]; [|by intros [= <- <- <-]|done].
  destruct (net_pkt_get_reserve_rx pool) as [rx_frame pool1] eqn:Hrx.
  destruct (frame_get_walk _ _) as [st'|] eqn:Hwalk; [|done].
  intros [= <- <- <-]. simpl.
  eapply (frame_get_walk_conserves (dl_buf (rx_desc_list queue))) in Hwalk
    as [Hb Hp].
  - simpl in Hb, Hp. rewrite Hb, Hp. clear Hb Hp.
    unfold net_pkt_get_reserve_rx in Hrx. unfold rx_buf_ptrs, rx_pkt_ptrs.
    destruct (pool_pkts pool) as [|p ps] eqn:Hpk.
    + injection Hrx as <- <-. simpl. by rewrite Hpk.
    + injection Hrx as <- <-. simpl. split; [done|].
      by rewrite <- Permutation_middle, !app_nil_r.
  - repeat split; simpl; try done. intros ???. by left.
Qed.

Lemma rx_wrap_inv_slots `{!gmac_priv_ok hw} descs descs' :
  rx_wrap_inv descs → length descs' = length descs →
  (∀ i d, descs' !! i = Some d →
     descs !! i = Some d ∨ rx_written (length descs) i d) →
  rx_wrap_inv descs'.
Proof.
  intros Hwrap Hlen Hsl i d Hd. rewrite Hlen.
  destruct (Hsl i d Hd) as [Hold|[a ->]].
  - by apply Hwrap.
  - by eapply rx_reset_slot.
Qed.

(** X10.  [frame_get] neither loses nor duplicates a data buffer or a
    frame container: those of the pool and the tracking ring before the
    call are those of the pool, the tracking ring and the returned frame
    after it. *)
Theorem frame_get_conserves_buffers `{!gmac_priv_ok hw} pool queue :
  rx_ring_wf queue → rx_stopper (dl_buf (rx_desc_list queue)) →
  ∃ r pool' queue',
    frame_get pool queue = Some (r, pool', queue') ∧
    rx_buf_ptrs pool' (rb_buf (rx_frag_list queue')) r
    ≡ₚ rx_buf_ptrs pool (rb_buf (rx_frag_list queue)) None ∧
    rx_pkt_ptrs pool' r ≡ₚ rx_pkt_ptrs pool None.
Proof.
  intros Hwf Hstop.
  destruct (frame_get_returns pool queue Hwf Hstop)
    as (r & pool' & queue' & Heq & _).
  exists r, pool', queue'. split; [done|].
  by apply frame_get_conserves.
Qed.

Lemma frame_get_walk_n_no_frame st m :
  wk_rx_frame st = None →
  wk_rx_frame (frame_get_walk_n m st) = None ∧
  wk_pool (frame_get_walk_n m st) = wk_pool st ∧
  wk_dropped (frame_get_walk_n m st) = wk_dropped st ∧
  wk_frag (frame_get_walk_n m st) = wk_frag st.
Proof.
  intros Hf. unfold frame_get_walk_n.
  induction m as [|m (IH1 & IH2 & IH3 & IH4)]; [done|].
  rewrite Nat.iter_succ.
  destruct (frame_get_body_no_frame _ IH1) as (-> & -> & -> & ->). done.
Qed.

(** X11.  When the pool has no frame container, [frame_get] still consumes
    the complete frame at [tail]: it returns nothing, hands the
    descriptors back to the controller with the buffers that were posted,
    takes nothing from the pool, and counts no dropped frame. *)
Theorem frame_get_no_container `{!gmac_priv_ok hw} queue bs k :
  let descs := dl_buf (rx_desc_list queue) in
  let frags := rb_buf (rx_frag_list queue) in
  let n := length descs in
  let t := dl_tail (rx_desc_list queue) in
  (t < n)%nat → rb_len (rx_frag_list queue) = n →
  rx_run descs t k → (0 < k)%nat →
  ∃ queue',
    frame_get (mk_pool [] bs) queue = Some (None, mk_pool [] bs, queue') ∧
    err_rx_frames_dropped queue' = err_rx_frames_dropped queue ∧
    rx_frag_list queue' = rx_frag_list queue ∧
    dl_tail (rx_desc_list queue') = ring_slot n t k ∧
    ∀ j, (j < k)%nat →
      ∃ d, dl_buf (rx_desc_list queue') !! ring_slot n t j = Some d ∧
        hw_owned d ∧ w1 d = 0 ∧
        Z.land (w0 d) GMAC_RXW0_ADDR
        = Z.land (nb_data (frags !!! ring_slot n t j)) GMAC_RXW0_ADDR.
Proof.
  intros descs frags n t Ht Hlen Hrun Hk.
  pose proof (rx_run_le _ _ _ Ht Hrun) as Hkn.
  rewrite (frame_get_complete_run (mk_pool [] bs) queue k None
             (mk_pool [] bs) Ht Hlen Hrun Hk eq_refl).
  fold descs t.
  set (st0 := mk_walk descs _ t false 0 None None _ _).
  destruct (frame_get_walk_n_no_frame st0 k eq_refl)
    as (Hf & Hp & Hdr & Hfr).
  destruct (frame_get_walk_n_spec st0 k Ht Hlen Hkn)
    as (_ & _ & Htl & _ & Hsl & _).
  rewrite Hf, Hp, Hdr, Hfr, Htl.
  eexists. split; [reflexivity|].
  cbn [err_rx_frames_dropped set_err_rx_frames_dropped rx_frag_list
       set_rx_frag_list rx_desc_list set_rx_desc_list dl_tail dl_buf
       wk_dropped wk_frag wk_tail wk_desc st0].
  split; [done|]. split; [by destruct (rx_frag_list queue)|].
  split; [done|].
  intros j Hj. destruct (Hsl j Hj) as (f' & Hf' & Hd').
  eexists. split; [exact Hd'|]. cbn [w0 w1].
  split; [apply rx_w0_written_hw_owned|]. split; [done|].
  rewrite rx_w0_addr_field. f_equal. f_equal.
  rewrite Hfr in Hf'. simpl in Hf'.
  symmetry. by apply list_lookup_total_correct.
Qed.

(** ** The RX completion loop: [eth_rx] *)

Lemma rx_buf_ptrs_frame pool frags f :
  rx_buf_ptrs pool frags (Some f)
  ≡ₚ rx_buf_ptrs pool frags None ++ (nb_ptr <$> pkt_frags f).
Proof.
  unfold rx_buf_ptrs. simpl. by rewrite app_nil_r, !fmap_app, !app_assoc.
Qed.

Lemma rx_buf_ptrs_unref pool frags f :
  rx_buf_ptrs (net_pkt_unref f pool) frags None
  ≡ₚ rx_buf_ptrs pool frags (Some f).
Proof.
  unfold rx_buf_ptrs, net_pkt_unref. simpl.
  rewrite <- Permutation_rev, app_nil_r, !fmap_app.
  rewrite (Permutation_app_comm (nb_ptr <$> pkt_frags f)), <- app_assoc.
  apply Permutation_app_head, Permutation_app_comm.
Qed.

Lemma rx_taken_bufs_cons x l :
  rx_taken_bufs (x :: l) = rx_taken_bufs [x] ++ rx_taken_bufs l.
Proof.
  unfold rx_taken_bufs. destruct x as [f []]; simpl; [|done].
  by rewrite app_nil_r, fmap_app.
Qed.

Lemma eth_rx_hand_over (taken : bool) rx_frame pool frags :
  rx_buf_ptrs (if taken then pool else net_pkt_unref rx_frame pool) frags
    None ++ rx_taken_bufs [(rx_frame, taken)]
  ≡ₚ rx_buf_ptrs pool frags (Some rx_frame) ∧
  pool_pkts (if taken then pool else net_pkt_unref rx_frame pool)
  ++ (pkt_ptr <$> rx_taken [(rx_frame, taken)])
  ≡ₚ rx_pkt_ptrs pool (Some rx_frame).
Proof.
  unfold rx_taken_bufs, rx_pkt_ptrs. destruct taken; simpl.
  - by rewrite app_nil_r, rx_buf_ptrs_frame.
  - rewrite !app_nil_r, rx_buf_ptrs_unref. split; [done|].
    by rewrite <- Permutation_middle, app_nil_r.
Qed.

Lemma eth_rx_loop_returns `{!gmac_priv_ok hw} net_recv_data fuel rx_frame
    pool queue :
  let descs := dl_buf (rx_desc_list queue) in
  rx_ring_wf queue → rx_stopper descs → rx_wrap_inv descs →
  (count_owned descs < fuel)%nat →
  ∃ frames pool' queue',
    eth_rx_loop fuel net_recv_data rx_frame pool queue
    = Some (frames, pool', queue') ∧
    rx_ring_wf queue' ∧
    rx_stopper (dl_buf (rx_desc_list queue')) ∧
    rx_wrap_inv (dl_buf (rx_desc_list queue')) ∧
    dl_len (rx_desc_list queue') = dl_len (rx_desc_list queue) ∧
    (length frames + count_owned (dl_buf (rx_desc_list queue'))
     ≤ S (count_owned descs))%nat ∧
    rx_buf_ptrs pool' (rb_buf (rx_frag_list queue')) None
      ++ rx_taken_bufs frames
    ≡ₚ rx_buf_ptrs pool (rb_buf (rx_frag_list queue)) (Some rx_frame) ∧
    pool_pkts pool' ++ (pkt_ptr <$> rx_taken frames)
    ≡ₚ rx_pkt_ptrs pool (Some rx_frame) ∧
    tx_desc_list queue' = tx_desc_list queue ∧
    tx_desc_sem queue' = tx_desc_sem queue ∧
    tx_frames queue' = tx_frames queue ∧
    err_rx_flushed_count queue' = err_rx_flushed_count queue ∧
    err_tx_flushed_count queue' = err_tx_flushed_count queue.
Proof.
  intros descs. subst descs. revert rx_frame pool queue.
  induction fuel as [|fuel IH]; intros rx_frame pool queue Hwf Hstop Hwrap Hc;
    [lia|].
  simpl.
  set (taken := net_recv_data rx_frame).
  set (pool1 := if taken then pool else net_pkt_unref rx_frame pool).
  destruct (frame_get_returns pool1 queue Hwf Hstop)
    as (r & pool2 & queue2 & Heq & Hwf2 & Hlen2 & Hle & Hlt & Hstop2 & Hsl
        & _ & _ & _ & Htx1 & Htx2 & Htx3 & Hc1 & Hc2).
  destruct (frame_get_conserves _ _ _ _ _ Hwf Heq) as [Hb Hp].
  destruct (eth_rx_hand_over taken rx_frame pool
              (rb_buf (rx_frag_list queue))) as [Hb0 Hp0].
  fold pool1 in Hb0, Hp0.
  assert (rx_wrap_inv (dl_buf (rx_desc_list queue2))) as Hwrap2.
  { by eapply rx_wrap_inv_slots. }
  rewrite Heq. destruct r as [f'|].
  - destruct (IH f' pool2 queue2 Hwf2 Hstop2 Hwrap2)
      as (frames & pool3 & queue3 & -> & Hwf3 & Hstop3 & Hwrap3 & Hlen3
          & Hcnt & Hb3 & Hp3 & Ht1 & Ht2 & Ht3 & Hd1 & Hd2).
    { specialize (Hlt ltac:(done)). lia. }
    eexists _, _, _. split; [reflexivity|].
    specialize (Hlt ltac:(done)).
    split_and!; try assumption; try congruence.
    + simpl. lia.
    + rewrite rx_taken_bufs_cons, <- Hb0, <- Hb.
      by rewrite (Permutation_app_comm (rx_taken_bufs [_])), app_assoc, Hb3.
    + rewrite <- Hp0.
      assert (pool_pkts pool1 ≡ₚ pool_pkts pool2 ++ [pkt_ptr f']) as ->.
      { unfold rx_pkt_ptrs in Hp. simpl in Hp. by rewrite app_nil_r in Hp. }
      unfold rx_pkt_ptrs in Hp3. simpl in Hp3. rewrite <- Hp3.
      destruct taken; simpl.
      * etrans; [|apply Permutation_app_comm]. simpl.
        symmetry. apply Permutation_middle.
      * by rewrite app_nil_r.
  - eexists _, _, _. split; [reflexivity|].
    split_and!; try assumption; try congruence.
    + simpl. lia.
    + rewrite <- Hb0. unfold rx_buf_ptrs in Hb |- *. simpl in Hb |- *.
      by rewrite Hb.
    + rewrite <- Hp0. unfold rx_pkt_ptrs in Hp. simpl in Hp.
      rewrite !app_nil_r in Hp. by rewrite Hp.
Qed.

(** X12.  [eth_rx] returns; it keeps the shape of the RX ring, leaves the
    TX side alone, hands no more frames to the stack than descriptors go
    back to the controller, and loses no buffer: the data buffers and frame
    containers of the pool and the tracking ring before the call are those
    of the pool and the ring afterwards and those of the frames that the
    stack took; a frame refused by the stack is back in the pool. *)
Theorem eth_rx_returns `{!gmac_priv_ok hw} net_recv_data pool queue :
  let descs := dl_buf (rx_desc_list queue) in
  rx_ring_wf queue → rx_stopper descs → rx_wrap_inv descs →
  ∃ frames pool' queue',
    eth_rx net_recv_data pool queue = Some (frames, pool', queue') ∧
    rx_ring_wf queue' ∧
    rx_stopper (dl_buf (rx_desc_list queue')) ∧
    rx_wrap_inv (dl_buf (rx_desc_list queue')) ∧
    dl_len (rx_desc_list queue') = dl_len (rx_desc_list queue) ∧
    (length frames + count_owned (dl_buf (rx_desc_list queue'))
     ≤ count_owned descs)%nat ∧
    rx_buf_ptrs pool' (rb_buf (rx_frag_list queue')) None
      ++ rx_taken_bufs frames
    ≡ₚ rx_buf_ptrs pool (rb_buf (rx_frag_list queue)) None ∧
    pool_pkts pool' ++ (pkt_ptr <$> rx_taken frames) ≡ₚ pool_pkts pool ∧
    tx_desc_list queue' = tx_desc_list queue ∧
    tx_desc_sem queue' = tx_desc_sem queue ∧
    tx_frames queue' = tx_frames queue ∧
    err_rx_flushed_count queue' = err_rx_flushed_count queue ∧
    err_tx_flushed_count queue' = err_tx_flushed_count queue.
Proof.
  intros descs Hwf Hstop Hwrap. subst descs.
  destruct (frame_get_returns pool queue Hwf Hstop)
    as (r & pool1 & queue1 & Heq & Hwf1 & Hlen1 & Hle & Hlt & Hstop1 & Hsl
        & _ & _ & _ & Htx1 & Htx2 & Htx3 & Hc1 & Hc2).
  destruct (frame_get_conserves _ _ _ _ _ Hwf Heq) as [Hb Hp].
  assert (rx_wrap_inv (dl_buf (rx_desc_list queue1))) as Hwrap1.
  { by eapply rx_wrap_inv_slots. }
  unfold eth_rx. rewrite Heq. destruct r as [f|].
  - specialize (Hlt ltac:(done)).
    pose proof (count_owned_le (dl_buf (rx_desc_list queue))) as Hcl.
    destruct (eth_rx_loop_returns net_recv_data
                (S (dl_len (rx_desc_list queue))) f pool1 queue1
                Hwf1 Hstop1 Hwrap1)
      as (frames & pool2 & queue2 & -> & Hwf2 & Hstop2 & Hwrap2 & Hlen2
          & Hcnt & Hb2 & Hp2 & Ht1 & Ht2 & Ht3 & Hd1 & Hd2).
    { unfold dl_len. lia. }
    eexists _, _, _. split; [reflexivity|].
    split_and!; try assumption; try congruence.
    + lia.
    + by rewrite Hb2, Hb.
    + rewrite Hp2, Hp. unfold rx_pkt_ptrs. simpl. by rewrite app_nil_r.
  - eexists _, _, _. split; [reflexivity|].
    split_and!; try assumption; try congruence.
    + unfold rx_taken_bufs. simpl. by rewrite app_nil_r.
    + simpl. rewrite app_nil_r. unfold rx_pkt_ptrs in Hp. simpl in Hp.
      by rewrite !app_nil_r in Hp.
Qed.

(** ** Queue set-up: [queue_init], [priority_queue_init_as_idle] *)

Lemma rx_descriptors_init_slots `{!gmac_priv_ok hw} pkts bs queue :
  let n := dl_len (rx_desc_list queue) in
  rb_len (rx_frag_list queue) = n → (n ≤ length bs)%nat →
  ∃ descs frags,
    rx_descriptors_init (mk_pool pkts bs) queue
    = inr (mk_pool pkts (drop n bs),
           set_rx_frag_list
             (mk_ring frags (rb_head (rx_frag_list queue)) 0%nat)
             (set_rx_desc_list
                (mk_desc_list descs (dl_head (rx_desc_list queue)) 0%nat)
                queue)) ∧
    length descs = n ∧ length frags = n ∧
    ∀ i, (i < n)%nat →
      descs !! i
      = Some (mk_desc (Z.lor (Z.land (nb_data (bs !!! i)) GMAC_RXW0_ADDR)
                         (if decide (S i = n) then GMAC_RXW0_WRAP else 0))
                0) ∧
      frags !! i = Some (fresh (bs !!! i)).
Proof.
  intros n Hlen Hpool. subst n. unfold dl_len, rb_len in *.
  destruct (rx_descriptors_init_loop _ pkts bs
              (dl_buf (rx_desc_list queue)) (rb_buf (rx_frag_list queue))
              Hpool) as (descs & frags & Heq & Hld & Hlf & Hlt & _).
  unfold rx_descriptors_init, dl_len. rewrite Heq.
  eexists _, _. split; [reflexivity|].
  rewrite length_alter. split; [done|]. split; [lia|].
  intros i Hi. destruct (Hlt i Hi) as [Hdi Hfi].
  destruct (lookup_lt_is_Some_2 (dl_buf (rx_desc_list queue)) i)
    as [d0 Hd0]; [lia|].
  destruct (lookup_lt_is_Some_2 (rb_buf (rx_frag_list queue)) i)
    as [f0 Hf0]; [lia|].
  rewrite Hd0 in Hdi. rewrite Hf0 in Hfi. simpl in *.
  split; [|done].
  destruct (decide (S i = length (dl_buf (rx_desc_list queue)))) as [He|Hne].
  - replace (length (dl_buf (rx_desc_list queue)) - 1)%nat with i by lia.
    by rewrite list_lookup_alter_eq, Hdi.
  - rewrite list_lookup_alter_ne, Hdi by lia. by rewrite Z.lor_0_r.
Qed.

(** X13.  With enough aligned buffers in the pool, [queue_init] succeeds
    and leaves a queue at rest: every RX descriptor belongs to the
    controller and points at the buffer recorded for its slot, the wrap
    flag is on the last descriptor only, the flow controller holds
    [len - 1] units for an empty TX ring, the counters are zero and the
    queue pointers are loaded.  On that queue [frame_get] finds nothing and
    [tx_completed] does nothing. *)
Theorem queue_init_at_rest `{!gmac_priv_ok hw} (rx_desc_addr tx_desc_addr : Z)
    (gmac : Gmac_regs) pkts bs (queue : gmac_queue) :
  let n := dl_len (rx_desc_list queue) in
  let pool' := mk_pool pkts (drop n bs) in
  (0 < n)%nat → (0 < dl_len (tx_desc_list queue))%nat →
  rb_len (rx_frag_list queue) = n → (n ≤ length bs)%nat →
  Forall buf_aligned bs →
  ∃ gmac' queue',
    queue_init rx_desc_addr tx_desc_addr gmac (mk_pool pkts bs) queue
    = inr (gmac', pool', queue') ∧
    rx_ring_wf queue' ∧
    dl_len (rx_desc_list queue') = n ∧
    rx_wrap_inv (dl_buf (rx_desc_list queue')) ∧
    (∀ i, (i < n)%nat →
       ∃ d, dl_buf (rx_desc_list queue') !! i = Some d ∧
         rb_buf (rx_frag_list queue') !! i = Some (fresh (bs !!! i)) ∧
         slot_addr_ok d (fresh (bs !!! i)) ∧ hw_owned d ∧ w1 d = 0) ∧
    tx_flow_inv queue' ∧
    dl_len (tx_desc_list queue') = dl_len (tx_desc_list queue) ∧
    sem_count (tx_desc_sem queue') = (dl_len (tx_desc_list queue) - 1)%nat ∧
    tx_in_flight (tx_frames queue') = [] ∧
    err_rx_frames_dropped queue' = 0 ∧
    err_rx_flushed_count queue' = 0 ∧
    err_tx_flushed_count queue' = 0 ∧
    reg_RBQB gmac' = rx_desc_addr ∧ reg_TBQB gmac' = tx_desc_addr ∧
    reg_IER gmac' = GMAC_INT_EN_FLAGS ∧
    reg_NCR gmac' = reg_NCR gmac ∧ reg_NCFGR gmac' = reg_NCFGR gmac ∧
    frame_get pool' queue' = Some (None, pool', queue') ∧
    tx_completed queue' = Some (queue', []).
Proof.
  intros n pool' Hn Hntx Hlen Hpool Hal. subst pool'.
  destruct (rx_descriptors_init_slots pkts bs queue Hlen Hpool)
    as (descs & frags & Heq & Hld & Hlf & Hsl).
  fold n in Heq, Hld, Hlf, Hsl.
  unfold queue_init. rewrite Heq. clear Heq.
  rewrite tx_descriptors_init_eq.
  destruct queue as [rxl txl sem rfl txf c1 c2 c3].
  cbn [rx_desc_list tx_desc_list tx_desc_sem rx_frag_list tx_frames
       err_rx_frames_dropped err_rx_flushed_count err_tx_flushed_count
       set_rx_frag_list set_rx_desc_list set_tx_desc_sem] in *.
  unfold dl_len at 2 3. cbn [dl_buf]. rewrite tx_reset_descs_length.
  eexists _, _. split; [reflexivity|].
  cbn [rx_desc_list tx_desc_list tx_desc_sem rx_frag_list tx_frames
       err_rx_frames_dropped err_rx_flushed_count err_tx_flushed_count].
  unfold rx_ring_wf, tx_flow_inv, tx_flow_held, dl_len, rb_len.
  cbn [rx_desc_list tx_desc_list tx_desc_sem rx_frag_list tx_frames
       dl_buf dl_head dl_tail rb_buf k_sem_init sem_count sem_limit].
  rewrite tx_reset_descs_length. unfold dl_len in Hntx.
  assert (∀ i, (i < n)%nat →
            ∃ d, descs !! i = Some d ∧
              frags !! i = Some (fresh (bs !!! i)) ∧
              slot_addr_ok d (fresh (bs !!! i)) ∧ hw_owned d ∧ w1 d = 0 ∧
              (flag_set (w0 d) GMAC_RXW0_WRAP = true ↔ S i = n)) as Hall.
  { intros i Hi. destruct (Hsl i Hi) as [Hd Hf].
    eexists. split; [exact Hd|]. split; [done|].
    destruct (rx_reset_slot n i (nb_data (bs !!! i)) _ _ eq_refl eq_refl)
      as (Hown & Hw1 & Hwrap).
    split_and!; try done.
    unfold slot_addr_ok. cbn [w0].
    apply (rx_w0_addr (fresh (bs !!! i))).
    - apply buf_aligned_fresh.
      destruct (lookup_lt_is_Some_2 bs i) as [b Hb]; [lia|].
      rewrite (list_lookup_total_correct _ _ _ Hb).
      exact (Forall_lookup_1 _ _ _ _ Hal Hb).
    - case_decide; auto. }
  split_and!; try done; try lia.
  - intros i d Hd. rewrite Hld.
    destruct (Hall i) as (d' & Hd' & _ & _ & _ & _ & Hwrap).
    { apply lookup_lt_Some in Hd. lia. }
    rewrite Hd' in Hd. by injection Hd as <-.
  - intros i Hi. destruct (Hall i Hi) as (d & ? & ? & ? & ? & ? & _).
    by exists d.
  - rewrite ring_distance_0 by done. lia.
  - unfold tx_in_flight, rb_len, ring_distance. cbn [rb_buf rb_head rb_tail].
    by rewrite Nat.add_0_l, Nat.sub_0_r, Nat.Div0.mod_same.
  - unfold frame_get, dl_len. cbn [rx_desc_list dl_buf dl_tail].
    rewrite (frame_get_scan_incomplete _ 0 0); [done|lia|].
    split; [intros j Hj; lia|].
    rewrite Hld, ring_slot_0 by done.
    destruct (Hall 0%nat Hn) as (d & Hd & _ & _ & Hown & _).
    by rewrite (list_lookup_total_correct _ _ _ Hd).
Qed.

(** X14.  [queue_init] fails exactly when the pool holds fewer data
    buffers than the RX ring has descriptors; it then passes on what
    [rx_descriptors_init] returned, [-ENOBUFS], and has written no
    register. *)
Theorem queue_init_ENOBUFS (rx_desc_addr tx_desc_addr : Z)
    (gmac : Gmac_regs) pool (queue : gmac_queue) :
  ((length (pool_bufs pool) < dl_len (rx_desc_list queue))%nat
   ↔ ∃ r, queue_init rx_desc_addr tx_desc_addr gmac pool queue = inl r) ∧
  ∀ r, queue_init rx_desc_addr tx_desc_addr gmac pool queue = inl r →
    rx_descriptors_init pool queue = inl r ∧ r.1.1.1 = ENOBUFS.
Proof.
  destruct pool as [pkts bs]. unfold queue_init, rx_descriptors_init.
  cbn [pool_bufs].
  destruct (Nat.lt_ge_cases (length bs) (dl_len (rx_desc_list queue)))
    as [Hlt|Hge].
  - destruct (rx_descriptors_init_ENOBUFS_loop _ pkts bs
                (dl_buf (rx_desc_list queue)) (rb_buf (rx_frag_list queue))
                Hlt) as (descs & frags & -> & _).
    split; [split; [by eexists|done]|]. by intros r [= <-].
  - destruct (rx_descriptors_init_loop _ pkts bs
                (dl_buf (rx_desc_list queue)) (rb_buf (rx_frag_list queue))
                Hge) as (descs & frags & -> & _).
    split; [split; [lia|by intros [r ?]]|done].
Qed.


(** X16.  [priority_queue_init_as_idle] leaves the single TX descriptor as
    [tx_descriptors_init] would (used, wrap) and the single RX descriptor
    with the wrap flag and nothing else, so that [frame_get] finds nothing
    on the queue; it loads the queue pointers of that queue and no other,
    and leaves the ring positions and the flow controller alone. *)
Theorem priority_queue_idle `{!gmac_priv_ok hw} (que_idx : nat)
    (rx_desc_addr tx_desc_addr : Z) (gmac : Gmac_regs) pool
    (queue : gmac_queue) :
  dl_len (rx_desc_list queue) = 1%nat → dl_len (tx_desc_list queue) = 1%nat →
  dl_tail (rx_desc_list queue) = 0%nat →
  ∃ gmac' queue',
    priority_queue_init_as_idle que_idx rx_desc_addr tx_desc_addr gmac queue
    = (gmac', queue') ∧
    dl_buf (tx_desc_list queue') = tx_reset_descs 1 ∧
    dl_buf (rx_desc_list queue') = [mk_desc GMAC_RXW0_WRAP 0] ∧
    frame_get pool queue' = Some (None, pool, queue') ∧
    (∀ i, i ≠ (que_idx - 1)%nat →
       reg_RBQBAPQ gmac' !! i = reg_RBQBAPQ gmac !! i ∧
       reg_TBQBAPQ gmac' !! i = reg_TBQBAPQ gmac !! i) ∧
    ((que_idx - 1 < length (reg_RBQBAPQ gmac))%nat →
     reg_RBQBAPQ gmac' !! (que_idx - 1)%nat = Some rx_desc_addr) ∧
    ((que_idx - 1 < length (reg_TBQBAPQ gmac))%nat →
     reg_TBQBAPQ gmac' !! (que_idx - 1)%nat = Some tx_desc_addr) ∧
    reg_RBQB gmac' = reg_RBQB gmac ∧ reg_TBQB gmac' = reg_TBQB gmac ∧
    dl_head (tx_desc_list queue') = dl_head (tx_desc_list queue) ∧
    dl_tail (tx_desc_list queue') = dl_tail (tx_desc_list queue) ∧
    tx_desc_sem queue' = tx_desc_sem queue ∧
    tx_frames queue' = tx_frames queue ∧
    rx_frag_list queue' = rx_frag_list queue.
Proof.
  intros Hrx Htx Htail.
  destruct queue as [[rxb rxh rxt] [txb txh txt] sem rfl txf c1 c2 c3].
  unfold dl_len in *. simpl in Hrx, Htx, Htail. subst rxt.
  destruct rxb as [|rd [|]]; try done.
  destruct txb as [|td [|]]; try done.
  unfold priority_queue_init_as_idle. simpl.
  eexists _, _. split; [reflexivity|]. simpl.
  split; [reflexivity|]. split; [done|].
  split.
  { unfold frame_get, dl_len. simpl. unfold gmac_desc_get_w0. simpl.
    replace (flag_set GMAC_RXW0_WRAP GMAC_RXW0_OWNERSHIP) with false; [done|].
    symmetry. apply flag_set_false, rx_wrap_own. }
  split_and!; try done.
  - intros i Hi. by rewrite !list_lookup_insert_ne by done.
  - intros Hi. by apply list_lookup_insert_eq.
  - intros Hi. by apply list_lookup_insert_eq.
Qed.

(** ** The interrupt handler: [queue0_isr] *)

Lemma tx_completed_loop_keeps fuel queue queue' tr :
  tx_completed_loop fuel queue = Some (queue', tr) →
  rx_desc_list queue' = rx_desc_list queue ∧
  rx_frag_list queue' = rx_frag_list queue ∧
  err_rx_frames_dropped queue' = err_rx_frames_dropped queue ∧
  err_rx_flushed_count queue' = err_rx_flushed_count queue ∧
  err_tx_flushed_count queue' = err_tx_flushed_count queue.
Proof.
  revert queue queue' tr. induction fuel as [|fuel IH]; intros queue queue' tr;
    [done|].
  simpl. destruct (_ =? _)%nat; [by intros [= <- <-]|].
  destruct (flag_set _ _).
  - by intros [= <- <-].
  - destruct (tx_completed_loop fuel _) as [[q2 tr2]|] eqn:Hloop; [|done].
    intros [= <- <-]. by destruct (IH _ _ _ Hloop) as (-> & -> & -> & -> & ->).
Qed.

Lemma rx_error_handler_scan `{!gmac_priv_ok hw} rx_desc_addr gmac queue :
  (0 < dl_len (rx_desc_list queue))%nat →
  let queue1 := (rx_error_handler rx_desc_addr gmac queue).2 in
  frame_get_scan (S (dl_len (rx_desc_list queue1)))
    (dl_buf (rx_desc_list queue1)) (dl_tail (rx_desc_list queue1)) false
  = Some false.
Proof.
  intros Hn queue1. subst queue1. unfold rx_error_handler, dl_len in *.
  cbn [snd rx_desc_list dl_buf dl_tail set_rx_frag_list set_rx_desc_list
       set_err_rx_flushed_count].
  destruct (rx_error_handler_loop (length (dl_buf (rx_desc_list queue)))
              (dl_buf (rx_desc_list queue))) as (Hl & Hlt & _).
  destruct (lookup_lt_is_Some_2 (dl_buf (rx_desc_list queue)) 0 Hn)
    as [d0 Hd0].
  apply (frame_get_scan_incomplete _ 0 0); [by rewrite Hl|].
  split; [intros j Hj; lia|].
  rewrite Hl, ring_slot_0 by done.
  assert (for_upto (length (dl_buf (rx_desc_list queue)))
            rx_error_handler_body (dl_buf (rx_desc_list queue)) !! 0%nat
          = Some (mk_desc (Z.ldiff (w0 d0) GMAC_RXW0_OWNERSHIP) 0)) as Hd.
  { rewrite Hlt by done. by rewrite Hd0. }
  rewrite (list_lookup_total_correct _ _ _ Hd). simpl.
  apply flag_set_false, land_ldiff_same.
Qed.

Lemma frame_get_nothing pool queue :
  frame_get_scan (S (dl_len (rx_desc_list queue)))
    (dl_buf (rx_desc_list queue)) (dl_tail (rx_desc_list queue)) false
  = Some false →
  frame_get pool queue = Some (None, pool, queue).
Proof. intros H. unfold frame_get. by rewrite H. Qed.

(** X17.  When [queue0_isr] reads an RX error bit, the error handler runs
    and not [eth_rx], whatever the RX completion bit says: no frame is
    handed to the stack, nothing is taken from or returned to the pool, the
    RX rings are as [rx_error_handler] leaves them whatever the TX part of
    the handler then does, and [frame_get] finds nothing afterwards.  The TX
    part likewise prefers the error handler: with a TX error bit set every
    frame in flight is released and the flush counted, and no descriptor is
    scanned. *)
Theorem queue0_isr_rx_error_first `{!gmac_priv_ok hw} isr net_recv_data
    rx_desc_addr gmac pool queue :
  let n := dl_len (tx_desc_list queue) in
  let queue1 := (rx_error_handler rx_desc_addr gmac queue).2 in
  (0 < dl_len (rx_desc_list queue))%nat →
  (dl_tail (tx_desc_list queue) < n)%nat →
  (dl_head (tx_desc_list queue) < n)%nat →
  (rb_tail (tx_frames queue) < rb_len (tx_frames queue))%nat →
  (rb_head (tx_frames queue) < rb_len (tx_frames queue))%nat →
  flag_set isr GMAC_INT_RX_ERR_BITS = true →
  ∃ tr gmac' queue',
    queue0_isr isr net_recv_data rx_desc_addr gmac pool queue
    = Some (tr, gmac', pool, queue') ∧
    isr_rx tr = [] ∧
    rx_desc_list queue' = rx_desc_list queue1 ∧
    rx_frag_list queue' = rx_frag_list queue1 ∧
    err_rx_flushed_count queue' = u32 (err_rx_flushed_count queue + 1) ∧
    frame_get pool queue' = Some (None, pool, queue') ∧
    (flag_set isr GMAC_INT_TX_ERR_BITS = true →
     isr_tx tr = EvPktUnref <$> tx_in_flight (tx_frames queue) ∧
     err_tx_flushed_count queue'
     = u32 (err_tx_flushed_count queue + 1)) ∧
    (flag_set isr GMAC_INT_TX_ERR_BITS = false →
     err_tx_flushed_count queue' = err_tx_flushed_count queue ∧
     (flag_set isr GMAC_ISR_TCOMP = false →
      isr_tx tr = [] ∧ queue' = queue1)).
Proof.
  intros n queue1 Hn Ht Hh Hft Hfh Hrx.
  pose proof (rx_error_handler_scan rx_desc_addr gmac queue Hn) as Hscan.
  fold queue1 in Hscan.
  assert (tx_desc_list queue1 = tx_desc_list queue ∧
          tx_frames queue1 = tx_frames queue ∧
          tx_desc_sem queue1 = tx_desc_sem queue ∧
          err_tx_flushed_count queue1 = err_tx_flushed_count queue ∧
          err_rx_flushed_count queue1 = u32 (err_rx_flushed_count queue + 1))
    as (Htx & Hfr & Hsem & Hc & Hcr) by done.
  unfold queue0_isr. rewrite Hrx.
  destruct (rx_error_handler rx_desc_addr gmac queue) as [gmac1 q1] eqn:Hreh.
  simpl in queue1. subst queue1.
  assert (∀ q, rx_desc_list q = rx_desc_list q1 →
               frame_get pool q = Some (None, pool, q)) as Hget.
  { intros q Hq. apply frame_get_nothing. by rewrite Hq. }
  destruct (flag_set isr GMAC_INT_TX_ERR_BITS) eqn:Htxerr.
  - rewrite tx_error_handler_spec by (by rewrite Hfr).
    eexists _, _, _. split; [reflexivity|]. simpl.
    split_and!; try done.
    + by apply Hget.
    + intros _. by rewrite Hfr, Hc.
  - destruct (flag_set isr GMAC_ISR_TCOMP) eqn:Htcomp.
    + destruct (tx_completed_loop_spec
                  (ring_distance n (dl_tail (tx_desc_list q1))
                     (dl_head (tx_desc_list q1)))
                  (S (dl_len (tx_desc_list q1))) q1)
        as (k & q2 & tr & Heq & _); try (rewrite Htx; done).
      { rewrite Htx. fold (dl_len (tx_desc_list queue)). fold n.
        pose proof (ring_distance_lt n (dl_tail (tx_desc_list queue))
                      (dl_head (tx_desc_list queue))). lia. }
      unfold tx_completed. rewrite Heq.
      destruct (tx_completed_loop_keeps _ _ _ _ Heq)
        as (Hr1 & Hr2 & Hr3 & Hr4 & Hr5).
      eexists _, _, _. split; [reflexivity|]. simpl.
      split_and!; try done; try congruence.
      * by apply Hget.
      * intros _. split; [congruence|done].
    + eexists _, _, _. split; [reflexivity|]. simpl.
      split_and!; try done.
      by apply Hget.
Qed.

(** ** Flow control of the TX ring *)

Lemma k_sem_give_iter_count m c limit :
  (c + m ≤ limit)%nat →
  Nat.iter m k_sem_give (mk_sem c limit) = mk_sem (c + m) limit.
Proof.
  induction m as [|m IH]; intros Hm.
  - by rewrite Nat.add_0_r.
  - rewrite Nat.iter_succ, IH by lia. unfold k_sem_give.
    cbn [sem_count sem_limit].
    destruct (Nat.ltb_spec (c + m) limit); [|lia]. f_equal. lia.
Qed.

Lemma tx_flow_head_free held queue :
  tx_flow_held (S held) queue →
  let n := dl_len (tx_desc_list queue) in
  let h := dl_head (tx_desc_list queue) in
  let t := dl_tail (tx_desc_list queue) in
  MODULO_INC h n ≠ t ∧
  ring_distance n t (MODULO_INC h n) = S (ring_distance n t h).
Proof.
  intros (Hh & Ht & _ & Hsum) n h t. fold n h t in Hh, Ht, Hsum.
  assert (MODULO_INC h n ≠ t) as Hne.
  { intros Heq. rewrite ring_distance_cases in Hsum by done.
    revert Heq Hsum. unfold MODULO_INC.
    destruct (Nat.ltb_spec (S h) n), (Nat.leb_spec t h); lia. }
  split; [done|]. by apply ring_distance_head.
Qed.

(** X18.  [tx_completed] keeps the account of the flow controller: on a
    queue where units left, descriptors between [tail] and [head] and units
    held by senders add up to [len - 1], it returns, gives back exactly one
    unit per descriptor it passes (none is lost at the limit), and the sum
    is the same afterwards; it writes no descriptor and does not move
    [head]. *)
Theorem tx_completed_keeps_flow held queue :
  let n := dl_len (tx_desc_list queue) in
  let t := dl_tail (tx_desc_list queue) in
  let h := dl_head (tx_desc_list queue) in
  tx_flow_held held queue →
  ∃ k queue' tr,
    tx_completed queue = Some (queue', tr) ∧
    tx_flow_held held queue' ∧
    (k ≤ ring_distance n t h)%nat ∧
    sem_count (tx_desc_sem queue')
    = (sem_count (tx_desc_sem queue) + k)%nat ∧
    dl_tail (tx_desc_list queue') = ring_slot n t k ∧
    dl_head (tx_desc_list queue') = h ∧
    dl_buf (tx_desc_list queue') = dl_buf (tx_desc_list queue).
Proof.
  intros n t h (Hh & Ht & Hlim & Hsum). fold n t h in Hh, Ht, Hlim, Hsum.
  pose proof (ring_distance_lt n t h ltac:(lia)) as Hd.
  destruct (tx_completed_loop_spec (ring_distance n t h) (S n) queue)
    as (k & queue' & tr & Heq & Hk & _ & Hlist & Hsem & _); try done; [lia|].
  change (length (dl_buf (tx_desc_list queue))) with n in Hlist.
  fold t h in Hlist.
  exists k, queue', tr. split; [done|].
  destruct (tx_desc_sem queue) as [c limit] eqn:Hs.
  rewrite ?Hs in Hlim, Hsum, Hsem. simpl in Hlim, Hsum.
  assert (c + k ≤ limit)%nat as Hck by (clear -Hlim Hsum Hk; lia).
  rewrite k_sem_give_iter_count in Hsem by exact Hck.
  rewrite Hlist, Hsem. simpl.
  split_and!; try done.
  unfold tx_flow_held, dl_len. rewrite Hlist, Hsem. simpl.
  change (length (dl_buf (tx_desc_list queue))) with n.
  split_and!; try done.
  - apply ring_slot_lt. lia.
  - rewrite ring_distance_slot by done. lia.
Qed.

Lemma k_sem_take_flow held queue sem :
  tx_flow_held held queue →
  k_sem_take (tx_desc_sem queue) = Some sem →
  tx_flow_held (S held) (set_tx_desc_sem sem queue).
Proof.
  intros (Hh & Ht & Hlim & Hsum) Htake.
  unfold k_sem_take in Htake.
  destruct (sem_count (tx_desc_sem queue)) as [|c] eqn:Hc; [done|].
  injection Htake as <-.
  unfold tx_flow_held. simpl. split_and!; try done. lia.
Qed.

Lemma eth_tx_fragment_flow held at_entry frag last queue :
  tx_flow_held (S held) queue →
  err_tx_flushed_count queue = at_entry →
  ∃ queue',
    eth_tx_fragment at_entry frag last queue = (None, queue') ∧
    tx_flow_held held queue' ∧
    dl_head (tx_desc_list queue') ≠ dl_tail (tx_desc_list queue') ∧
    dl_head (tx_desc_list queue')
    = MODULO_INC (dl_head (tx_desc_list queue))
        (dl_len (tx_desc_list queue)) ∧
    dl_tail (tx_desc_list queue') = dl_tail (tx_desc_list queue) ∧
    tx_frames queue' = tx_frames queue ∧
    tx_desc_sem queue' = tx_desc_sem queue ∧
    err_tx_flushed_count queue' = at_entry.
Proof.
  intros Hheld Hcnt.
  destruct (tx_flow_head_free _ _ Hheld) as [Hne Hdist].
  destruct Hheld as (Hh & Ht & Hlim & Hsum).
  simpl in Hne, Hdist.
  unfold eth_tx_fragment.
  rewrite Hcnt, Z.eqb_refl. simpl.
  eexists. split; [reflexivity|]. simpl.
  split_and!; try done.
  unfold tx_flow_held, dl_len in *. simpl. rewrite !length_alter.
  split_and!; try done.
  - apply MODULO_INC_lt. lia.
  - rewrite Hdist. lia.
Qed.

(** X19.  A sender that has taken a unit finds the slot at [head] free:
    the critical section of a fragment, entered with the flush counter
    unchanged, posts the descriptor without [head] running into [tail]
    (the overflow assertion holds), and the account of the flow controller
    is settled again. *)
Theorem eth_tx_fragment_keeps_flow held at_entry frag last queue sem :
  tx_flow_held held queue →
  k_sem_take (tx_desc_sem queue) = Some sem →
  err_tx_flushed_count queue = at_entry →
  tx_flow_held (S held) (set_tx_desc_sem sem queue) ∧
  ∃ queue',
    eth_tx_fragment at_entry frag last (set_tx_desc_sem sem queue)
    = (None, queue') ∧
    tx_flow_held held queue' ∧
    dl_head (tx_desc_list queue') ≠ dl_tail (tx_desc_list queue') ∧
    dl_head (tx_desc_list queue')
    = MODULO_INC (dl_head (tx_desc_list queue))
        (dl_len (tx_desc_list queue)) ∧
    dl_tail (tx_desc_list queue') = dl_tail (tx_desc_list queue) ∧
    tx_frames queue' = tx_frames queue.
Proof.
  intros Hflow Htake Hcnt.
  pose proof (k_sem_take_flow _ _ _ Hflow Htake) as Hheld.
  split; [done|].
  destruct (eth_tx_fragment_flow held at_entry frag last _ Hheld Hcnt)
    as (queue' & Heq & Hf & Hne & Hhd & Htl & Hfr & _).
  exists queue'. by split_and!.
Qed.

Lemma eth_tx_loop_keeps_flow env k at_entry frags dev :
  (∀ k held d,
     tx_flow_held held (dev_queue d) →
     tx_flow_held held (dev_queue (env k d)) ∧
     err_tx_flushed_count (dev_queue (env k d))
     = err_tx_flushed_count (dev_queue d)) →
  tx_flow_inv (dev_queue dev) →
  err_tx_flushed_count (dev_queue dev) = at_entry →
  ∃ r dev',
    eth_tx_loop env k at_entry frags dev = (r, dev') ∧
    tx_flow_inv (dev_queue dev') ∧
    err_tx_flushed_count (dev_queue dev') = at_entry ∧
    (r = None ∨ r = Some TxBlocked).
Proof.
  intros Henv. revert k dev.
  induction frags as [|frag rest IH]; intros k dev Hflow Hcnt.
  - eexists _, _. split; [reflexivity|]. auto.
  - cbn [eth_tx_loop].
    destruct (Henv k 0%nat dev Hflow) as [Hflow1 Hcnt1].
    destruct (k_sem_take _) as [sem|] eqn:Htake.
    + pose proof (k_sem_take_flow _ _ _ Hflow1 Htake) as Hheld.
      destruct (Henv (S k) 1%nat
                  (mk_dev (dev_gmac (env k dev))
                     (set_tx_desc_sem sem (dev_queue (env k dev)))) Hheld)
        as [Hheld2 Hcnt2].
      simpl in Hcnt2.
      destruct (eth_tx_fragment_flow 0 at_entry frag
                  (match rest with [] => true | _ => false end) _ Hheld2)
        as (queue' & -> & Hf & _ & _ & _ & _ & _ & Hc'); [congruence|].
      apply IH; done.
    + eexists _, _. split; [reflexivity|]. split; [done|].
      split; [congruence|auto].
Qed.

(** X20.  Under interference that keeps the account of the flow controller
    and does not flush (such as [tx_completed]), a call of [eth_tx] keeps
    the account too, however it ends, and it does not end with an error:
    it returns 0, or waits for a descriptor. *)
Theorem eth_tx_keeps_flow env dev pkt :
  (∀ k held d,
     tx_flow_held held (dev_queue d) →
     tx_flow_held held (dev_queue (env k d)) ∧
     err_tx_flushed_count (dev_queue (env k d))
     = err_tx_flushed_count (dev_queue d)) →
  tx_flow_inv (dev_queue dev) →
  ∃ r dev' pkt',
    eth_tx env dev pkt = (r, dev', pkt') ∧
    tx_flow_inv (dev_queue dev') ∧
    (∀ e, r ≠ TxErr e) ∧
    (pkt_frags pkt ≠ [] → r = TxOk ∨ r = TxBlocked).
Proof.
  intros Henv Hflow. unfold eth_tx.
  destruct (pkt_frags pkt) as [|first rest] eqn:Hfrags.
  - eexists _, _, _. split; [reflexivity|]. by split_and!.
  - cbn [pkt_frags].
    destruct (eth_tx_loop_keeps_flow env 0
                (err_tx_flushed_count (dev_queue dev))
                (net_buf_push first (pkt_ll_reserve pkt) :: rest) dev
                Henv Hflow eq_refl)
      as (r & dev1 & -> & Hflow1 & Hcnt1 & [->| ->]).
    + destruct (Henv (2 * length (first :: rest))%nat 0%nat dev1 Hflow1)
        as [Hflow2 Hcnt2].
      unfold eth_tx_commit. rewrite Hcnt2, Hcnt1, Z.eqb_refl.
      cbn [negb].
      eexists _, _, _. split; [reflexivity|].
      split_and!; try done; [|auto].
      cbn [dev_queue].
      apply (Henv _ 0%nat). cbn [dev_queue].
      destruct Hflow2 as (Hh & Ht & Hlim & Hsum).
      unfold tx_flow_inv, tx_flow_held, dl_len in *. simpl.
      rewrite length_alter. done.
    + eexists _, _, _. split; [reflexivity|]. split_and!; try done. auto.
Qed.

Lemma u32_succ_ne c : u32 (c + 1) ≠ c.
Proof.
  unfold u32. intros H.
  assert (0 ≤ c < 2 ^ 32) as Hc
    by (rewrite <- H; apply Z.mod_pos_bound; lia).
  destruct (decide (c + 1 < 2 ^ 32)).
  - rewrite Z.mod_small in H by lia. lia.
  - replace (c + 1) with (2 ^ 32) in H by lia.
    rewrite Z.mod_same in H by lia. lia.
Qed.

(** X21.  When [tx_error_handler] runs after [eth_tx] has sampled the flush
    counter and before it takes its first descriptor, [eth_tx] takes a unit
    from the reseeded flow controller and then returns [-EIO] without giving
    it back: the TX ring is empty and the controller holds [len - 2] units,
    one short of the account that [queue_init] and [tx_error_handler]
    establish. *)
Theorem eth_tx_EIO_keeps_unit dev pkt first rest :
  let queue := dev_queue dev in
  let n := dl_len (tx_desc_list queue) in
  pkt_frags pkt = first :: rest →
  (2 ≤ n)%nat →
  sem_limit (tx_desc_sem queue) = (n - 1)%nat →
  (rb_tail (tx_frames queue) < rb_len (tx_frames queue))%nat →
  (rb_head (tx_frames queue) < rb_len (tx_frames queue))%nat →
  ∃ dev',
    eth_tx env_flush_at_entry dev pkt
    = (TxErr EIO, dev',
       mk_pkt (pkt_ptr pkt)
         (net_buf_push first (pkt_ll_reserve pkt) :: rest)
         (pkt_ll_reserve pkt)) ∧
    err_tx_flushed_count (dev_queue dev')
    = u32 (err_tx_flushed_count queue + 1) ∧
    sem_count (tx_desc_sem (dev_queue dev')) = (n - 2)%nat ∧
    dl_head (tx_desc_list (dev_queue dev')) = 0%nat ∧
    dl_tail (tx_desc_list (dev_queue dev')) = 0%nat ∧
    tx_in_flight (tx_frames (dev_queue dev')) = [] ∧
    tx_flow_held 1 (dev_queue dev') ∧
    ¬ tx_flow_inv (dev_queue dev').
Proof.
  intros queue n Hfrags Hn Hlim Hft Hfh.
  destruct dev as [gmac q]. simpl in queue. subst queue.
  assert (env_flush_at_entry 0 (mk_dev gmac q)
          = mk_dev (mk_gmac (Z.lor (Z.ldiff (GMAC_NCR gmac) GMAC_NCR_TXEN)
                                   GMAC_NCR_TXEN))
              (tx_flushed_queue q (u32 (err_tx_flushed_count q + 1))))
    as Henv0.
  { unfold env_flush_at_entry. cbn [Nat.eqb dev_gmac dev_queue].
    by rewrite tx_error_handler_spec. }
  unfold eth_tx. rewrite Hfrags. cbn [pkt_frags eth_tx_loop dev_queue].
  rewrite !Henv0. cbn [dev_queue dev_gmac].
  change (env_flush_at_entry 1 ?d) with d. cbn [dev_queue dev_gmac].
  unfold tx_flushed_queue. cbn [tx_desc_sem]. fold n. rewrite Hlim.
  rewrite Nat.min_id.
  destruct (n - 1)%nat as [|m] eqn:Hm; [lia|].
  cbn [k_sem_take sem_count sem_limit].
  unfold eth_tx_fragment.
  cbn [err_tx_flushed_count set_tx_desc_sem].
  pose proof (u32_succ_ne (err_tx_flushed_count q)) as Hne.
  apply Z.eqb_neq in Hne. rewrite Hne. cbn [negb].
  eexists. split; [reflexivity|].
  unfold set_tx_desc_sem.
  cbn [dev_queue err_tx_flushed_count tx_desc_sem sem_count tx_desc_list
       dl_head dl_tail tx_frames rx_desc_list rx_frag_list
       err_rx_frames_dropped err_rx_flushed_count].
  assert (tx_in_flight (mk_ring (rb_buf (tx_frames q)) 0 0) = []) as Hempty.
  { unfold tx_in_flight, rb_len, ring_distance. cbn [rb_buf rb_head rb_tail].
    by rewrite Nat.add_0_l, Nat.sub_0_r, Nat.Div0.mod_same. }
  split_and!; try done; try lia.
  - unfold tx_flow_held, dl_len.
    cbn [tx_desc_list tx_desc_sem sem_count sem_limit dl_head dl_tail
         dl_buf].
    rewrite tx_reset_descs_length. fold (dl_len (tx_desc_list q)). fold n.
    rewrite ring_distance_0 by lia. split_and!; lia.
  - unfold tx_flow_inv, tx_flow_held, dl_len.
    cbn [tx_desc_list tx_desc_sem sem_count sem_limit dl_head dl_tail
         dl_buf].
    rewrite tx_reset_descs_length. fold (dl_len (tx_desc_list q)). fold n.
    rewrite ring_distance_0 by lia. lia.
Qed.

(** ** From submission to completion *)

Lemma ring_distance_of_slot n t k :
  (t < n)%nat → (k < n)%nat → ring_distance n t (ring_slot n t k) = k.
Proof.
  intros Ht Hk.
  assert (ring_slot n t k < n)%nat as Hs by (apply ring_slot_lt; lia).
  apply (ring_slot_inj n t); try done.
  - apply ring_distance_lt. lia.
  - by apply ring_slot_distance.
Qed.

Lemma tx_w1_last_flag `{!gmac_priv_tx_ok hw} len (last wrap : bool) :
  flag_set
    (Z.lor (Z.lor (Z.land len GMAC_TXW1_LEN)
                  (if last then GMAC_TXW1_LASTBUFFER else 0))
           (if wrap then GMAC_TXW1_WRAP else 0))
    GMAC_TXW1_LASTBUFFER
  = last.
Proof.
  pose proof tx_last_pos as Hpos.
  rewrite <- (negb_involutive last). unfold flag_set. f_equal.
  rewrite land_lor_disjoint.
  2: { destruct wrap; [|apply Z.land_0_l].
       rewrite Z.land_comm. apply tx_last_wrap. }
  rewrite Z.lor_comm, land_lor_disjoint
    by (apply land_land_disjoint, tx_len_last).
  destruct last; simpl.
  - rewrite Z.land_diag. apply Z.eqb_neq. lia.
  - by rewrite ?Z.land_0_l.
Qed.

Lemma set_tx_lists_twice s l s1 l1 (q : gmac_queue) :
  set_tx_desc_sem s
    (set_tx_desc_list l (set_tx_desc_list l1 (set_tx_desc_sem s1 q)))
  = set_tx_desc_sem s (set_tx_desc_list l q).
Proof. by destruct q. Qed.

(** The fragment loop of [eth_tx] without interference and with a unit for
    every fragment: the state it leaves. *)
Lemma eth_tx_loop_quiet_posts `{!gmac_priv_tx_ok hw} k0 frags gmac queue :
  let n := dl_len (tx_desc_list queue) in
  let h := dl_head (tx_desc_list queue) in
  (h < n)%nat →
  (length frags ≤ sem_count (tx_desc_sem queue))%nat →
  (length frags < n)%nat →
  ∃ descs',
    eth_tx_loop (λ _ d, d) k0 (err_tx_flushed_count queue) frags
      (mk_dev gmac queue)
    = (None,
       mk_dev gmac
         (set_tx_desc_sem
            (mk_sem (sem_count (tx_desc_sem queue) - length frags)
                    (sem_limit (tx_desc_sem queue)))
            (set_tx_desc_list
               (mk_desc_list descs' (ring_slot n h (length frags))
                  (dl_tail (tx_desc_list queue))) queue))) ∧
    length descs' = n ∧
    (∀ i, (∀ j, (j < length frags)%nat → i ≠ ring_slot n h j) →
       descs' !! i = dl_buf (tx_desc_list queue) !! i) ∧
    (∀ j, (j < length frags)%nat →
       flag_set (w1 (descs' !!! ring_slot n h j)) GMAC_TXW1_LASTBUFFER
       = bool_decide (S j = length frags)).
Proof.
  intros n h. subst n h. revert k0 queue.
  induction frags as [|frag rest IH]; intros k0 queue Hh Hsem Hlen.
  - exists (dl_buf (tx_desc_list queue)). simpl.
    rewrite Nat.sub_0_r, ring_slot_0 by done.
    split; [|split; [done|split; [done|intros j Hj; lia]]].
    by destruct queue as [? [] [] ? ? ? ? ?].
  - simpl in Hsem, Hlen. cbn [eth_tx_loop dev_queue dev_gmac].
    destruct queue as [rxl [descs hd tl] [c lim] rfl txf c1 c2 c3].
    unfold dl_len in *. cbn [tx_desc_list tx_desc_sem dl_buf dl_head dl_tail
                               sem_count sem_limit err_tx_flushed_count] in *.
    destruct c as [|c]; [lia|].
    cbn [k_sem_take sem_count sem_limit].
    unfold eth_tx_fragment.
    cbn [set_tx_desc_sem err_tx_flushed_count tx_desc_list dl_head dl_tail
         dl_buf rx_desc_list rx_frag_list tx_frames err_rx_frames_dropped
         err_rx_flushed_count tx_desc_sem].
    rewrite Z.eqb_refl. cbn [negb].
    unfold dl_len. cbn [dl_buf].
    set (descs2 := alter _ hd (alter _ hd descs)).
    assert (length descs2 = length descs) as Hl2
      by (unfold descs2; by rewrite !length_alter).
    unfold set_tx_desc_list, set_tx_desc_sem.
    cbn [rx_desc_list tx_desc_sem rx_frag_list tx_frames tx_desc_list
         err_rx_frames_dropped err_rx_flushed_count err_tx_flushed_count].
    destruct (IH (S (S k0))
                (mk_queue rxl
                   (mk_desc_list descs2 (MODULO_INC hd (length descs)) tl)
                   (mk_sem c lim) rfl txf c1 c2 c3))
      as (descs' & Heq & Hl' & Hkeep & Hlast).
    { unfold dl_len. simpl. rewrite Hl2. apply MODULO_INC_lt. lia. }
    { simpl. lia. }
    { unfold dl_len. simpl. lia. }
    unfold dl_len in Heq, Hl', Hkeep, Hlast.
    cbn [tx_desc_list tx_desc_sem dl_buf dl_head dl_tail sem_count sem_limit
         err_tx_flushed_count] in Heq, Hl', Hkeep, Hlast.
    rewrite Hl2 in Heq, Hl', Hkeep, Hlast.
    rewrite Heq. exists descs'.
    split.
    { f_equal. f_equal. unfold set_tx_desc_sem, set_tx_desc_list. simpl.
      rewrite ring_slot_S by done. done. }
    split; [done|].
    assert (∀ j, (j < length rest)%nat →
              ring_slot (length descs) (MODULO_INC hd (length descs)) j
              ≠ hd) as Hfresh.
    { intros j Hj Heq'. rewrite ring_slot_S in Heq' by done.
      rewrite <- (ring_slot_0 (length descs) hd) in Heq' at 2 by done.
      apply ring_slot_inj in Heq'; lia. }
    split.
    + intros i Hi. rewrite Hkeep.
      * unfold descs2. rewrite !list_lookup_alter_ne; [done|..];
          intros <-; apply (Hi 0%nat); [simpl; lia|by rewrite ring_slot_0|
                                         simpl; lia|by rewrite ring_slot_0].
      * intros j Hj. rewrite ring_slot_S by done. apply Hi. simpl. lia.
    + intros [|j] Hj.
      * rewrite ring_slot_0 by done.
        assert (descs' !! hd = descs2 !! hd) as Hhd.
        { apply Hkeep. intros j Hj' Heq'. by apply (Hfresh j Hj'). }
        rewrite (lookup_total_eq _ _ _ Hhd).
        destruct (lookup_lt_is_Some_2 descs hd Hh) as [d Hd].
        assert (descs2 !! hd
                = Some (mk_desc (nb_data frag)
                    (Z.lor (Z.lor (Z.land (u16 (nb_len frag)) GMAC_TXW1_LEN)
                              (if match rest with [] => true | _ => false end
                               then GMAC_TXW1_LASTBUFFER else 0))
                       (if Z.of_nat hd =? Z.of_nat (length descs) - 1
                        then GMAC_TXW1_WRAP else 0)))) as Hd2.
        { unfold descs2. rewrite !list_lookup_alter_eq, Hd. done. }
        rewrite (list_lookup_total_correct _ _ _ Hd2). cbn [w1].
        rewrite tx_w1_last_flag.
        destruct rest as [|r rest']; cbn [length].
        -- by rewrite bool_decide_eq_true_2.
        -- by rewrite bool_decide_eq_false_2 by lia.
      * rewrite <- ring_slot_S by done. rewrite Hlast by (simpl in Hj; lia).
        apply bool_decide_ext. simpl. lia.
Qed.

(** X22.  Round trip of a frame through an idle TX ring.  Without
    interference, [eth_tx] on a ring with nothing in flight and room for the
    frame returns 0 having posted one descriptor per fragment and taken as
    many units; the next [tx_completed] then passes exactly those
    descriptors, gives every unit back, releases the handle of this frame
    and no other, and leaves the ring with nothing in flight and the flow
    controller full again. *)
Theorem eth_tx_then_tx_completed `{!gmac_priv_tx_ok hw} dev pkt first rest :
  let queue := dev_queue dev in
  let n := dl_len (tx_desc_list queue) in
  let h := dl_head (tx_desc_list queue) in
  let k := length (pkt_frags pkt) in
  pkt_frags pkt = first :: rest →
  tx_flow_inv queue →
  dl_tail (tx_desc_list queue) = h →
  rb_tail (tx_frames queue) = rb_head (tx_frames queue) →
  (rb_head (tx_frames queue) < rb_len (tx_frames queue))%nat →
  (k < n)%nat →
  ∃ dev1 pkt1 queue2,
    eth_tx (λ _ d, d) dev pkt = (TxOk, dev1, pkt1) ∧
    dl_head (tx_desc_list (dev_queue dev1)) = ring_slot n h k ∧
    dl_tail (tx_desc_list (dev_queue dev1)) = h ∧
    sem_count (tx_desc_sem (dev_queue dev1)) = (n - 1 - k)%nat ∧
    tx_completed (dev_queue dev1)
    = Some (queue2, tx_scan_events n h k ++ [EvPktUnref (pkt_ptr pkt)]) ∧
    tx_flow_inv queue2 ∧
    sem_count (tx_desc_sem queue2) = (n - 1)%nat ∧
    dl_tail (tx_desc_list queue2) = dl_head (tx_desc_list queue2) ∧
    rb_tail (tx_frames queue2) = rb_head (tx_frames queue2).
Proof.
  intros queue n h k Hfrags (Hh & Ht & Hlim & Hsum) Htl Hft Hfh Hk.
  destruct dev as [gmac q]. simpl in queue. subst queue.
  fold n h in Hh, Ht, Hlim, Hsum.
  rewrite Htl in Hsum. fold h in Hsum.
  rewrite ring_distance_0 in Hsum by done.
  assert (k = S (length rest)) as Hk' by (unfold k; by rewrite Hfrags).
  destruct (eth_tx_loop_quiet_posts 0
              (net_buf_push first (pkt_ll_reserve pkt) :: rest) gmac q)
    as (descs' & Heq & Hl & Hkeep & Hlast); [done|simpl; lia|simpl; lia|].
  fold n h in Heq, Hl, Hkeep, Hlast.
  change (length (net_buf_push first (pkt_ll_reserve pkt) :: rest))
    with (S (length rest)) in Heq, Hkeep, Hlast.
  rewrite <- Hk' in Heq, Hkeep, Hlast.
  unfold eth_tx. rewrite Hfrags. cbn [pkt_frags dev_queue]. rewrite Heq.
  unfold eth_tx_commit.
  destruct q as [rxl [descs hd tl] [c lim] rfl [fbuf fh ft] c1 c2 c3].
  unfold dl_len, rb_len in *.
  cbn [tx_desc_list tx_desc_sem dl_buf dl_head dl_tail sem_count sem_limit
       err_tx_flushed_count tx_frames rb_buf rb_head rb_tail] in *.
  subst tl ft.
  unfold set_tx_desc_sem, set_tx_desc_list, set_tx_frames, ring_buf_put,
    rb_len.
  cbn [dev_queue dev_gmac err_tx_flushed_count tx_desc_list dl_head dl_tail
       dl_buf rx_desc_list rx_frag_list tx_frames tx_desc_sem
       err_rx_frames_dropped err_rx_flushed_count rb_buf rb_head rb_tail].
  rewrite Z.eqb_refl. cbn [negb].
  cbn [dev_queue dev_gmac err_tx_flushed_count tx_desc_list dl_head dl_tail
       dl_buf rx_desc_list rx_frag_list tx_frames tx_desc_sem pkt_ptr
       err_rx_frames_dropped err_rx_flushed_count rb_buf rb_head rb_tail].
  set (hd' := ring_slot n h k).
  set (descs1 := alter (gmac_desc_append_w1 GMAC_TXW1_USED) hd' descs').
  set (frames1 := mk_ring (<[fh := pkt_ptr pkt]> fbuf)
                    (MODULO_INC fh (length fbuf)) fh).
  set (q1 := mk_queue rxl (mk_desc_list descs1 hd' hd)
               (mk_sem (c - k) lim) rfl frames1 c1 c2 c3).
  assert (length descs1 = n) as Hl1 by (unfold descs1; by rewrite length_alter).
  assert (hd' < n)%nat as Hhd' by (apply ring_slot_lt; lia).
  assert (∀ j, (j < k)%nat →
            flag_set (w1 (descs1 !!! ring_slot n h j)) GMAC_TXW1_LASTBUFFER
            = bool_decide (S j = k)) as Hflags.
  { intros j Hj. rewrite <- Hlast by done. f_equal. f_equal.
    apply lookup_total_eq. unfold descs1.
    apply list_lookup_alter_ne. intros Heq'. unfold hd' in Heq'.
    apply ring_slot_inj in Heq'; lia. }
  destruct (tx_completed_loop_spec k (S n) q1)
    as (k1 & queue2 & tr & Hcomp & Hk1 & _ & Hlist & Hsem & _ & _ & Hcases).
  { simpl. by rewrite Hl1. }
  { simpl. by rewrite Hl1. }
  { simpl. rewrite Hl1. by apply ring_distance_of_slot. }
  { lia. }
  cbn [q1 tx_desc_list dl_buf dl_head dl_tail tx_desc_sem tx_frames]
    in Hlist, Hsem, Hcases.
  rewrite Hl1 in Hlist, Hcases. fold h in Hlist, Hcases.
  assert (k1 = k ∧
          tr = tx_scan_events n h k
               ++ [EvPktUnref (ring_buf_get frames1).1] ∧
          tx_frames queue2 = (ring_buf_get frames1).2) as (-> & -> & Hfr).
  { destruct Hcases as [(Hpos & Hflag & Htr & Hfr)|(-> & Hno & _)].
    - rewrite Hflags in Hflag by lia.
      apply bool_decide_eq_true_1 in Hflag.
      assert (k1 = k) as -> by lia. done.
    - specialize (Hno (k - 1)%nat ltac:(lia)).
      rewrite Hflags, bool_decide_eq_true_2 in Hno by lia. done. }
  rewrite k_sem_give_iter_count in Hsem by lia.
  eexists _, _, queue2. split; [reflexivity|].
  cbn [dev_queue tx_desc_list dl_head dl_tail tx_desc_sem sem_count].
  fold descs1 frames1 q1.
  split; [done|]. split; [done|]. split; [lia|].
  split.
  { unfold tx_completed, dl_len. cbn [tx_desc_list dl_buf]. rewrite Hl1.
    etrans; [exact Hcomp|]. f_equal. f_equal. f_equal. f_equal.
    unfold ring_buf_get, frames1. cbn [fst rb_buf rb_tail].
    by rewrite list_lookup_insert_eq. }
  unfold tx_flow_inv, tx_flow_held, dl_len.
  rewrite Hlist, Hsem, Hfr. cbn [dl_buf dl_head dl_tail sem_count sem_limit].
  rewrite Hl1. fold hd'.
  rewrite ring_distance_0 by done.
  split_and!; try done; try lia.
  unfold ring_buf_get, frames1, rb_len. cbn [snd rb_buf rb_head rb_tail].
  by rewrite length_insert.
Qed.

End Coverage.

(** ** The further properties at the example states *)

Lemma ex_queue_wf : rx_ring_wf ex_queue.
Proof. split; [reflexivity|vm_compute; lia]. Qed.

Lemma ex_queue_stopper :
  rx_stopper (hw := sam_e70) (dl_buf (rx_desc_list ex_queue)).
Proof.
  exists 1%nat, (mk_desc 0x2010 0). split; [reflexivity|]. by left.
Qed.

Lemma ex_queue_wrap_inv :
  rx_wrap_inv (hw := sam_e70) (dl_buf (rx_desc_list ex_queue)).
Proof.
  intros i d Hd. destruct i as [|[|[|[|i]]]]; simpl in Hd;
    try (injection Hd as <-; vm_compute; split; intros; (done || lia)).
  done.
Qed.

Lemma ring_buf_put_appends_witness :
  tx_in_flight (ring_buf_put ex_ring 0xA100) = [0xA000; 0xA100].
Proof.
  apply (ring_buf_put_appends ex_ring 0xA100); vm_compute; lia.
Defined.

Lemma ring_buf_get_oldest_witness :
  tx_in_flight ex_ring_full
  = (ring_buf_get ex_ring_full).1 :: tx_in_flight (ring_buf_get ex_ring_full).2.
Proof.
  apply (ring_buf_get_oldest ex_ring_full); vm_compute; lia.
Defined.

Lemma ring_buf_put_overflow_witness :
  tx_in_flight ex_ring_full = [0xA000; 0xA100] ∧
  tx_in_flight (ring_buf_put ex_ring_full 0xA200) = [].
Proof.
  destruct (ring_buf_put_overflow ex_ring_full 0xA200) as [_ Hfull].
  - vm_compute. lia.
  - vm_compute. lia.
  - split; [reflexivity|]. apply Hfull. reflexivity.
Defined.

Lemma dcache_range_covers_witness :
  dcache_invalidate (soc := sam_e70_soc) true 0x20400123 100
  = Some (SCB_InvalidateDCache_by_Addr 0x20400120 103).
Proof.
  pose proof (@dcache_range_covers sam_e70_soc 5 0x20400123 100) as H.
  destruct H as (_ & _ & _ & Hinv & _); [reflexivity|lia..|].
  exact Hinv.
Defined.

Lemma mac_addr_set_round_trip_witness :
  ∃ r,
    mac_addr_set ex_sa 1 [0x00; 0x04; 0x25; 0x1C; 0xA0; 0x02] !! 1%nat
    = Some r ∧
    reg_byte (GMAC_SAB r) <$> [0; 1; 2; 3] = [0x00; 0x04; 0x25; 0x1C] ∧
    reg_byte (GMAC_SAT r) <$> [0; 1] = [0xA0; 0x02].
Proof.
  destruct (mac_addr_set_round_trip ex_sa 1 0x00 0x04 0x25 0x1C 0xA0 0x02)
    as (r & Hr & Hb & Ht & _).
  - vm_compute. lia.
  - repeat constructor; lia.
  - exists r. split; [exact Hr|]. split; [exact Hb|exact Ht].
Defined.

Lemma rx_error_handler_abandons_witness :
  ∃ gmac' queue',
    rx_error_handler (hw := sam_e70) (soc := sam_e70_soc) 0x20401000 ex_regs
      ex_queue = (gmac', queue') ∧
    frame_get (hw := sam_e70) ex_pool queue' = Some (None, ex_pool, queue').
Proof.
  destruct (@rx_error_handler_abandons sam_e70 sam_e70_soc sam_e70_ok
              0x20401000 ex_regs ex_pool ex_queue)
    as (gmac' & queue' & Heq & _ & _ & _ & _ & _ & _ & _ & _ & _ & _ & _ & _
        & Hget).
  - vm_compute. lia.
  - exists gmac', queue'. split; [exact Heq|exact Hget].
Defined.

Lemma frame_get_keeps_ring_witness :
  ∃ r pool' queue',
    frame_get (hw := sam_e70) ex_pool ex_queue = Some (r, pool', queue') ∧
    rx_ring_wf queue' ∧
    rx_wrap_inv (hw := sam_e70) (dl_buf (rx_desc_list queue')).
Proof.
  destruct (@frame_get_keeps_ring sam_e70 sam_e70_ok ex_pool ex_queue
              ex_queue_wf ex_queue_stopper ex_queue_wrap_inv)
    as (r & pool' & queue' & Heq & Hwf & _ & Hwrap & _).
  exists r, pool', queue'. split; [exact Heq|]. split; [exact Hwf|exact Hwrap].
Defined.

Lemma frame_get_conserves_buffers_witness :
  ∃ r pool' queue',
    frame_get (hw := sam_e70) ex_pool ex_queue = Some (r, pool', queue') ∧
    rx_buf_ptrs pool' (rb_buf (rx_frag_list queue')) r
    ≡ₚ [0x5000; 0x6000; 0x7000; 0x8000; 0x1000; 0x2000; 0x3000; 0x4000].
Proof.
  destruct (@frame_get_conserves_buffers sam_e70 sam_e70_ok ex_pool ex_queue
              ex_queue_wf ex_queue_stopper)
    as (r & pool' & queue' & Heq & Hb & _).
  exists r, pool', queue'. split; [exact Heq|exact Hb].
Defined.

Lemma frame_get_no_container_witness :
  ∃ queue',
    frame_get (hw := sam_e70) (mk_pool [] [ex_buf 0x5000]) ex_queue
    = Some (None, mk_pool [] [ex_buf 0x5000], queue') ∧
    err_rx_frames_dropped queue' = 0 ∧
    dl_tail (rx_desc_list queue') = 1%nat.
Proof.
  destruct (@frame_get_no_container sam_e70 sam_e70_ok ex_queue
              [ex_buf 0x5000] 3)
    as (queue' & Heq & Hdr & _ & Htail & _).
  - vm_compute. lia.
  - reflexivity.
  - exact ex_queue_run.
  - lia.
  - exists queue'. split; [exact Heq|]. split; [exact Hdr|exact Htail].
Defined.

Lemma eth_rx_returns_witness :
  ∃ frames pool' queue',
    eth_rx (hw := sam_e70) ex_net_recv_data ex_pool ex_queue
    = Some (frames, pool', queue') ∧
    rx_ring_wf queue' ∧
    pool_pkts pool' ++ (pkt_ptr <$> rx_taken frames) ≡ₚ pool_pkts ex_pool.
Proof.
  destruct (@eth_rx_returns sam_e70 sam_e70_ok ex_net_recv_data ex_pool
              ex_queue ex_queue_wf ex_queue_stopper ex_queue_wrap_inv)
    as (frames & pool' & queue' & Heq & Hwf & _ & _ & _ & _ & _ & Hp & _).
  exists frames, pool', queue'.
  split; [exact Heq|]. split; [exact Hwf|exact Hp].
Defined.

Lemma queue_init_at_rest_witness :
  ∃ gmac' queue',
    queue_init (hw := sam_e70) (soc := sam_e70_soc) 0x20401000 0x20402000
      ex_regs ex_pool ex_queue
    = inr (gmac', mk_pool [0x9000; 0x9100] [], queue') ∧
    tx_flow_inv queue' ∧
    tx_completed (hw := sam_e70) queue' = Some (queue', []).
Proof.
  destruct (@queue_init_at_rest sam_e70 sam_e70_soc sam_e70_ok 0x20401000
              0x20402000 ex_regs [0x9000; 0x9100]
              [ex_buf 0x5000; ex_buf 0x6000; ex_buf 0x7000; ex_buf 0x8000]
              ex_queue)
    as (gmac' & queue' & Heq & _ & _ & _ & _ & Hflow & _ & _ & _ & _ & _ & _
        & _ & _ & _ & _ & _ & _ & Htc).
  - vm_compute. lia.
  - vm_compute. lia.
  - reflexivity.
  - vm_compute. lia.
  - exact ex_pool_aligned.
  - exists gmac', queue'. split; [exact Heq|]. split; [exact Hflow|exact Htc].
Defined.

Lemma priority_queue_idle_witness :
  ∃ gmac' queue',
    priority_queue_init_as_idle (hw := sam_e70) 1 0x20403000 0x20403008
      ex_regs ex_idle_queue = (gmac', queue') ∧
    reg_RBQBAPQ gmac' !! 0%nat = Some 0x20403000 ∧
    frame_get (hw := sam_e70) ex_pool queue' = Some (None, ex_pool, queue').
Proof.
  destruct (@priority_queue_idle sam_e70 sam_e70_ok 1 0x20403000 0x20403008
              ex_regs ex_pool ex_idle_queue)
    as (gmac' & queue' & Heq & _ & _ & Hget & _ & Hrb & _); [reflexivity..|].
  exists gmac', queue'. split; [exact Heq|]. split; [|exact Hget].
  apply Hrb. vm_compute. lia.
Defined.


Lemma ex_queue_tx_flow : tx_flow_inv ex_queue.
Proof. unfold tx_flow_inv, tx_flow_held. vm_compute. lia. Qed.

Lemma queue0_isr_rx_error_first_witness :
  ∃ tr gmac' queue',
    queue0_isr (hw := sam_e70) (soc := sam_e70_soc) 0x486 ex_net_recv_data
      0x20401000 ex_regs ex_pool ex_queue
    = Some (tr, gmac', ex_pool, queue') ∧
    isr_rx tr = [] ∧
    frame_get (hw := sam_e70) ex_pool queue' = Some (None, ex_pool, queue').
Proof.
  destruct (@queue0_isr_rx_error_first sam_e70 sam_e70_soc sam_e70_ok 0x486
              ex_net_recv_data 0x20401000 ex_regs ex_pool ex_queue)
    as (tr & gmac' & queue' & Heq & Hrx & _ & _ & _ & Hget & _);
    [vm_compute; lia..|reflexivity|].
  exists tr, gmac', queue'. split; [exact Heq|]. split; [exact Hrx|exact Hget].
Defined.

Lemma tx_completed_keeps_flow_witness :
  ∃ k queue' tr,
    tx_completed (hw := sam_e70) ex_queue = Some (queue', tr) ∧
    tx_flow_inv queue' ∧
    sem_count (tx_desc_sem queue') = (1 + k)%nat.
Proof.
  destruct (@tx_completed_keeps_flow sam_e70 0 ex_queue ex_queue_tx_flow)
    as (k & queue' & tr & Heq & Hflow & _ & Hsem & _).
  exists k, queue', tr. split; [exact Heq|]. split; [exact Hflow|exact Hsem].
Defined.

Lemma eth_tx_fragment_keeps_flow_witness :
  ∃ queue',
    eth_tx_fragment (hw := sam_e70) 0 (ex_buf 0xC000) true
      (set_tx_desc_sem (mk_sem 0 3) ex_queue) = (None, queue') ∧
    tx_flow_inv queue' ∧
    dl_head (tx_desc_list queue') ≠ dl_tail (tx_desc_list queue').
Proof.
  destruct (@eth_tx_fragment_keeps_flow sam_e70 0 0 (ex_buf 0xC000) true
              ex_queue (mk_sem 0 3) ex_queue_tx_flow eq_refl eq_refl)
    as (_ & queue' & Heq & Hflow & Hne & _).
  exists queue'. split; [exact Heq|]. split; [exact Hflow|exact Hne].
Defined.

Lemma eth_tx_keeps_flow_witness :
  ∃ r dev' pkt',
    eth_tx (hw := sam_e70) (λ _ d, d) ex_dev ex_pkt = (r, dev', pkt') ∧
    tx_flow_inv (dev_queue dev') ∧
    (r = TxOk ∨ r = TxBlocked).
Proof.
  destruct (@eth_tx_keeps_flow sam_e70 (λ _ d, d) ex_dev ex_pkt)
    as (r & dev' & pkt' & Heq & Hflow & _ & Hr).
  - intros k held d H. split; [exact H|reflexivity].
  - exact ex_queue_tx_flow.
  - exists r, dev', pkt'. split; [exact Heq|]. split; [exact Hflow|].
    apply Hr. discriminate.
Defined.

Lemma eth_tx_EIO_keeps_unit_witness :
  ∃ dev' pkt',
    eth_tx (hw := sam_e70) (env_flush_at_entry (hw := sam_e70)) ex_dev ex_pkt
    = (TxErr EIO, dev', pkt') ∧
    sem_count (tx_desc_sem (dev_queue dev')) = 2%nat ∧
    tx_in_flight (tx_frames (dev_queue dev')) = [].
Proof.
  destruct (@eth_tx_EIO_keeps_unit sam_e70 ex_dev ex_pkt
              (mk_buf 0xC000 0xC01E 50 64) [mk_buf 0xC100 0xC110 20 64])
    as (dev' & Heq & _ & Hsem & _ & _ & Hempty & _).
  - reflexivity.
  - vm_compute. lia.
  - reflexivity.
  - vm_compute. lia.
  - vm_compute. lia.
  - eexists dev', _. split; [exact Heq|]. split; [exact Hsem|exact Hempty].
Defined.

Lemma sam_e70_tx_ok : gmac_priv_tx_ok sam_e70.
Proof. split; reflexivity. Qed.

Lemma eth_tx_then_tx_completed_witness :
  ∃ dev1 pkt1 queue2,
    eth_tx (hw := sam_e70) (λ _ d, d) ex_dev_idle ex_pkt
    = (TxOk, dev1, pkt1) ∧
    sem_count (tx_desc_sem (dev_queue dev1)) = 1%nat ∧
    tx_completed (hw := sam_e70) (dev_queue dev1)
    = Some (queue2,
            [EvScan 0; EvSemGive; EvScan 1; EvSemGive; EvPktUnref 0xA100]) ∧
    sem_count (tx_desc_sem queue2) = 3%nat.
Proof.
  destruct (@eth_tx_then_tx_completed sam_e70 sam_e70_tx_ok ex_dev_idle
              ex_pkt (mk_buf 0xC000 0xC01E 50 64)
              [mk_buf 0xC100 0xC110 20 64])
    as (dev1 & pkt1 & queue2 & Heq & _ & _ & Hsem1 & Hcomp & _ & Hsem2 & _).
  - reflexivity.
  - unfold tx_flow_inv, tx_flow_held. vm_compute. lia.
  - reflexivity.
  - reflexivity.
  - vm_compute. lia.
  - vm_compute. lia.
  - exists dev1, pkt1, queue2.
    split; [exact Heq|]. split; [exact Hsem1|]. split; [exact Hcomp|].
    exact Hsem2.
Defined.
